(** * SSD1306Func: scroll, text reveal and click-to-confirm

    A shallow embedding of [SSD1306Func.cpp] (the vertical bitmap scroller,
    the dialog text functions and the four click-to-confirm waits) and the
    properties of its specification that can be settled on it.

    Conventions.
    - Machine integers are values of [Z]; every conversion the C++ code
      performs is written out with the wrap-around of the target type.
      [int] and [long] are 32 bits wide (ESP8266, ESP32 and the ARM cores),
      [int16_t] is 16 bits, [uint8_t] is 8 bits.
    - The display object and the serial port are external.  A call on one
      of them is an [event] appended to the [trace] of the [world]; the few
      pieces of their state the source reads back (cursor, text colour,
      receive buffer, clock, pin levels) are fields of the [world].
    - What the outside does between two polls (time passing, bytes
      arriving, pins changing) is a [tick]; a run is given the finite list
      of ticks it may observe. *)

From Stdlib Require Import ZArith List Bool String Ascii Lia.
Import ListNotations.
Local Open Scope Z_scope.
Set Warnings "-register-all".

(** ** Machine integers *)

Module Int.

Definition to_int16 (z : Z) : Z := (z + 32768) mod 65536 - 32768.
Definition to_int (z : Z) : Z := (z + 2147483648) mod 4294967296 - 2147483648.
Definition to_long (z : Z) : Z := to_int z.
Definition to_uint8 (z : Z) : Z := z mod 256.

Definition int16_range (z : Z) : Prop := -32768 <= z <= 32767.
Definition int_range (z : Z) : Prop := -2147483648 <= z <= 2147483647.
Definition long_range (z : Z) : Prop := int_range z.
Definition uint8_range (z : Z) : Prop := 0 <= z <= 255.

End Int.
Import Int.

(** ** The outside world *)

(** [#define ON 1], [#define OFF 0], [#define RECOMM -1]. *)
Definition ON : Z := 1.
Definition OFF : Z := 0.
Definition RECOMM : Z := -1.

(** [typedef struct ImageByteArray { bitmap; width; height } Image]. *)
Record Image : Type := mkImage {
  bitmap : list Z;
  width : Z;
  height : Z
}.

(** The click-to-confirm functions of the source. *)
Inductive gate : Type := CtcSerial | CtcTimedSerial | Ctc | CtcTimed.

(** Calls on the display object, on [Serial] and on the Arduino core, with
    the arguments as the callee receives them and, for the polls, the
    answer.  [Call g evs] is one invocation of a click-to-confirm function
    from a dialog function, with what the invocation did. *)
Inductive event : Type :=
| DrawBitmap (x y : Z) (bits : list Z) (w h : Z) (color : Z)
| Display
| Delay (ms : Z)
| GetCursorX (x : Z)
| GetCursorY (y : Z)
| SetCursor (x y : Z)
| SetTextColor (c : Z)
| WriteChar (c : ascii)
| WriteStr (s : string)
| SerialAvailable (n : Z)
| SerialRead (b : Z)
| Millis (t : Z)
| DigitalRead (pin : Z) (level : Z)
| Call (g : gate) (evs : list event).

Record world : Type := mkWorld {
  cursor_x : Z;
  cursor_y : Z;
  text_color : Z;
  rx : list Z;
  clock : Z;
  pins : list (Z * Z);
  trace : list event
}.

Definition log (e : event) (w : world) : world :=
  mkWorld (cursor_x w) (cursor_y w) (text_color w) (rx w) (clock w) (pins w)
          (trace w ++ [e]).

Definition with_trace (tr : list event) (w : world) : world :=
  mkWorld (cursor_x w) (cursor_y w) (text_color w) (rx w) (clock w) (pins w) tr.

(** What happens outside between two polls. *)
Record tick : Type := mkTick {
  dt : Z;
  arrive : list Z;
  levels : list (Z * Z)
}.

Definition pass (t : tick) (w : world) : world :=
  mkWorld (cursor_x w) (cursor_y w) (text_color w) (rx w ++ arrive t)
          (clock w + dt t) (levels t ++ pins w) (trace w).

(** A run ends with a value, is still waiting when the observed ticks are
    used up, or has used up the iterations it was allowed. *)
Inductive result (A : Type) : Type :=
| Ret (a : A)
| Pending
| OutOfFuel.
Arguments Ret {A} a.
Arguments Pending {A}.
Arguments OutOfFuel {A}.

Definition bind {A B : Type} (m : result A) (k : A -> result B) : result B :=
  match m with
  | Ret a => k a
  | Pending => Pending
  | OutOfFuel => OutOfFuel
  end.

Notation "x <- m ;; k" := (bind m (fun x => k))
  (at level 61, m at next level, right associativity).
Notation "' p <- m ;; k" := (bind m (fun x => match x with p => k end))
  (at level 61, p pattern, m at next level, right associativity).

(** ** Display and core operations *)

Definition display (w : world) : world := log Display w.

(** [delay(ms)] blocks for [ms] milliseconds. *)
Definition delay (ms : Z) (w : world) : world :=
  let w := log (Delay ms) w in
  mkWorld (cursor_x w) (cursor_y w) (text_color w) (rx w) (clock w + ms)
          (pins w) (trace w).

(** [drawBitmap(int16_t x, int16_t y, bitmap, int16_t w, int16_t h, color)]
    called with [int] arguments. *)
Definition drawBitmap (x y : Z) (bmp : Image) (color : Z) (w : world) : world :=
  log (DrawBitmap (to_int16 x) (to_int16 y) (bitmap bmp)
                  (to_int16 (width bmp)) (to_int16 (height bmp)) color) w.

(** ** ScrollEngine: [drawVerticalScrollingBitmap] *)

(** Lines 265-269: [end_y] becomes the absolute row where scrolling stops.
    [end_y] is an [int16_t] variable, the comparisons are made in [int]. *)
Definition resolve_end_y (scrollstep end_y : Z) (allowoverflow : bool)
                         (bmp : Image) : Z :=
  if (0 <? scrollstep) && (end_y <=? 0) then to_int16 (height bmp)
  else if (0 <? scrollstep) && (height bmp <? to_int (end_y + 64))
          && negb allowoverflow then to_int16 (height bmp)
  else if 0 <? scrollstep then to_int16 (to_int (end_y + 64))
  else if (scrollstep <? 0) && (height bmp <? to_int (end_y + 64))
          && negb allowoverflow then to_int16 (to_int (height bmp - 64))
  else if (scrollstep <? 0) && (end_y <? 0) && negb allowoverflow then 0
  else end_y.

Section ScrollLoops.

Variables (scrolldelay scrollstep : Z) (snaptoend : bool).
Variables (offset_x offset_y end_y : Z) (bmp : Image).

(** One redraw of the stepping loops. *)
Definition scroll_frame (y : Z) (w : world) : world :=
  delay scrolldelay (display (drawBitmap offset_x y bmp ON w)).

(** Lines 277-287, [scrollstep > 0]; [height] is the loop's [int]. *)
Fixpoint scroll_down (fuel : nat) (height : Z) (w : world) : result world :=
  let top := to_int (to_int (height + 64) - offset_y) in
  if top <? end_y then
    match fuel with
    | O => OutOfFuel
    | S fuel' =>
      let w := drawBitmap offset_x (to_int (to_int (- height) + offset_y))
                          bmp OFF w in
      if to_int (top + scrollstep) <? end_y then
        let height := to_int (height + scrollstep) in
        scroll_down fuel' height
          (scroll_frame (to_int (to_int (- height) + offset_y)) w)
      else if (top <? end_y) && negb snaptoend then
        let height := to_int (height + 1) in
        scroll_down fuel' height
          (scroll_frame (to_int (to_int (- height) + offset_y)) w)
      else Ret w
    end
  else Ret w.

(** Lines 294-304, [scrollstep < 0]. *)
Fixpoint scroll_up (fuel : nat) (height : Z) (w : world) : result world :=
  if height <? to_int (- end_y) then
    match fuel with
    | O => OutOfFuel
    | S fuel' =>
      let w := drawBitmap offset_x height bmp OFF w in
      if to_int (height - scrollstep) <=? to_int (- end_y) then
        let height := to_int (height - scrollstep) in
        scroll_up fuel' height (scroll_frame height w)
      else if (height <=? to_int (- end_y)) && negb snaptoend then
        let height := to_int (height + 1) in
        scroll_up fuel' height (scroll_frame height w)
      else Ret w
    end
  else Ret w.

End ScrollLoops.

(** The three calls that end both branches (lines 289-291 and 306-308). *)
Definition final_frame (offset_x y : Z) (bmp : Image) (enddelay : Z)
                       (w : world) : world :=
  delay enddelay (display (drawBitmap offset_x y bmp ON w)).

Definition norm (dflt v : Z) : Z := if v <? 0 then dflt else v.

Definition drawVerticalScrollingBitmap (fuel : nat)
    (initialdelay enddelay scrolldelay scrollstep : Z)
    (snaptoend allowoverflow : bool) (offset_x offset_y end_y : Z)
    (bmp : Image) (w : world) : result world :=
  let initialdelay := norm 500 initialdelay in
  let enddelay := norm 500 enddelay in
  let scrolldelay := norm 5 scrolldelay in
  let end_y := resolve_end_y scrollstep end_y allowoverflow bmp in
  let w := drawBitmap offset_x offset_y bmp ON w in
  let w := display w in
  let w := delay initialdelay w in
  if 0 <? scrollstep then
    w <- scroll_down scrolldelay scrollstep snaptoend offset_x offset_y end_y
                     bmp fuel 0 w ;;
    Ret (final_frame offset_x (to_int (- to_int (end_y - 64))) bmp enddelay w)
  else if scrollstep <? 0 then
    w <- scroll_up scrolldelay scrollstep snaptoend offset_x end_y bmp fuel
                   offset_y w ;;
    Ret (final_frame offset_x (to_int (- end_y)) bmp enddelay w)
  else Ret w.

(** ** Text, cursor and serial operations *)

Definition marker : ascii := "`"%char.

(** [dialog[i]]; the byte past the last character is the terminating NUL. *)
Definition char_at (s : string) (i : Z) : ascii :=
  if i <? 0 then zero
  else match String.get (Z.to_nat i) s with
       | Some c => c
       | None => zero
       end.

(** [strlen(dialog)] stored in an [int]. *)
Definition strlen (s : string) : Z := to_int (Z.of_nat (String.length s)).

(** [color = !color] on a [uint8_t]. *)
Definition lnot (c : Z) : Z := if c =? 0 then 1 else 0.

Definition getCursorX (w : world) : Z * world :=
  (cursor_x w, log (GetCursorX (cursor_x w)) w).

Definition getCursorY (w : world) : Z * world :=
  (cursor_y w, log (GetCursorY (cursor_y w)) w).

(** [setCursor(int16_t x, int16_t y)] called with [int] arguments. *)
Definition setCursor (x y : Z) (w : world) : world :=
  let w := log (SetCursor (to_int16 x) (to_int16 y)) w in
  mkWorld (to_int16 x) (to_int16 y) (text_color w) (rx w) (clock w) (pins w)
          (trace w).

Definition setTextColor (c : Z) (w : world) : world :=
  let w := log (SetTextColor c) w in
  mkWorld (cursor_x w) (cursor_y w) c (rx w) (clock w) (pins w) (trace w).

(** [Serial.read()]: the oldest byte of the receive buffer, or -1. *)
Definition Serial_read (w : world) : Z * world :=
  match rx w with
  | [] => (-1, log (SerialRead (-1)) w)
  | b :: rest =>
    (b, log (SerialRead b)
            (mkWorld (cursor_x w) (cursor_y w) (text_color w) rest (clock w)
                     (pins w) (trace w)))
  end.

(** [Serial.available()]: the number of bytes waiting. *)
Definition Serial_available (t : tick) (w : world) : Z * world :=
  let w := pass t w in
  let n := Z.of_nat (List.length (rx w)) in
  (n, log (SerialAvailable n) w).

(** [millis()], an [unsigned long], stored in a [long]. *)
Definition millis (t : tick) (w : world) : Z * world :=
  let w := pass t w in
  let now := to_long (clock w) in
  (now, log (Millis now) w).

Fixpoint pin_level (pin : Z) (ps : list (Z * Z)) : Z :=
  match ps with
  | [] => 0
  | (p, v) :: ps' => if p =? pin then v else pin_level pin ps'
  end.

Definition digitalRead (pin : Z) (t : tick) (w : world) : Z * world :=
  let w := pass t w in
  let v := pin_level pin (pins w) in
  (v, log (DigitalRead pin v) w).

(** A run threads the ticks still to come and the world. *)
Definition st : Type := (list tick * world)%type.

(** [while (Serial.available()) Serial.read();] *)
Fixpoint drain_serial (sch : list tick) (w : world) : result st :=
  match sch with
  | [] => Pending
  | t :: sch' =>
    let '(n, w) := Serial_available t w in
    if n =? 0 then Ret (sch', w)
    else drain_serial sch' (snd (Serial_read w))
  end.

(** One invocation of a click-to-confirm function from a dialog function:
    the callee's events are kept together under one [Call] node. *)
Definition call (g : gate) (body : st -> result st) (s : st) : result st :=
  let '(sch, w) := s in
  '(sch', w') <- body (sch, with_trace [] w) ;;
  Ret (sch', with_trace (trace w ++ [Call g (trace w')]) w').

Section TextLayer.

(** [Adafruit_GFX::write(uint8_t)] is not part of this repository: how a
    glyph moves the cursor is a parameter. *)
Variable glyph_step : Z * Z -> ascii -> Z * Z.

Definition write_char (c : ascii) (w : world) : world :=
  let w := log (WriteChar c) w in
  let '(x, y) := glyph_step (cursor_x w, cursor_y w) c in
  mkWorld x y (text_color w) (rx w) (clock w) (pins w) (trace w).

Definition write_str (s : string) (w : world) : world :=
  let w := log (WriteStr s) w in
  let '(x, y) := fold_left glyph_step (list_ascii_of_string s)
                           (cursor_x w, cursor_y w) in
  mkWorld x y (text_color w) (rx w) (clock w) (pins w) (trace w).

(** ** ConfirmGate: the click-to-confirm waits *)

(** [setCursor(116, 0); setTextColor(color); write(">>"); display();] *)
Definition indicator (color : Z) (w : world) : world :=
  display (write_str ">>" (setTextColor color (setCursor 116 0 w))).

(** Lines 481-491. *)
Fixpoint await_serial (sch : list tick) (prev color : Z) (w : world)
  : result st :=
  match sch with
  | [] => Pending
  | t :: sch1 =>
    let '(n, w) := Serial_available t w in
    if n =? 0 then
      match sch1 with
      | [] => Pending
      | t' :: sch2 =>
        let '(now, w) := millis t' w in
        if 500 <? to_long (now - prev) then
          let color := lnot color in
          await_serial sch2 now color (indicator color w)
        else await_serial sch2 prev color w
      end
    else Ret (sch1, w)
  end.

(** Lines 517-527 (and 589-599). *)
Fixpoint await_serial_timed (sch : list tick)
    (basetime prev now color timerMS : Z) (w : world) : result st :=
  match sch with
  | [] => Pending
  | t :: sch1 =>
    let '(n, w) := Serial_available t w in
    if (n =? 0) && (to_long (now - basetime) <? timerMS) then
      match sch1 with
      | [] => Pending
      | t' :: sch2 =>
        let '(now, w) := millis t' w in
        if 500 <? to_long (now - prev) then
          let color := lnot color in
          await_serial_timed sch2 basetime now now color timerMS
                             (indicator color w)
        else await_serial_timed sch2 basetime prev now color timerMS w
      end
    else Ret (sch1, w)
  end.

(** [while(digitalRead(button)) continue;] *)
Fixpoint await_release (sch : list tick) (button : Z) (w : world)
  : result st :=
  match sch with
  | [] => Pending
  | t :: sch' =>
    let '(v, w) := digitalRead button t w in
    if v =? 0 then Ret (sch', w) else await_release sch' button w
  end.

(** Lines 556-566. *)
Fixpoint await_press (sch : list tick) (button prev color : Z) (w : world)
  : result st :=
  match sch with
  | [] => Pending
  | t :: sch1 =>
    let '(v, w) := digitalRead button t w in
    if v =? 0 then
      match sch1 with
      | [] => Pending
      | t' :: sch2 =>
        let '(now, w) := millis t' w in
        if 500 <? to_long (now - prev) then
          let color := lnot color in
          await_press sch2 button now color (indicator color w)
        else await_press sch2 button prev color w
      end
    else Ret (sch1, w)
  end.

(** One observation of the clock. *)
Definition read_millis (s : st) : result (Z * st) :=
  match s with
  | ([], _) => Pending
  | (t :: sch, w) => let '(now, w) := millis t w in Ret (now, (sch, w))
  end.

Definition ctcSerial (s : st) : result st :=
  let '(sch, w) := s in
  let '(baseX, w) := getCursorX w in
  let '(baseY, w) := getCursorY w in
  let color := 0 in
  s <- drain_serial sch w ;;
  '(prev, (sch, w)) <- read_millis s ;;
  '(sch, w) <- await_serial sch prev color w ;;
  let w := indicator 0 w in
  '(sch, w) <- drain_serial sch w ;;
  let w := setCursor baseX baseY w in
  Ret (sch, setTextColor 1 w).

Definition ctcTimedSerial (timerMS : Z) (s : st) : result st :=
  let '(sch, w) := s in
  let '(baseX, w) := getCursorX w in
  let '(baseY, w) := getCursorY w in
  let color := 0 in
  s <- drain_serial sch w ;;
  '(basetime, s) <- read_millis s ;;
  '(prev, s) <- read_millis s ;;
  '(now, (sch, w)) <- read_millis s ;;
  '(sch, w) <- await_serial_timed sch basetime prev now color timerMS w ;;
  let w := indicator 0 w in
  '(sch, w) <- drain_serial sch w ;;
  let w := setCursor baseX baseY w in
  Ret (sch, setTextColor 1 w).

Definition ctc (button : Z) (s : st) : result st :=
  let '(sch, w) := s in
  let '(baseX, w) := getCursorX w in
  let '(baseY, w) := getCursorY w in
  let color := 0 in
  s <- await_release sch button w ;;
  '(prev, (sch, w)) <- read_millis s ;;
  '(sch, w) <- await_press sch button prev color w ;;
  let w := indicator 0 w in
  '(sch, w) <- drain_serial sch w ;;
  let w := setCursor baseX baseY w in
  Ret (sch, setTextColor 1 w).

Definition ctcTimed (button timerMS : Z) (s : st) : result st :=
  let '(sch, w) := s in
  let '(baseX, w) := getCursorX w in
  let '(baseY, w) := getCursorY w in
  let color := 0 in
  s <- drain_serial sch w ;;
  '(basetime, s) <- read_millis s ;;
  '(prev, s) <- read_millis s ;;
  '(now, (sch, w)) <- read_millis s ;;
  '(sch, w) <- await_serial_timed sch basetime prev now color timerMS w ;;
  let w := indicator 0 w in
  '(sch, w) <- drain_serial sch w ;;
  let w := setCursor baseX baseY w in
  Ret (sch, setTextColor 1 w).

(** ** TextRevealEngine: [drawDialogText] and [drawTimedDialogText] *)

Section Reveal.

(** The two dialog functions run the same loops (lines 344-367 and
    408-435); they differ in the wait [mid] a marker starts. *)
Variables (textspeed chardelay size : Z) (dialog : string).
Variable mid : st -> result st.

(** The body of the [for] loop, lines 346-351. *)
Definition reveal_char (i x : Z) (s : st) : result st :=
  let '(sch, w) := s in
  let c := char_at dialog (to_int (i + x)) in
  if Ascii.eqb c marker then mid (sch, delay chardelay (display w))
  else Ret (sch, write_char c w).

(** [for (int x = 0; x < textspeed; x++)]: [n] iterations are left. *)
Fixpoint reveal_chunk (n : nat) (i x : Z) (s : st) : result st :=
  match n with
  | O => Ret s
  | S n' =>
    s <- reveal_char i x s ;;
    reveal_chunk n' i (to_int (x + 1)) s
  end.

(** [while (i + textspeed < size)], lines 344-357; returns the last [i]. *)
Fixpoint reveal_ticks (fuel : nat) (i : Z) (s : st) : result (Z * st) :=
  if to_int (i + textspeed) <? size then
    match fuel with
    | O => OutOfFuel
    | S fuel' =>
      '(sch, w) <- reveal_chunk (Z.to_nat textspeed) i 0 s ;;
      reveal_ticks fuel' (to_int (i + textspeed))
                   (sch, delay chardelay (display w))
    end
  else Ret (i, s).

(** [while (i < size)], lines 359-367. *)
Fixpoint reveal_tail (fuel : nat) (i : Z) (s : st) : result st :=
  if i <? size then
    match fuel with
    | O => OutOfFuel
    | S fuel' =>
      let '(sch, w) := s in
      let c := char_at dialog i in
      s <- (if Ascii.eqb c marker then mid s
            else Ret (sch, delay chardelay (display (write_char c w)))) ;;
      reveal_tail fuel' (to_int (i + 1)) s
    end
  else Ret s.

End Reveal.

(** Lines 335-374 and 399-442: header, then the body in one of two modes. *)
Definition reveal (fuel : nat) (textspeed chardelay headerdelay onebyone : Z)
    (headertext dialog : string) (mid : st -> result st) (s : st)
  : result st :=
  let size := strlen dialog in
  let '(sch, w) := s in
  let w := setCursor 0 0 w in
  let w := write_str headertext w in
  let w := display w in
  let w := delay headerdelay w in
  let w := setCursor 0 16 w in
  if negb (onebyone =? 0) then
    '(i, s) <- reveal_ticks textspeed chardelay size dialog mid fuel 0
                            (sch, w) ;;
    reveal_tail chardelay size dialog mid fuel i s
  else
    let w := write_str dialog w in
    let w := display w in
    Ret (sch, delay 1 w).

(** Lines 327-377 and 390-446.  The parameters are the values the
    functions receive: [textspeed], [onebyone], [timedinput] and [timedend]
    are [uint8_t] values, so what is proved of a text speed assumes
    [uint8_range textspeed]; an argument outside it is converted by the
    call, before the body runs. *)
Definition drawDialogText (fuel : nat)
    (textspeed chardelay headerdelay onebyone : Z)
    (headertext dialog : string) (s : st) : result st :=
  let textspeed := if textspeed <=? 0 then 1 else textspeed in
  let chardelay := norm 10 chardelay in
  let headerdelay := norm 200 headerdelay in
  s <- reveal fuel textspeed chardelay headerdelay onebyone headertext dialog
              (call CtcSerial ctcSerial) s ;;
  call CtcSerial ctcSerial s.

Definition drawTimedDialogText (fuel : nat)
    (textspeed chardelay headerdelay timer timedinput timedend onebyone : Z)
    (headertext dialog : string) (s : st) : result st :=
  let textspeed := if textspeed <=? 0 then 1 else textspeed in
  let chardelay := norm 10 chardelay in
  let headerdelay := norm 200 headerdelay in
  let timer := norm 10000 timer in
  let mid := if negb (timedinput =? 0)
             then call CtcTimedSerial (ctcTimedSerial timer)
             else call CtcSerial ctcSerial in
  s <- reveal fuel textspeed chardelay headerdelay onebyone headertext dialog
              mid s ;;
  if negb (timedend =? 0) then call CtcTimedSerial (ctcTimedSerial timer) s
  else call CtcSerial ctcSerial s.

End TextLayer.

(** ** Reading a trace *)

(** The number of click-to-confirm invocations a dialog function made. *)
Fixpoint gate_calls (tr : list event) : nat :=
  match tr with
  | [] => O
  | Call _ _ :: tr' => S (gate_calls tr')
  | _ :: tr' => gate_calls tr'
  end.

(** The characters a function itself sent to the display, in order. *)
Fixpoint written (tr : list event) : list ascii :=
  match tr with
  | [] => []
  | WriteChar c :: tr' => c :: written tr'
  | WriteStr s :: tr' => list_ascii_of_string s ++ written tr'
  | _ :: tr' => written tr'
  end.

(** What follows the first [setCursor(0, 16)], where the body starts. *)
Fixpoint after_body_origin (tr : list event) : list event :=
  match tr with
  | [] => []
  | SetCursor 0 16 :: tr' => tr'
  | _ :: tr' => after_body_origin tr'
  end.

(** The text written to the display as the body of a dialog. *)
Definition body_text (tr : list event) : list ascii :=
  written (after_body_origin tr).

(** How many times ">>" was written in colour [c]; [cur] is the colour in
    effect where [tr] starts. *)
Fixpoint indicator_writes (c cur : Z) (tr : list event) : nat :=
  match tr with
  | [] => O
  | SetTextColor c' :: tr' => indicator_writes c c' tr'
  | WriteStr s :: tr' =>
    if (cur =? c) && String.eqb s ">>" then S (indicator_writes c cur tr')
    else indicator_writes c cur tr'
  | _ :: tr' => indicator_writes c cur tr'
  end.

(** The rows at which the bitmap was drawn lit, in order. *)
Fixpoint lit_rows (tr : list event) : list Z :=
  match tr with
  | [] => []
  | DrawBitmap _ y _ _ _ 1 :: tr' => y :: lit_rows tr'
  | _ :: tr' => lit_rows tr'
  end.

(** A body without its markers. *)
Definition unmarked (l : list ascii) : list ascii :=
  filter (fun c => negb (Ascii.eqb c marker)) l.

Definition markers (l : list ascii) : nat :=
  List.length (filter (fun c => Ascii.eqb c marker) l).

(** The end offset as the specification words it: downward, the natural end
    for [endMarker <= 0], else [endMarker + 64] clamped to the height unless
    overflow is allowed; upward, [height - 64], [0] or [endMarker]. *)
Definition spec_end_y (stepPixels endMarker : Z) (allowOverflow : bool)
                      (bmpHeight : Z) : Z :=
  if 0 <? stepPixels then
    if endMarker <=? 0 then bmpHeight
    else if (bmpHeight <? endMarker + 64) && negb allowOverflow then bmpHeight
    else endMarker + 64
  else
    if (bmpHeight <? endMarker + 64) && negb allowOverflow then bmpHeight - 64
    else if (endMarker <? 0) && negb allowOverflow then 0
    else endMarker.

(** The sizes of the moves between successive lit frames. *)
Fixpoint moves (rows : list Z) : list Z :=
  match rows with
  | a :: (b :: _) as rest => (a - b) :: moves rest
  | _ => []
  end.

(** The polls of the serial port and of the clock. *)
Definition is_poll (e : event) : bool :=
  match e with
  | SerialAvailable _ | SerialRead _ | Millis _ => true
  | _ => false
  end.

(** The time a list of ticks spans. *)
Fixpoint total_dt (sch : list tick) : Z :=
  match sch with
  | [] => 0
  | t :: sch' => dt t + total_dt sch'
  end.

(** Time does not run backwards; nothing arrives on the serial port. *)
Definition steady (t : tick) : Prop := 0 <= dt t.
Definition silent (t : tick) : Prop := arrive t = [].

(** No event of a trace is a read of a GPIO pin. *)
Definition pin_free (e : event) : bool :=
  match e with
  | DigitalRead _ _ => false
  | _ => true
  end.

(** [w'] is [w] after events that all satisfy [P]. *)
Definition emits (P : event -> bool) (w w' : world) : Prop :=
  exists evs, trace w' = trace w ++ evs /\ forallb P evs = true.

(** What a run that only polls leaves behind: the clock moved by the ticks
    it used, cursor and colour as they were. *)
Definition polled (used : list tick) (w w' : world) : Prop :=
  clock w' = clock w + total_dt used
  /\ cursor_x w' = cursor_x w /\ cursor_y w' = cursor_y w
  /\ text_color w' = text_color w
  /\ emits is_poll w w'.

(** ** The shape of a revealed body *)

(** The events of the characters of one full tick (the [for] loop): a glyph
    is written, a marker presents, waits and starts a click-to-confirm. *)
Inductive tick_events (d : Z) : list ascii -> list event -> Prop :=
| te_nil : tick_events d [] []
| te_glyph c l evs :
    c <> marker -> tick_events d l evs ->
    tick_events d (c :: l) (WriteChar c :: evs)
| te_gate l evs g inner :
    tick_events d l evs ->
    tick_events d (marker :: l) (Display :: Delay d :: Call g inner :: evs).

(** The events of the trailing characters (the second [while] loop): a
    glyph is written and presented, a marker only starts the wait. *)
Inductive tail_events (d : Z) : list ascii -> list event -> Prop :=
| tl_nil : tail_events d [] []
| tl_glyph c l evs :
    c <> marker -> tail_events d l evs ->
    tail_events d (c :: l) (WriteChar c :: Display :: Delay d :: evs)
| tl_gate l evs g inner :
    tail_events d l evs ->
    tail_events d (marker :: l) (Call g inner :: evs).

(** The events of a body revealed [n] characters per tick: full ticks, each
    presented, as long as more than [n] characters are left, then the
    trailing characters. *)
Inductive body_events (n : nat) (d : Z) : list ascii -> list event -> Prop :=
| be_tick l e1 e2 :
    (n < List.length l)%nat ->
    tick_events d (firstn n l) e1 ->
    body_events n d (skipn n l) e2 ->
    body_events n d l (e1 ++ Display :: Delay d :: e2)
| be_tail l e :
    (List.length l <= n)%nat -> tail_events d l e -> body_events n d l e.

(** The click-to-confirm invocations of [tr] that do not come right after a
    [display()] and a [delay(d)]; [seen] counts how much of that pair the
    events just before [tr] make up. *)
Fixpoint bare_gates (d : Z) (seen : nat) (tr : list event) : nat :=
  match tr with
  | [] => O
  | Display :: tr' => bare_gates d 1 tr'
  | Delay ms :: tr' =>
    bare_gates d (if Nat.eqb seen 1 && (ms =? d) then 2%nat else O) tr'
  | Call _ _ :: tr' =>
    if Nat.eqb seen 2 then bare_gates d 0 tr' else S (bare_gates d 0 tr')
  | _ :: tr' => bare_gates d 0 tr'
  end.

(** The header part of a dialog. *)
Definition header_events (headertext : string) (headerdelay : Z)
  : list event :=
  [SetCursor 0 0; WriteStr headertext; Display; Delay headerdelay;
   SetCursor 0 16].

(** ** Readers and closed forms for the further properties *)

(** Any event at all. *)
Definition any_event (e : event) : bool := true.

(** A clock that advances at every observation; a tick at which no pin
    changes level. *)
Definition ticking (t : tick) : Prop := 1 <= dt t.
Definition level_kept (t : tick) : Prop := levels t = [].

(** The rows of the lit frames a downward stepping loop draws when the
    bitmap stands at row [top] and [togo] rows are left to the end: whole
    steps while more than [scrollstep] rows are left, then single rows
    unless [snaptoend]. *)
Definition down_rows (scrollstep : Z) (snaptoend : bool) (top togo : Z)
  : list Z :=
  let k := Z.to_nat ((togo - 1) / scrollstep) in
  let r := if snaptoend then O
           else Z.to_nat (togo - Z.of_nat k * scrollstep) in
  map (fun j => top - Z.of_nat j * scrollstep) (seq 1 k)
  ++ map (fun j => top - Z.of_nat k * scrollstep - Z.of_nat j) (seq 1 r).

(** The same for the upward loop, [scrollstep] negative: whole steps while
    at least [- scrollstep] rows are left. *)
Definition up_rows (scrollstep : Z) (snaptoend : bool) (top togo : Z)
  : list Z :=
  let k := Z.to_nat (togo / (- scrollstep)) in
  let r := if snaptoend then O
           else Z.to_nat (togo - Z.of_nat k * (- scrollstep)) in
  map (fun j => top + Z.of_nat j * (- scrollstep)) (seq 1 k)
  ++ map (fun j => top + Z.of_nat k * (- scrollstep) + Z.of_nat j) (seq 1 r).

(** Every dark draw of the bitmap is at the place of the lit draw before
    it; [last] is where the bitmap is lit when the events start. *)
Fixpoint erases_in_place (last : Z * Z) (tr : list event) : bool :=
  match tr with
  | [] => true
  | DrawBitmap x y _ _ _ c :: tr' =>
    if c =? 0
    then (x =? fst last) && (y =? snd last) && erases_in_place last tr'
    else erases_in_place (x, y) tr'
  | _ :: tr' => erases_in_place last tr'
  end.

(** The text cursor of the display. *)
Definition cursor (w : world) : Z * Z := (cursor_x w, cursor_y w).

(** Positions an [int16_t] cursor can hold, and glyph steps that stay on
    them. *)
Definition on_grid (p : Z * Z) : Prop :=
  int16_range (fst p) /\ int16_range (snd p).

Definition keeps_grid (glyph_step : Z * Z -> ascii -> Z * Z) : Prop :=
  forall p c, on_grid p -> on_grid (glyph_step p c).

(** Every wait a dialog function starts itself is the gate [g]. *)
Definition same_gate (g g' : gate) : bool :=
  match g, g' with
  | CtcSerial, CtcSerial | CtcTimedSerial, CtcTimedSerial
  | Ctc, Ctc | CtcTimed, CtcTimed => true
  | _, _ => false
  end.

Definition waits_are (g : gate) (e : event) : bool :=
  match e with
  | Call g' _ => same_gate g g'
  | _ => true
  end.

(** ** Fills and fades *)

(** The screen test and fade functions only draw, present and wait.  Their
    calls on the display object are kept in a list of their own; [Core]
    holds the calls [event] already has ([display()], [delay()],
    [drawBitmap()]).  [width()] and [height()] of the display are fields of
    the state. *)
Module Gfx.

Inductive op : Type :=
| Core (e : event)
| ClearDisplay
| DrawFastHLine (x y w color : Z)
| DrawFastVLine (x y h color : Z)
| DrawLine (x0 y0 x1 y1 color : Z)
| FillRect (x y w h color : Z).

Record screen : Type := mkScreen {
  scr_width : Z;
  scr_height : Z;
  drawn : list op
}.

Definition put (g : op) (s : screen) : screen :=
  mkScreen (scr_width s) (scr_height s) (drawn s ++ [g]).

(** A run ends, divides by zero, or has used up the iterations it was
    allowed. *)
Inductive outcome (A : Type) : Type :=
| Finished (a : A)
| DivisionByZero
| Unfinished.
Arguments Finished {A} a.
Arguments DivisionByZero {A}.
Arguments Unfinished {A}.

Definition after {A B : Type} (m : outcome A) (k : A -> outcome B)
  : outcome B :=
  match m with
  | Finished a => k a
  | DivisionByZero => DivisionByZero
  | Unfinished => Unfinished
  end.

Notation "x <~ m ;; k" := (after m (fun x => k))
  (at level 61, m at next level, right associativity).

Definition display (s : screen) : screen := put (Core Display) s.
Definition delay (ms : Z) (s : screen) : screen := put (Core (Delay ms)) s.
Definition clearDisplay (s : screen) : screen := put ClearDisplay s.

(** The drawing calls take [int16_t] coordinates and sizes. *)
Definition drawFastHLine (x y w color : Z) (s : screen) : screen :=
  put (DrawFastHLine (to_int16 x) (to_int16 y) (to_int16 w) color) s.
Definition drawFastVLine (x y h color : Z) (s : screen) : screen :=
  put (DrawFastVLine (to_int16 x) (to_int16 y) (to_int16 h) color) s.
Definition drawLine (x0 y0 x1 y1 color : Z) (s : screen) : screen :=
  put (DrawLine (to_int16 x0) (to_int16 y0) (to_int16 x1) (to_int16 y1)
                color) s.
Definition fillRect (x y w h color : Z) (s : screen) : screen :=
  put (FillRect (to_int16 x) (to_int16 y) (to_int16 w) (to_int16 h) color) s.
Definition drawBitmap (x y : Z) (bmp : Image) (color : Z) (s : screen)
  : screen :=
  put (Core (DrawBitmap (to_int16 x) (to_int16 y) (bitmap bmp)
                        (to_int16 (width bmp)) (to_int16 (height bmp))
                        color)) s.

(** [for (i = ...; i < limit; i += step) body], the counter stored through
    [conv] ([to_int] for an [int], [to_int16] for an [int16_t]). *)
Fixpoint for_loop (fuel : nat) (conv : Z -> Z) (step limit : Z)
    (body : Z -> screen -> outcome screen) (i : Z) (s : screen)
  : outcome screen :=
  if i <? limit then
    match fuel with
    | O => Unfinished
    | S fuel' =>
      s <~ body i s ;;
      for_loop fuel' conv step limit body (conv (i + step)) s
    end
  else Finished s.

(** [a / b] on a [long] and an [int]. *)
Definition quotient (a b : Z) : outcome Z :=
  if b =? 0 then DivisionByZero else Finished (to_long (Z.quot a b)).

(** Lines 36-56. *)
Definition fillScreenSlow (fuel : nat) (s : screen) : outcome screen :=
  let s := clearDisplay s in
  s <~ for_loop fuel to_int16 2 (scr_height s)
         (fun i s =>
            Finished (delay 5 (display
              (drawFastHLine 0 i (scr_width s) ON s)))) 0 s ;;
  s <~ for_loop fuel to_int16 2 (scr_width s)
         (fun i s =>
            Finished (delay 5 (display
              (drawFastVLine i 0 (scr_height s) ON s)))) 0 s ;;
  for_loop fuel to_int16 2 (scr_height s)
    (fun i s =>
       Finished (delay 5 (display
         (drawFastHLine 0 i (scr_width s) ON s)))) 1 s.

(** Lines 60-63. *)
Definition fillScreenFast (s : screen) : screen :=
  display (fillRect 0 0 (scr_width s) (scr_height s) ON s).

(** Lines 74-100. *)
Definition fadeGrid (fuel : nat) (delaytime state : Z) (s : screen)
  : outcome screen :=
  let delaytime := norm 50 delaytime in
  s <~ for_loop fuel to_int 2 (scr_width s)
         (fun i s => Finished (drawFastVLine i 0 (scr_height s) state s))
         0 s ;;
  let s := delay delaytime (display s) in
  s <~ for_loop fuel to_int 2 (scr_height s)
         (fun i s => Finished (drawFastHLine 0 i (scr_width s) state s))
         0 s ;;
  let s := delay delaytime (display s) in
  s <~ for_loop fuel to_int 2 (scr_width s)
         (fun i s => Finished (drawFastVLine i 0 (scr_height s) state s))
         1 s ;;
  let s := delay delaytime (display s) in
  if state =? 0 then Finished (delay delaytime (display (clearDisplay s)))
  else Finished s.

(** Lines 106-126. *)
Definition fadeCross (fuel : nat) (delaytime state : Z) (s : screen)
  : outcome screen :=
  let delaytime := norm 50 delaytime in
  s <~ for_loop fuel to_int 2 (to_int (scr_width s + scr_height s))
         (fun i s => Finished (drawLine 0 i i 0 state s)) 0 s ;;
  let s := delay delaytime (display s) in
  s <~ for_loop fuel to_int 2 (to_int (scr_width s + scr_height s))
         (fun i s => Finished (drawLine 0 i i 0 state s)) 1 s ;;
  let s := delay delaytime (display s) in
  if state =? 0 then Finished (delay delaytime (display (clearDisplay s)))
  else Finished s.

(** The three "blinds" fades run the same loops (lines 138-150, 163-175 and
    188-200) over different lines: pass [i] draws the lines [i],
    [i + cycles], ... below [limit], presents and waits. *)
Definition blinds (fuel : nat) (cycles wholedelaytime state limit : Z)
    (line : Z -> screen -> screen) (s : screen) : outcome screen :=
  s <~ for_loop fuel to_int 1 cycles
         (fun i s =>
            s <~ for_loop fuel to_int cycles limit
                   (fun j s => Finished (line j s)) i s ;;
            q <~ quotient wholedelaytime cycles ;;
            Finished (delay q (display s))) 0 s ;;
  if state =? 0 then
    let s := display (clearDisplay s) in
    q <~ quotient wholedelaytime cycles ;;
    Finished (delay q s)
  else Finished s.

(** Lines 133-151. *)
Definition fadeVertical (fuel : nat) (cycles wholedelaytime state : Z)
    (s : screen) : outcome screen :=
  let cycles := if cycles <? 0 then 4 else cycles in
  let wholedelaytime := if wholedelaytime <? 0 then to_int (10 * cycles)
                        else wholedelaytime in
  blinds fuel cycles wholedelaytime state (scr_width s)
         (fun j s => drawFastVLine j 0 (scr_height s) state s) s.

(** Lines 158-176. *)
Definition fadeHorizontal (fuel : nat) (cycles wholedelaytime state : Z)
    (s : screen) : outcome screen :=
  let cycles := if cycles <? 0 then 3 else cycles in
  let wholedelaytime := if wholedelaytime <? 0 then to_int (10 * cycles)
                        else wholedelaytime in
  blinds fuel cycles wholedelaytime state (scr_height s)
         (fun j s => drawFastHLine 0 j (scr_width s) state s) s.

(** Lines 183-201. *)
Definition fadeDiagonal (fuel : nat) (cycles wholedelaytime state : Z)
    (s : screen) : outcome screen :=
  let cycles := if cycles <? 0 then 4 else cycles in
  let wholedelaytime := if wholedelaytime <? 0 then to_int (25 * cycles)
                        else wholedelaytime in
  blinds fuel cycles wholedelaytime state
         (to_int (scr_width s + scr_height s))
         (fun j s => drawLine 0 j j 0 state s) s.

(** Lines 215-243. *)
Definition fadeInGridBitmap (fuel : nat) (delaytime initdelaytime : Z)
    (offset_x offset_y : Z) (bmp : Image) (s : screen) : outcome screen :=
  let delaytime := norm 50 delaytime in
  let initdelaytime := norm 500 initdelaytime in
  s <~ fadeGrid fuel delaytime ON s ;;
  let s := delay initdelaytime s in
  s <~ for_loop fuel to_int 2 (scr_width s)
         (fun i s => Finished (drawFastVLine i 0 (scr_height s) OFF s))
         0 s ;;
  let s := delay delaytime (display (drawBitmap offset_x offset_y bmp ON s)) in
  s <~ for_loop fuel to_int 2 (scr_height s)
         (fun i s => Finished (drawFastHLine 0 i (scr_width s) OFF s))
         0 s ;;
  let s := delay delaytime (display (drawBitmap offset_x offset_y bmp ON s)) in
  s <~ for_loop fuel to_int 2 (scr_height s)
         (fun i s => Finished (drawFastHLine 0 i (scr_width s) OFF s))
         1 s ;;
  Finished (delay delaytime (display (drawBitmap offset_x offset_y bmp ON s))).

(** Lines 451-455 and 459-463. *)
Definition clearHeaderText (s : screen) : screen :=
  delay 1 (display (fillRect 0 0 128 16 OFF s)).
Definition clearDialogText (s : screen) : screen :=
  delay 1 (display (fillRect 0 16 128 48 OFF s)).

End Gfx.

(** The counter values of [for (j = i; j < limit; j += c)]. *)
Definition strides (c limit i : Z) : list Z :=
  map (fun k => i + Z.of_nat k * c)
      (seq 0 (Z.to_nat ((limit - i + c - 1) / c))).

(** Full lines of a run: the columns drawn from the top edge over [h] rows,
    the rows drawn from the left edge over [w] columns, and the diagonals
    from [(0, j)] to [(j, 0)], in a given colour. *)
Definition column (h color : Z) (g : Gfx.op) : option Z :=
  match g with
  | Gfx.DrawFastVLine x y h' c =>
    if (y =? 0) && (h' =? h) && (c =? color) then Some x else None
  | _ => None
  end.

Definition row (w color : Z) (g : Gfx.op) : option Z :=
  match g with
  | Gfx.DrawFastHLine x y w' c =>
    if (x =? 0) && (w' =? w) && (c =? color) then Some y else None
  | _ => None
  end.

Definition diagonal (color : Z) (g : Gfx.op) : option Z :=
  match g with
  | Gfx.DrawLine x0 y0 x1 y1 c =>
    if (x0 =? 0) && (y1 =? 0) && (y0 =? x1) && (c =? color) then Some y0
    else None
  | _ => None
  end.

Fixpoint picks (f : Gfx.op -> option Z) (l : list Gfx.op) : list Z :=
  match l with
  | [] => []
  | g :: l' =>
    match f g with
    | Some z => z :: picks f l'
    | None => picks f l'
    end
  end.

(** How often line [x] is among [l]. *)
Definition times (l : list Z) (x : Z) : nat := count_occ Z.eq_dec l x.

(** The milliseconds spent in [delay()] and the number of [display()]
    calls of a run. *)
Fixpoint waited (l : list Gfx.op) : Z :=
  match l with
  | [] => 0
  | Gfx.Core (Delay ms) :: l' => ms + waited l'
  | _ :: l' => waited l'
  end.

Fixpoint presents (l : list Gfx.op) : nat :=
  match l with
  | [] => O
  | Gfx.Core Display :: l' => S (presents l')
  | _ :: l' => presents l'
  end.

(** The bitmap draws of a run. *)
Fixpoint bitmaps (l : list Gfx.op) : list event :=
  match l with
  | [] => []
  | Gfx.Core (DrawBitmap x y b w h c) :: l' =>
    DrawBitmap x y b w h c :: bitmaps l'
  | _ :: l' => bitmaps l'
  end.

(** The lines the fades draw on a display of [w] by [h] pixels. *)
Definition columns_of (h color : Z) (js : list Z) : list Gfx.op :=
  map (fun j => Gfx.DrawFastVLine (to_int16 j) (to_int16 0) (to_int16 h)
                                  color) js.
Definition rows_of (w color : Z) (js : list Z) : list Gfx.op :=
  map (fun j => Gfx.DrawFastHLine (to_int16 0) (to_int16 j) (to_int16 w)
                                  color) js.
Definition diagonals_of (color : Z) (js : list Z) : list Gfx.op :=
  map (fun j => Gfx.DrawLine (to_int16 0) (to_int16 j) (to_int16 j)
                             (to_int16 0) color) js.

(** The calls of [fadeGrid] in order. *)
Definition fadeGrid_ops (w h delaytime state : Z) : list Gfx.op :=
  columns_of h state (strides 2 w 0)
  ++ [Gfx.Core Display; Gfx.Core (Delay (norm 50 delaytime))]
  ++ rows_of w state (strides 2 h 0)
  ++ [Gfx.Core Display; Gfx.Core (Delay (norm 50 delaytime))]
  ++ columns_of h state (strides 2 w 1)
  ++ [Gfx.Core Display; Gfx.Core (Delay (norm 50 delaytime))]
  ++ (if state =? 0
      then [Gfx.ClearDisplay; Gfx.Core Display;
            Gfx.Core (Delay (norm 50 delaytime))]
      else []).

(** The calls of the blinds fades in order: [lines] draws one pass, [q] is
    the wait after each. *)
Definition blinds_ops (cycles limit q state : Z)
    (lines : list Z -> list Gfx.op) : list Gfx.op :=
  flat_map (fun i => lines (strides cycles limit i)
                     ++ [Gfx.Core Display; Gfx.Core (Delay q)])
           (strides 1 cycles 0)
  ++ (if state =? 0
      then [Gfx.ClearDisplay; Gfx.Core Display; Gfx.Core (Delay q)]
      else []).

(** One line of [fillScreenSlow]: drawn, presented, held for 5 ms. *)
Definition slow_line (g : Gfx.op) : list Gfx.op :=
  [g; Gfx.Core Display; Gfx.Core (Delay 5)].

(** ** Sample inputs *)

(** A display just initialised: cursor at the origin, white text. *)
Definition boot : world := mkWorld 0 0 1 [] 0 [] [].

(** The classic 6x8 font at text size 1, without wrapping. *)
Definition classic_step (p : Z * Z) (c : ascii) : Z * Z := (fst p + 6, snd p).

Definition bmp128 : Image := mkImage [] 128 128.
Definition bmp64 : Image := mkImage [] 128 64.

(** One millisecond in which nothing happens, and one in which a byte
    arrives on the serial port. *)
Definition quiet : tick := mkTick 1 [] [].
Definition key : tick := mkTick 1 [65] [].

(** The ticks of one serial wait answered at its first poll. *)
Definition press : list tick := [quiet; quiet; key; quiet; quiet].

(** The classic font on the [int16_t] cursor of the library. *)
Definition int16_step (p : Z * Z) (c : ascii) : Z * Z :=
  (to_int16 (fst p + 6), snd p).

(** The 128x64 panel, nothing drawn yet. *)
Definition oled : Gfx.screen := Gfx.mkScreen 128 64 [].

(** * Properties *)

(** ** Machine integers *)

Lemma to_int16_small z : int16_range z -> to_int16 z = z.
Proof.
  unfold int16_range, to_int16; intros H.
  rewrite Z.mod_small; lia.
Qed.

Lemma to_int_small z : int_range z -> to_int z = z.
Proof.
  unfold int_range, to_int; intros H.
  rewrite Z.mod_small; lia.
Qed.

Lemma to_long_small z : long_range z -> to_long z = z.
Proof. exact (to_int_small z). Qed.

Lemma to_int16_range z : int16_range (to_int16 z).
Proof.
  unfold int16_range, to_int16.
  pose proof (Z.mod_pos_bound (z + 32768) 65536); lia.
Qed.

Lemma to_int16_to_int z : to_int16 (to_int z) = to_int16 z.
Proof.
  unfold to_int16, to_int.
  pose proof (Z.div_mod (z + 2147483648) 4294967296 ltac:(lia)) as E.
  replace ((z + 2147483648) mod 4294967296 - 2147483648 + 32768)
    with (z + 32768 + (- ((z + 2147483648) / 4294967296) * 65536) * 65536)
    by lia.
  now rewrite Z.mod_add by lia.
Qed.

(** Strips the conversions whose operand is in range, innermost first. *)
Ltac int_step :=
  match goal with
  | |- context [to_int ?z] =>
    lazymatch z with
    | context [to_int _] => fail
    | _ => rewrite (to_int_small z) by (unfold int_range, int16_range in *; lia)
    end
  end.
Ltac int_simpl := repeat int_step.

(** ** ScrollEngine *)

(** The stored end offset is the specified one reduced to 16 bits. *)
Lemma resolve_end_y_wraps step end_y ao bmp :
  step <> 0 -> int16_range end_y ->
  resolve_end_y step end_y ao bmp
  = to_int16 (spec_end_y step end_y ao (height bmp)).
Proof.
  intros Hstep Hend.
  unfold resolve_end_y, spec_end_y.
  rewrite (to_int_small (end_y + 64))
    by (unfold int_range, int16_range in *; lia).
  rewrite !to_int16_to_int.
  destruct (0 <? step) eqn:Hpos; cbn [andb].
  - destruct (end_y <=? 0); [reflexivity|].
    destruct ((height bmp <? end_y + 64) && negb ao); reflexivity.
  - assert ((step <? 0) = true) as -> by lia. cbn [andb].
    destruct (height bmp <? end_y + 64), ao; cbn [andb negb]; try reflexivity;
      destruct (end_y <? 0); cbn [andb]; try reflexivity;
      now rewrite to_int16_small.
Qed.

(** C1, as amended.  [end_y] is a 16-bit variable: what the code stores is
    the value of the specified case analysis reduced to 16 bits, and it is
    that value itself whenever the value fits 16 bits. *)
Theorem resolve_end_y_case_analysis step end_y ao bmp :
  step <> 0 -> int16_range end_y ->
  resolve_end_y step end_y ao bmp
  = to_int16 (spec_end_y step end_y ao (height bmp))
  /\ (int16_range (spec_end_y step end_y ao (height bmp)) ->
      resolve_end_y step end_y ao bmp
      = spec_end_y step end_y ao (height bmp)).
Proof.
  intros Hstep Hend. split.
  - now apply resolve_end_y_wraps.
  - intros Hfit. rewrite resolve_end_y_wraps by assumption.
    now apply to_int16_small.
Qed.

Lemma resolve_end_y_case_analysis_witness :
  resolve_end_y 2 10 false (mkImage [] 128 128) = 74
  /\ resolve_end_y (-3) 100 false (mkImage [] 128 128) = 64.
Proof.
  split.
  - exact (proj2 (resolve_end_y_case_analysis 2 10 false (mkImage [] 128 128)
                    ltac:(lia) ltac:(unfold int16_range; lia))
                 ltac:(vm_compute; split; discriminate)).
  - exact (proj2 (resolve_end_y_case_analysis (-3) 100 false
                    (mkImage [] 128 128)
                    ltac:(lia) ltac:(unfold int16_range; lia))
                 ltac:(vm_compute; split; discriminate)).
Defined.

(** C1 as stated fails: [endMarker + 64] does not fit the 16-bit [end_y]. *)
Lemma resolve_end_y_overflow :
  resolve_end_y 1 32767 true (mkImage [] 128 64) = -32705
  /\ resolve_end_y 1 32767 true (mkImage [] 128 64)
     <> spec_end_y 1 32767 true 64.
Proof. split; [reflexivity | discriminate]. Qed.

(** C2 as stated fails: with overflow allowed the end offset passes the
    bitmap's height, and scrolling a bitmap shorter than the viewport upward
    ends below zero. *)
Lemma resolve_end_y_out_of_bounds :
  ~ (0 <= resolve_end_y 1 50 true (mkImage [] 128 100) <= 100)
  /\ ~ (0 <= resolve_end_y (-1) 0 false (mkImage [] 128 32) <= 32).
Proof. split; vm_compute; intros [H1 H2]; auto. Qed.

(** C2, as amended: with overflow disallowed the end offset lies within the
    bitmap, for a bitmap at least as tall as the viewport when scrolling
    upward. *)
Theorem resolve_end_y_bounds step end_y bmp :
  step <> 0 -> int16_range end_y -> 0 <= height bmp <= 32767 ->
  0 < step \/ 64 <= height bmp ->
  0 <= resolve_end_y step end_y false bmp <= height bmp.
Proof.
  intros Hstep Hend Hh Hdir.
  rewrite resolve_end_y_wraps by assumption.
  unfold spec_end_y, int16_range in *.
  destruct (0 <? step) eqn:Hpos; cbn [negb];
    rewrite ?andb_true_r.
  - destruct (end_y <=? 0) eqn:E1;
      [rewrite to_int16_small; unfold int16_range; lia|].
    destruct (height bmp <? end_y + 64) eqn:E2;
      rewrite to_int16_small; unfold int16_range; lia.
  - destruct (height bmp <? end_y + 64) eqn:E2;
      [rewrite to_int16_small; unfold int16_range; lia|].
    destruct (end_y <? 0) eqn:E3;
      rewrite to_int16_small; unfold int16_range; lia.
Qed.

Lemma resolve_end_y_bounds_witness :
  0 <= resolve_end_y (-2) 200 false (mkImage [] 128 128) <= 128.
Proof.
  apply (resolve_end_y_bounds (-2) 200 (mkImage [] 128 128));
    unfold int16_range; cbn [height]; lia.
Defined.

Section ScrollTermination.

Variables (scrolldelay scrollstep : Z) (snaptoend : bool).
Variables (offset_x offset_y end_y : Z) (bmp : Image).
Hypothesis Hoff : int16_range offset_y.
Hypothesis Hend : int16_range end_y.

(** Each turn of the downward loop moves [height] at least one row closer
    to [end_y]: the rows still to go bound the turns. *)
Lemma scroll_down_returns fuel :
  0 < scrollstep <= 2 ^ 31 - 2 ^ 17 ->
  forall h w,
    0 <= h <= 65536 ->
    (Z.to_nat (end_y - (h + 64 - offset_y)) <= fuel)%nat ->
    exists w', scroll_down scrolldelay scrollstep snaptoend offset_x offset_y
                           end_y bmp fuel h w = Ret w'.
Proof.
  intros Hstep. induction fuel as [|fuel IH]; intros h w Hh Hfuel.
  - cbn. int_simpl.
    destruct (h + 64 - offset_y <? end_y) eqn:E; [lia | eauto].
  - cbn. int_simpl.
    destruct (h + 64 - offset_y <? end_y) eqn:E; [| eauto].
    destruct (h + 64 - offset_y + scrollstep <? end_y) eqn:E1.
    + int_simpl. apply IH; unfold int16_range in *; lia.
    + cbn [andb]. destruct snaptoend; cbn [negb]; [eauto|].
      int_simpl. apply IH; unfold int16_range in *; lia.
Qed.

Lemma scroll_up_returns fuel :
  - (2 ^ 31 - 2 ^ 17) <= scrollstep < 0 ->
  forall h w,
    -32768 <= h <= 32768 ->
    (Z.to_nat (- end_y - h) <= fuel)%nat ->
    exists w', scroll_up scrolldelay scrollstep snaptoend offset_x end_y bmp
                         fuel h w = Ret w'.
Proof.
  intros Hstep. induction fuel as [|fuel IH]; intros h w Hh Hfuel.
  - cbn. int_simpl.
    destruct (h <? - end_y) eqn:E; [lia | eauto].
  - cbn. int_simpl.
    destruct (h <? - end_y) eqn:E; [| eauto].
    destruct (h - scrollstep <=? - end_y) eqn:E1.
    + apply IH; unfold int16_range in *; lia.
    + destruct ((h <=? - end_y) && negb snaptoend) eqn:E2; [| eauto].
      apply IH; unfold int16_range in *; lia.
Qed.

End ScrollTermination.

(** C6.  Whatever the stepping loop does, it exits, and what follows is one
    lit frame at the resolved end offset, one [display()] and the hold for
    the end delay; this includes the runs where the loop has nothing to do. *)
Theorem scroll_ends_with_final_frame
    initialdelay enddelay scrolldelay scrollstep snaptoend allowoverflow
    offset_x offset_y end_y bmp w :
  scrollstep <> 0 ->
  - (2 ^ 31 - 2 ^ 17) <= scrollstep <= 2 ^ 31 - 2 ^ 17 ->
  int16_range offset_y -> int16_range end_y ->
  let endY := resolve_end_y scrollstep end_y allowoverflow bmp in
  let row := if 0 <? scrollstep then - (endY - 64) else - endY in
  let w1 := delay (norm 500 initialdelay)
                  (display (drawBitmap offset_x offset_y bmp ON w)) in
  exists N, forall fuel, (N <= fuel)%nat ->
    exists wl w',
      (if 0 <? scrollstep
       then scroll_down (norm 5 scrolldelay) scrollstep snaptoend offset_x
                        offset_y endY bmp fuel 0 w1
       else scroll_up (norm 5 scrolldelay) scrollstep snaptoend offset_x
                      endY bmp fuel offset_y w1) = Ret wl
      /\ drawVerticalScrollingBitmap fuel initialdelay enddelay scrolldelay
           scrollstep snaptoend allowoverflow offset_x offset_y end_y bmp w
         = Ret w'
      /\ trace w'
         = trace wl ++ [DrawBitmap (to_int16 offset_x) (to_int16 row)
                                   (bitmap bmp) (to_int16 (width bmp))
                                   (to_int16 (height bmp)) ON;
                        Display; Delay (norm 500 enddelay)].
Proof.
  intros Hstep Hrange Hoff Hend endY row w1.
  assert (HendY : int16_range endY).
  { unfold endY, resolve_end_y.
    repeat match goal with
           | |- context [if ?b then _ else _] => destruct b
           end; auto using to_int16_range; unfold int16_range; lia. }
  destruct (0 <? scrollstep) eqn:Hpos.
  - exists (Z.to_nat (endY - (0 + 64 - offset_y))). intros fuel Hfuel.
    destruct (scroll_down_returns (norm 5 scrolldelay) scrollstep snaptoend
                offset_x offset_y endY bmp Hoff HendY fuel ltac:(lia) 0 w1
                ltac:(lia) Hfuel) as [wl Hl].
    exists wl. eexists. split; [exact Hl|].
    unfold drawVerticalScrollingBitmap. rewrite Hpos.
    fold endY. fold w1. rewrite Hl. cbn [bind]. split; [reflexivity|].
    unfold final_frame, row. int_simpl.
    unfold delay, display, drawBitmap, log; cbn [trace].
    now rewrite <- !app_assoc.
  - exists (Z.to_nat (- endY - offset_y)). intros fuel Hfuel.
    destruct (scroll_up_returns (norm 5 scrolldelay) scrollstep snaptoend
                offset_x endY bmp HendY fuel ltac:(lia) offset_y w1
                ltac:(unfold int16_range in *; lia) Hfuel) as [wl Hl].
    exists wl. eexists. split; [exact Hl|].
    unfold drawVerticalScrollingBitmap. rewrite Hpos.
    assert ((scrollstep <? 0) = true) as -> by lia.
    fold endY. fold w1. rewrite Hl. cbn [bind]. split; [reflexivity|].
    unfold final_frame, row. int_simpl.
    unfold delay, display, drawBitmap, log; cbn [trace].
    now rewrite <- !app_assoc.
Qed.

Lemma scroll_ends_with_final_frame_witness :
  exists N, forall fuel, (N <= fuel)%nat ->
    exists wl w',
      scroll_down 5 1 false 0 0 64 bmp64 fuel 0
        (delay 500 (display (drawBitmap 0 0 bmp64 ON boot))) = Ret wl
      /\ drawVerticalScrollingBitmap fuel (-1) (-1) (-1) 1 false false 0 0 0
           bmp64 boot = Ret w'
      /\ trace w' = trace wl ++ [DrawBitmap 0 0 [] 128 64 ON; Display;
                                 Delay 500].
Proof.
  exact (scroll_ends_with_final_frame (-1) (-1) (-1) 1 false false 0 0 0
           bmp64 boot ltac:(lia) ltac:(lia)
           ltac:(unfold int16_range; lia) ltac:(unfold int16_range; lia)).
Defined.

(** The run of the witness makes no step at all: first frame, final frame. *)
Lemma scroll_zero_steps :
  drawVerticalScrollingBitmap 0 (-1) (-1) (-1) 1 false false 0 0 0 bmp64 boot
  = Ret (mkWorld 0 0 1 [] 1000 []
           [DrawBitmap 0 0 [] 128 64 ON; Display; Delay 500;
            DrawBitmap 0 0 [] 128 64 ON; Display; Delay 500]).
Proof. reflexivity. Qed.

(** C7 at its input.  The end offset resolves to 128, but the loop makes 31
    two-pixel steps, not 32: at row 62 the test [height + 64 + 2 < 128] of
    line 280 fails, so the last two rows are covered by two one-pixel steps
    ([snaptoend] off) or left to the final frame ([snaptoend] on). *)
Lemma scroll_128_by_2 :
  resolve_end_y 2 0 false bmp128 = 128
  /\ (exists w',
        drawVerticalScrollingBitmap 40 0 0 0 2 false false 0 0 0 bmp128 boot
        = Ret w'
        /\ lit_rows (trace w')
           = map (fun k => - (2 * Z.of_nat k)) (seq 0 32) ++ [-63; -64; -64]
        /\ count_occ Z.eq_dec (moves (lit_rows (trace w'))) 2 = 31%nat)
  /\ (exists w',
        drawVerticalScrollingBitmap 40 0 0 0 2 true false 0 0 0 bmp128 boot
        = Ret w'
        /\ lit_rows (trace w')
           = map (fun k => - (2 * Z.of_nat k)) (seq 0 32) ++ [-64]).
Proof.
  split; [reflexivity|].
  split; eexists; (split; [vm_compute; reflexivity|]);
    [split|]; vm_compute; reflexivity.
Qed.

(** ** ConfirmGate *)

Ltac run_binds H :=
  repeat match type of H with
         | context [bind ?m _] =>
           let E := fresh "E" in
           destruct m as [[]| |] eqn:E; cbn [bind] in H; try discriminate H
         | context [match ?x with pair _ _ => _ end] => destruct x
         end;
  repeat match goal with
         | x : st |- _ => destruct x
         end.

Lemma total_dt_app a b : total_dt (a ++ b) = total_dt a + total_dt b.
Proof. induction a; cbn; lia. Qed.

Lemma indicator_writes_polls c cur evs rest :
  forallb is_poll evs = true ->
  indicator_writes c cur (evs ++ rest) = indicator_writes c cur rest.
Proof.
  induction evs as [|e evs IH]; [reflexivity|].
  destruct e; cbn; try discriminate; auto.
Qed.

Lemma emits_refl P w : emits P w w.
Proof. exists []. now rewrite app_nil_r. Qed.

Lemma emits_trans P w w1 w2 : emits P w w1 -> emits P w1 w2 -> emits P w w2.
Proof.
  intros (e1 & E1 & P1) (e2 & E2 & P2). exists (e1 ++ e2).
  now rewrite E2, E1, app_assoc, forallb_app, P1, P2.
Qed.

Lemma emits_log P e w w' : P e = true -> emits P w w' -> emits P w (log e w').
Proof.
  intros He (evs & E & HP). exists (evs ++ [e]). cbn [log trace].
  rewrite E, app_assoc, forallb_app, HP. cbn. now rewrite He.
Qed.

Lemma emits_trace P w w1 w2 evs :
  emits P w w1 -> trace w2 = trace w1 ++ evs -> forallb P evs = true ->
  emits P w w2.
Proof.
  intros (e1 & E1 & P1) E2 P2. exists (e1 ++ evs).
  now rewrite E2, E1, app_assoc, forallb_app, P1, P2.
Qed.

Lemma emits_weaken (P Q : event -> bool) w w' :
  (forall e, P e = true -> Q e = true) -> emits P w w' -> emits Q w w'.
Proof.
  intros HPQ (evs & E & HP). exists evs. split; [assumption|].
  rewrite forallb_forall in *. auto.
Qed.

Lemma polled_refl w : polled [] w w.
Proof.
  unfold polled; cbn. repeat split; try lia. apply emits_refl.
Qed.

Lemma polled_trans u1 u2 w w1 w2 :
  polled u1 w w1 -> polled u2 w1 w2 -> polled (u1 ++ u2) w w2.
Proof.
  intros (C1 & X1 & Y1 & T1 & E1) (C2 & X2 & Y2 & T2 & E2).
  unfold polled. rewrite total_dt_app.
  repeat split; try congruence; try lia.
  eapply emits_trans; eassumption.
Qed.

Lemma polled_log e w w' u :
  is_poll e = true -> polled u w w' -> polled u w (log e w').
Proof.
  intros He (C & X & Y & T & E). unfold polled.
  cbn [log clock cursor_x cursor_y text_color].
  repeat split; auto using emits_log.
Qed.

Lemma polled_pass t w : polled [t] w (pass t w).
Proof.
  unfold polled; cbn. repeat split; try lia.
  exists []. now rewrite app_nil_r.
Qed.

Lemma polled_read w : polled [] w (snd (Serial_read w)).
Proof.
  unfold Serial_read. destruct (rx w); cbn [snd];
    apply polled_log; auto; [apply polled_refl|].
  unfold polled; cbn. repeat split; try lia.
  exists []. now rewrite app_nil_r.
Qed.

Lemma polled_available t w : polled [t] w (snd (Serial_available t w)).
Proof. cbn. apply polled_log; auto using polled_pass. Qed.

Lemma polled_millis t w : polled [t] w (snd (millis t w)).
Proof. cbn. apply polled_log; auto using polled_pass. Qed.

Lemma drain_serial_polled sch : forall w sch' w',
  drain_serial sch w = Ret (sch', w') ->
  rx w' = [] /\ exists used, sch = used ++ sch' /\ polled used w w'.
Proof.
  induction sch as [|t sch IH]; intros w sch' w' H; [discriminate|].
  cbn [drain_serial] in H.
  pose proof (polled_available t w) as Ha.
  destruct (Serial_available t w) as [n w1] eqn:Ea.
  destruct (n =? 0) eqn:En.
  - injection H as <- <-. split.
    + unfold Serial_available in Ea. injection Ea as <- <-. cbn in *.
      destruct (rx w ++ arrive t); [reflexivity | cbn in En; lia].
    + exists [t]. auto.
  - apply IH in H as (Hr & used & -> & Hp). split; [assumption|].
    exists (t :: used). split; [reflexivity|].
    change (t :: used) with ([t] ++ [] ++ used).
    eapply polled_trans; [exact Ha|].
    eapply polled_trans; [apply polled_read | exact Hp].
Qed.

Lemma read_millis_polled sch w now sch' w' :
  read_millis (sch, w) = Ret (now, (sch', w')) ->
  exists t, sch = t :: sch' /\ polled [t] w w' /\ now = to_long (clock w')
            /\ rx w' = rx w ++ arrive t.
Proof.
  destruct sch as [|t sch]; [discriminate|]. unfold read_millis.
  pose proof (polled_millis t w) as Hm. unfold millis in *. cbn [snd] in Hm.
  intros H; injection H as <- <- <-.
  exists t. split; [reflexivity|]. split; [exact Hm|]. split; reflexivity.
Qed.

Section Gates.
Variable gs : Z * Z -> ascii -> Z * Z.

Lemma trace_write_str s w : trace (write_str gs s w) = trace w ++ [WriteStr s].
Proof.
  unfold write_str. destruct (fold_left _ _ _). reflexivity.
Qed.

Lemma rx_write_str s w : rx (write_str gs s w) = rx w.
Proof.
  unfold write_str. destruct (fold_left _ _ _). reflexivity.
Qed.

Lemma clock_write_str s w : clock (write_str gs s w) = clock w.
Proof.
  unfold write_str. destruct (fold_left _ _ _). reflexivity.
Qed.

Lemma trace_indicator c w :
  trace (indicator gs c w)
  = trace w ++ [SetCursor 116 0; SetTextColor c; WriteStr ">>"; Display].
Proof.
  unfold indicator, display. cbn [log trace]. rewrite trace_write_str.
  cbn. now rewrite <- !app_assoc.
Qed.

Lemma rx_indicator c w : rx (indicator gs c w) = rx w.
Proof. unfold indicator, display. cbn [log rx]. now rewrite rx_write_str. Qed.

Lemma clock_indicator c w : clock (indicator gs c w) = clock w.
Proof.
  unfold indicator, display. cbn [log clock]. now rewrite clock_write_str.
Qed.

Lemma total_dt_steady sch : Forall steady sch -> 0 <= total_dt sch.
Proof. induction 1; cbn; unfold steady in *; lia. Qed.

(** With an empty buffer and nothing arriving, the wait goes on. *)
Lemma await_serial_silent n : forall sch prev color w,
  (List.length sch <= n)%nat -> Forall silent sch -> rx w = [] ->
  await_serial gs sch prev color w = Pending.
Proof.
  induction n as [|n IH]; intros sch prev color w Hn Hs Hrx.
  - destruct sch; [reflexivity | cbn in Hn; lia].
  - destruct sch as [|t [|t' sch2]]; [reflexivity| |];
      apply Forall_cons_iff in Hs as [Ht Hs]; unfold silent in Ht;
      cbn; rewrite Hrx, Ht; cbn; [reflexivity|].
    apply Forall_cons_iff in Hs as [Ht' Hs]; unfold silent in Ht'.
    destruct (500 <? _); apply IH; cbn in Hn; try lia; auto;
      rewrite ?rx_indicator; cbn; now rewrite Hrx, Ht, Ht'.
Qed.

Lemma drain_serial_suffix sch w :
  drain_serial sch w = Pending
  \/ exists used sch' w', sch = used ++ sch' /\ rx w' = []
                          /\ drain_serial sch w = Ret (sch', w').
Proof.
  destruct (drain_serial sch w) as [[sch' w']| |] eqn:E; auto.
  - apply drain_serial_polled in E as (Hr & used & -> & _).
    right. eauto 6.
  - exfalso. revert w E. induction sch as [|t sch IH]; intros w; cbn;
      [discriminate|].
    destruct (_ =? 0); [discriminate | apply IH].
Qed.

Lemma ctcSerial_silent sch w :
  Forall silent sch -> ctcSerial gs (sch, w) = Pending.
Proof.
  intros Hs. unfold ctcSerial. cbn [getCursorX getCursorY].
  match goal with |- context [drain_serial sch ?w0] =>
    destruct (drain_serial_suffix sch w0)
      as [-> | (used & l & w1 & -> & Hrx & ->)]
  end; [reflexivity|].
  cbn [bind]. apply Forall_app in Hs as [_ Hs].
  destruct l as [|t l]; [reflexivity|].
  apply Forall_cons_iff in Hs as [Ht Hs]. unfold silent in Ht.
  cbn [read_millis millis bind].
  rewrite (await_serial_silent _ _ _ _ _ (Nat.le_refl _)); auto.
  cbn. now rewrite Hrx, Ht.
Qed.

(** The wait uses up a prefix of the ticks, and its clock only advances. *)
Lemma await_serial_clock n : forall sch prev color w sch' w',
  (List.length sch <= n)%nat ->
  await_serial gs sch prev color w = Ret (sch', w') ->
  exists used, sch = used ++ sch'
               /\ (Forall steady used -> clock w <= clock w').
Proof.
  induction n as [|n IH]; intros sch prev color w sch' w' Hn H.
  - destruct sch; [discriminate | cbn in Hn; lia].
  - destruct sch as [|t sch1]; [discriminate|].
    cbn [await_serial] in H.
    destruct (Serial_available t w) as [k w1] eqn:Ea.
    assert (Hw1 : clock w1 = clock w + dt t)
      by (unfold Serial_available in Ea; now injection Ea as <- <-).
    destruct (k =? 0).
    + destruct sch1 as [|t' sch2]; [discriminate|].
      destruct (millis t' w1) as [now w2] eqn:Em.
      assert (Hw2 : clock w2 = clock w1 + dt t')
        by (unfold millis in Em; now injection Em as <- <-).
      assert (exists used, sch2 = used ++ sch'
                /\ (Forall steady used -> clock w2 <= clock w'))
        as (used & -> & Hu).
      { destruct (500 <? _); apply IH in H as (used & E & Hu);
          cbn in Hn; try lia; rewrite ?clock_indicator in Hu; eauto. }
      exists (t :: t' :: used). split; [reflexivity|]. intros Hs.
      apply Forall_cons_iff in Hs as [Ht Hs].
      apply Forall_cons_iff in Hs as [Ht' Hs].
      unfold steady in Ht, Ht'. specialize (Hu Hs). lia.
    + injection H as <- <-. exists [t]. split; [reflexivity|].
      intros Hs. apply Forall_cons_iff in Hs as [Ht _].
      unfold steady in Ht. lia.
Qed.

(** A wait that ends within 500 ms of [prev] has only polled. *)
Lemma await_serial_prompt n : forall sch prev color w sch' w',
  (List.length sch <= n)%nat ->
  Forall steady sch ->
  0 <= prev <= clock w ->
  clock w' <= prev + 500 -> clock w' < 2 ^ 31 ->
  await_serial gs sch prev color w = Ret (sch', w') ->
  exists used, sch = used ++ sch' /\ polled used w w'.
Proof.
  induction n as [|n IH]; intros sch prev color w sch' w' Hn Hs Hp Hb Hr H.
  - destruct sch; [discriminate | cbn in Hn; lia].
  - destruct sch as [|t sch1]; [discriminate|].
    cbn [await_serial] in H.
    pose proof (polled_available t w) as Ha.
    destruct (Serial_available t w) as [k w1] eqn:Ea. cbn [snd] in Ha.
    apply Forall_cons_iff in Hs as [Ht Hs]. unfold steady in Ht.
    destruct (k =? 0).
    + destruct sch1 as [|t' sch2]; [discriminate|].
      pose proof (polled_millis t' w1) as Hm.
      destruct (millis t' w1) as [now w2] eqn:Em. cbn [snd] in Hm.
      apply Forall_cons_iff in Hs as [Ht' Hs]. unfold steady in Ht'.
      assert (Hw1 : clock w1 = clock w + dt t)
        by (destruct Ha as [-> _]; cbn; lia).
      assert (Hw2 : clock w2 = clock w1 + dt t')
        by (destruct Hm as [-> _]; cbn; lia).
      assert (Hlater : clock w2 <= clock w').
      { destruct (500 <? _);
          apply (await_serial_clock _ _ _ _ _ _ _ (Nat.le_refl _)) in H
            as (used & -> & Hu);
          apply Forall_app in Hs as [Hs _]; specialize (Hu Hs);
          rewrite ?clock_indicator in Hu; lia. }
      assert (Hnow : now = clock w2).
      { unfold millis in Em. injection Em as <- <-. cbn.
        apply to_long_small. unfold long_range, int_range. cbn in *. lia. }
      replace (500 <? to_long (now - prev)) with false in H.
      2:{ symmetry. apply Z.ltb_ge. rewrite to_long_small;
          unfold long_range, int_range; lia. }
      apply IH in H as (used & -> & Hu); cbn in Hn; try lia; auto.
      exists (t :: t' :: used). split; [reflexivity|].
      change (t :: t' :: used) with ([t] ++ [t'] ++ used).
      eauto using polled_trans.
    + injection H as <- <-. exists [t]. auto.
Qed.

Lemma ctcSerial_prompt sch w sch' w' :
  Forall steady sch -> 0 <= clock w ->
  clock w' <= clock w + 500 -> clock w' < 2 ^ 31 ->
  ctcSerial gs (sch, w) = Ret (sch', w') ->
  exists evs, trace w' = trace w ++ evs
              /\ indicator_writes 1 (text_color w) evs = O.
Proof.
  intros Hs Hc Hb Hr. unfold ctcSerial. cbn [getCursorX getCursorY]. intros H.
  run_binds H.
  apply drain_serial_polled in E as (_ & u0 & -> & P0).
  apply read_millis_polled in E0 as (t & -> & Pm & -> & _).
  apply Forall_app in Hs as [Hs0 Hs]. apply Forall_cons_iff in Hs as [Ht Hs].
  pose proof (total_dt_steady _ Hs0). unfold steady in Ht.
  assert (Hw1 : clock w1 = clock w + total_dt u0 + dt t).
  { destruct P0 as [C0 _], Pm as [Cm _]. rewrite Cm, C0. cbn. lia. }
  pose proof E1 as Eclock.
  apply (await_serial_clock _ _ _ _ _ _ _ (Nat.le_refl _)) in Eclock
    as (ua & -> & Hua).
  apply Forall_app in Hs as [Hsa Hs]. specialize (Hua Hsa).
  apply drain_serial_polled in E2 as (_ & u2 & -> & P2).
  apply Forall_app in Hs as [Hs2 Hs]. pose proof (total_dt_steady _ Hs2).
  assert (Hw3 : clock w3 = clock w2 + total_dt u2).
  { destruct P2 as [C2 _]. rewrite C2. now rewrite clock_indicator. }
  injection H as <- <-.
  cbn [setTextColor setCursor log clock] in Hb, Hr.
  rewrite to_long_small in E1 by (unfold long_range, int_range; lia).
  apply (await_serial_prompt _ _ _ _ _ _ _ (Nat.le_refl _)) in E1
    as (ua' & Eua & Pa); auto using Forall_app; try lia.
  2:{ apply Forall_app. split; [assumption|]. apply Forall_app. auto. }
  pose proof (polled_trans _ _ _ _ _ (polled_trans _ _ _ _ _ P0 Pm) Pa)
    as (_ & _ & _ & _ & e1 & T1 & Q1).
  destruct P2 as (_ & _ & _ & _ & e2 & T2 & Q2).
  rewrite trace_indicator in T2.
  exists ([GetCursorX (cursor_x w); GetCursorY (cursor_y w)] ++ e1
          ++ [SetCursor 116 0; SetTextColor 0; WriteStr ">>"; Display] ++ e2
          ++ [SetCursor (to_int16 (cursor_x w)) (to_int16 (cursor_y w));
              SetTextColor 1]).
  split.
  - cbn [setTextColor setCursor log trace]. rewrite T2, T1. cbn [log trace].
    now rewrite <- !app_assoc.
  - cbn [app indicator_writes]. rewrite indicator_writes_polls by assumption.
    cbn [app indicator_writes]. cbn [Z.eqb andb].
    now rewrite indicator_writes_polls by assumption.
Qed.

Lemma ctcSerial_exit sch w sch' w' :
  ctcSerial gs (sch, w) = Ret (sch', w') ->
  cursor_x w' = to_int16 (cursor_x w) /\ cursor_y w' = to_int16 (cursor_y w)
  /\ text_color w' = 1.
Proof.
  unfold ctcSerial. cbn [getCursorX getCursorY]. intros H.
  run_binds H. injection H as <- <-. cbn. auto.
Qed.

Lemma ctcTimedSerial_exit timer sch w sch' w' :
  ctcTimedSerial gs timer (sch, w) = Ret (sch', w') ->
  cursor_x w' = to_int16 (cursor_x w) /\ cursor_y w' = to_int16 (cursor_y w)
  /\ text_color w' = 1.
Proof.
  unfold ctcTimedSerial. cbn [getCursorX getCursorY]. intros H.
  run_binds H. injection H as <- <-. cbn. auto.
Qed.

Lemma polled_pin_free u w w' : polled u w w' -> emits pin_free w w'.
Proof.
  intros (_ & _ & _ & _ & E). eapply emits_weaken; [|exact E].
  intros []; cbn; congruence.
Qed.

Lemma indicator_pin_free c w : emits pin_free w (indicator gs c w).
Proof.
  exists [SetCursor 116 0; SetTextColor c; WriteStr ">>"; Display].
  split; [apply trace_indicator | reflexivity].
Qed.

Lemma await_serial_timed_pin_free n :
  forall sch basetime prev now color timerMS w sch' w',
    (List.length sch <= n)%nat ->
    await_serial_timed gs sch basetime prev now color timerMS w
    = Ret (sch', w') ->
    emits pin_free w w'.
Proof.
  induction n as [|n IH];
    intros sch basetime prev now color timerMS w sch' w' Hn H.
  - destruct sch; [discriminate | cbn in Hn; lia].
  - destruct sch as [|t sch1]; [discriminate|].
    cbn [await_serial_timed] in H.
    pose proof (polled_pin_free _ _ _ (polled_available t w)) as Ha.
    destruct (Serial_available t w) as [k w1]. cbn [snd] in Ha.
    destruct ((k =? 0) && _).
    + destruct sch1 as [|t' sch2]; [discriminate|].
      pose proof (polled_pin_free _ _ _ (polled_millis t' w1)) as Hm.
      destruct (millis t' w1) as [now' w2]. cbn [snd] in Hm.
      destruct (500 <? _); apply IH in H; cbn in Hn; try lia;
        eauto using emits_trans, indicator_pin_free.
    + injection H as <- <-. assumption.
Qed.

Lemma ctcTimed_pin_free button timerMS sch w sch' w' :
  ctcTimed gs button timerMS (sch, w) = Ret (sch', w') ->
  emits pin_free w w'.
Proof.
  unfold ctcTimed. cbn [getCursorX getCursorY]. intros H. run_binds H.
  apply drain_serial_polled in E as (_ & ? & _ & P0).
  apply read_millis_polled in E0 as (? & _ & P1 & _).
  apply read_millis_polled in E1 as (? & _ & P2 & _).
  apply read_millis_polled in E2 as (? & _ & P3 & _).
  apply (await_serial_timed_pin_free _ _ _ _ _ _ _ _ _ _ (Nat.le_refl _))
    in E3.
  apply drain_serial_polled in E4 as (_ & ? & _ & P4).
  injection H as <- <-.
  apply polled_pin_free in P0, P1, P2, P3, P4.
  assert (Hstart : emits pin_free w
            (log (GetCursorY (cursor_y (log (GetCursorX (cursor_x w)) w)))
                 (log (GetCursorX (cursor_x w)) w)))
    by (repeat (apply emits_log; [reflexivity|]); apply emits_refl).
  eapply emits_trace
    with (evs := [SetCursor (to_int16 (cursor_x w)) (to_int16 (cursor_y w));
                  SetTextColor 1]);
    cycle 1.
  { cbn. rewrite <- app_assoc. reflexivity. }
  { reflexivity. }
  repeat (eapply emits_trans; [eassumption|]).
  eapply emits_trans; [apply indicator_pin_free | exact P4].
Qed.

End Gates.

(** C4 as stated fails.  A byte queued before the call is thrown away by
    the flush of line 476: the wait then lasts until another byte arrives,
    and the indicator is lit once 500 ms have passed. *)
Lemma ctcSerial_ignores_queued_input :
  ctcSerial classic_step (repeat (mkTick 100 [] []) 20,
                          mkWorld 0 16 1 [66] 0 [] []) = Pending
  /\ exists sch' w',
       ctcSerial classic_step
         ([quiet; quiet; quiet; quiet; mkTick 600 [] []; key; quiet; quiet],
          mkWorld 0 16 1 [66] 0 [] [])
       = Ret (sch', w')
       /\ indicator_writes 1 1 (trace w') = 1%nat.
Proof.
  split; [vm_compute; reflexivity|].
  do 2 eexists. split; vm_compute; reflexivity.
Qed.

(** C4, as amended.  Whatever was queued before the call, [ctcSerial] keeps
    waiting as long as nothing new arrives; and when it returns no later
    than 500 ms after it was called, the indicator was never written lit. *)
Theorem ctcSerial_waits_for_new_input gs sch w :
  (Forall silent sch -> ctcSerial gs (sch, w) = Pending)
  /\ (forall sch' w',
        Forall steady sch -> 0 <= clock w ->
        clock w' <= clock w + 500 -> clock w' < 2 ^ 31 ->
        ctcSerial gs (sch, w) = Ret (sch', w') ->
        exists evs, trace w' = trace w ++ evs
                    /\ indicator_writes 1 (text_color w) evs = O).
Proof.
  split.
  - apply ctcSerial_silent.
  - intros sch' w'. apply ctcSerial_prompt.
Qed.

Lemma ctcSerial_waits_for_new_input_witness :
  ctcSerial classic_step ([quiet; quiet; quiet; quiet; quiet],
                          mkWorld 0 16 1 [66] 0 [] []) = Pending
  /\ exists sch' w',
       ctcSerial classic_step
         ([quiet; quiet; quiet; key; quiet; quiet; mkTick 900 [] []],
          mkWorld 0 16 1 [66] 0 [] []) = Ret (sch', w')
       /\ exists evs,
            trace w' = trace (mkWorld 0 16 1 [66] 0 [] []) ++ evs
            /\ indicator_writes 1 1 evs = O.
Proof.
  split.
  - apply (proj1 (ctcSerial_waits_for_new_input classic_step
                    [quiet; quiet; quiet; quiet; quiet]
                    (mkWorld 0 16 1 [66] 0 [] []))).
    repeat constructor.
  - do 2 eexists. split; [vm_compute; reflexivity|].
    apply (proj2 (ctcSerial_waits_for_new_input classic_step
                    [quiet; quiet; quiet; key; quiet; quiet; mkTick 900 [] []]
                    (mkWorld 0 16 1 [66] 0 [] [])) [mkTick 900 [] []]).
    + repeat constructor; unfold steady; cbn; lia.
    + cbn; lia.
    + cbn; lia.
    + cbn; lia.
    + vm_compute; reflexivity.
Defined.

(** C5 as stated fails: the text colour in effect before the call is not
    kept, the exit of line 500 sets colour 1. *)
Lemma ctcSerial_forces_white :
  exists sch' w',
    ctcSerial classic_step (press, mkWorld 30 16 0 [] 0 [] [])
    = Ret (sch', w')
    /\ text_color w' = 1
    /\ text_color w' <> text_color (mkWorld 30 16 0 [] 0 [] []).
Proof.
  do 2 eexists. split; [vm_compute; reflexivity|].
  split; [reflexivity | discriminate].
Qed.

(** C5, as amended.  On return from either serial wait the cursor is where
    it was before the call, for every prior position, and the text colour
    is 1 whatever it was. *)
Theorem ctc_restores_cursor gs :
  (forall sch w sch' w',
      int16_range (cursor_x w) -> int16_range (cursor_y w) ->
      ctcSerial gs (sch, w) = Ret (sch', w') ->
      cursor_x w' = cursor_x w /\ cursor_y w' = cursor_y w
      /\ text_color w' = 1)
  /\ (forall timerMS sch w sch' w',
        int16_range (cursor_x w) -> int16_range (cursor_y w) ->
        ctcTimedSerial gs timerMS (sch, w) = Ret (sch', w') ->
        cursor_x w' = cursor_x w /\ cursor_y w' = cursor_y w
        /\ text_color w' = 1).
Proof.
  split.
  - intros sch w sch' w' Hx Hy H.
    apply ctcSerial_exit in H as (-> & -> & ->).
    now rewrite !to_int16_small.
  - intros timerMS sch w sch' w' Hx Hy H.
    apply ctcTimedSerial_exit in H as (-> & -> & ->).
    now rewrite !to_int16_small.
Qed.

Lemma ctc_restores_cursor_witness :
  (exists w', ctcSerial classic_step (press, mkWorld 30 16 1 [] 0 [] [])
              = Ret ([], w')
              /\ cursor_x w' = 30 /\ cursor_y w' = 16 /\ text_color w' = 1)
  /\ (exists w', ctcTimedSerial classic_step 3
                   (repeat quiet 8, mkWorld 30 16 1 [] 0 [] []) = Ret ([], w')
                 /\ cursor_x w' = 30 /\ cursor_y w' = 16
                 /\ text_color w' = 1).
Proof.
  split.
  - eexists. split; [vm_compute; reflexivity|].
    apply (proj1 (ctc_restores_cursor classic_step) press
                 (mkWorld 30 16 1 [] 0 [] []) []).
    + unfold int16_range; cbn; lia.
    + unfold int16_range; cbn; lia.
    + vm_compute; reflexivity.
  - eexists. split; [vm_compute; reflexivity|].
    apply (proj2 (ctc_restores_cursor classic_step) 3 (repeat quiet 8)
                 (mkWorld 30 16 1 [] 0 [] []) []).
    + unfold int16_range; cbn; lia.
    + unfold int16_range; cbn; lia.
    + vm_compute; reflexivity.
Defined.

(** C10.  [ctcTimed] does what [ctcTimedSerial] does, whatever the button:
    the same run, event for event, and no read of a pin among the events. *)
Theorem ctcTimed_is_ctcTimedSerial gs button timerMS s :
  ctcTimed gs button timerMS s = ctcTimedSerial gs timerMS s
  /\ forall sch' w', ctcTimed gs button timerMS s = Ret (sch', w') ->
                     emits pin_free (snd s) w'.
Proof.
  split; [reflexivity|]. destruct s as [sch w]. intros sch' w'.
  apply ctcTimed_pin_free.
Qed.

Lemma ctcTimed_is_ctcTimedSerial_witness :
  ctcTimed classic_step 7 3 (repeat (mkTick 1 [] [(7, 1)]) 8, boot)
  = ctcTimedSerial classic_step 3 (repeat (mkTick 1 [] [(7, 1)]) 8, boot)
  /\ exists w',
       ctcTimed classic_step 7 3 (repeat (mkTick 1 [] [(7, 1)]) 8, boot)
       = Ret ([], w')
       /\ emits pin_free boot w'.
Proof.
  split.
  - apply (proj1 (ctcTimed_is_ctcTimedSerial classic_step 7 3
                    (repeat (mkTick 1 [] [(7, 1)]) 8, boot))).
  - eexists. split; [vm_compute; reflexivity|].
    apply (proj2 (ctcTimed_is_ctcTimedSerial classic_step 7 3
                    (repeat (mkTick 1 [] [(7, 1)]) 8, boot)) []).
    vm_compute; reflexivity.
Defined.

(** The GPIO wait [ctc] does read the pin: here the button is down at the
    third poll. *)
Lemma ctc_reads_the_pin :
  exists sch' w',
    ctc classic_step 7 ([quiet; quiet; mkTick 1 [] [(7, 1)]; quiet], boot)
    = Ret (sch', w')
    /\ trace w'
       = [GetCursorX 0; GetCursorY 0; DigitalRead 7 0; Millis 2;
          DigitalRead 7 1; SetCursor 116 0; SetTextColor 0; WriteStr ">>";
          Display; SerialAvailable 0; SetCursor 0 0; SetTextColor 1].
Proof. do 2 eexists. split; vm_compute; reflexivity. Qed.

(** ** TextRevealEngine *)

Lemma char_at_nth s : forall i,
  0 <= i -> char_at s i = nth (Z.to_nat i) (list_ascii_of_string s) zero.
Proof.
  intros i Hi. unfold char_at.
  assert ((i <? 0) = false) as -> by lia.
  generalize (Z.to_nat i) as n. clear.
  induction s as [|c s IH]; intros [|n]; cbn; auto.
Qed.

Lemma length_chars s :
  List.length (list_ascii_of_string s) = String.length s.
Proof. induction s; cbn; auto. Qed.

Lemma skipn_nth {A} (d : A) : forall k (l : list A),
  (k < List.length l)%nat -> skipn k l = nth k l d :: skipn (S k) l.
Proof.
  induction k as [|k IH]; intros [|a l] H; cbn in *; try lia; auto.
  apply IH. lia.
Qed.

Lemma gate_calls_app a b :
  gate_calls (a ++ b) = (gate_calls a + gate_calls b)%nat.
Proof.
  induction a as [|e a IH]; [reflexivity|]. destruct e; cbn; auto.
Qed.

Lemma written_app a b : written (a ++ b) = written a ++ written b.
Proof.
  induction a as [|e a IH]; [reflexivity|]. destruct e; cbn; auto.
  - now rewrite IH.
  - now rewrite IH, app_assoc.
Qed.

Lemma unmarked_app a b : unmarked (a ++ b) = unmarked a ++ unmarked b.
Proof. apply filter_app. Qed.

Lemma markers_app a b : markers (a ++ b) = (markers a + markers b)%nat.
Proof. unfold markers. now rewrite filter_app, length_app. Qed.

Lemma tick_events_counts d l evs :
  tick_events d l evs ->
  gate_calls evs = markers l /\ written evs = unmarked l.
Proof.
  induction 1 as [|c l evs Hc _ [IHg IHw]|l evs g inner _ [IHg IHw]].
  - auto.
  - apply Ascii.eqb_neq in Hc. unfold markers, unmarked in *. cbn.
    rewrite Hc. cbn. split; congruence.
  - unfold markers, unmarked in *. cbn. split; congruence.
Qed.

Lemma tail_events_counts d l evs :
  tail_events d l evs ->
  gate_calls evs = markers l /\ written evs = unmarked l.
Proof.
  induction 1 as [|c l evs Hc _ [IHg IHw]|l evs g inner _ [IHg IHw]].
  - auto.
  - apply Ascii.eqb_neq in Hc. unfold markers, unmarked in *. cbn.
    rewrite Hc. cbn. split; congruence.
  - unfold markers, unmarked in *. cbn. split; congruence.
Qed.

Lemma body_events_counts n d l evs :
  body_events n d l evs ->
  gate_calls evs = markers l /\ written evs = unmarked l.
Proof.
  induction 1 as [l e1 e2 _ H1 _ [IHg IHw]|l e _ H].
  - apply tick_events_counts in H1 as [Hg Hw].
    rewrite <- (firstn_skipn n l) at 1 2.
    rewrite gate_calls_app, written_app, markers_app, unmarked_app.
    cbn. split; congruence.
  - eauto using tail_events_counts.
Qed.

Lemma tick_events_app d l1 e1 l2 e2 :
  tick_events d l1 e1 -> tick_events d l2 e2 ->
  tick_events d (l1 ++ l2) (e1 ++ e2).
Proof.
  induction 1; intros H2; cbn; auto; constructor; auto.
Qed.

Section RevealShape.

Variable gs : Z * Z -> ascii -> Z * Z.
Variables (textspeed chardelay : Z) (dialog : string).
Variable mid : st -> result st.

Hypothesis Hts : 1 <= textspeed <= 255.
Hypothesis Hlen : Z.of_nat (String.length dialog) < 2 ^ 31 - 256.
Hypothesis Hmid : forall s s',
  mid s = Ret s' ->
  exists g inner, trace (snd s') = trace (snd s) ++ [Call g inner].

Lemma size_chars :
  strlen dialog = Z.of_nat (List.length (list_ascii_of_string dialog))
  /\ 0 <= strlen dialog < 2 ^ 31 - 256.
Proof.
  unfold strlen. rewrite length_chars.
  rewrite to_int_small by (unfold int_range; lia). lia.
Qed.

Lemma trace_write_char c w :
  trace (write_char gs c w) = trace w ++ [WriteChar c].
Proof. unfold write_char. cbn. destruct (gs _ _). reflexivity. Qed.

Lemma reveal_char_shape i x s s' :
  0 <= i -> 0 <= x -> i + x < strlen dialog ->
  reveal_char gs chardelay dialog mid i x s = Ret s' ->
  exists evs,
    trace (snd s') = trace (snd s) ++ evs
    /\ tick_events chardelay
         [nth (Z.to_nat (i + x)) (list_ascii_of_string dialog) zero] evs.
Proof.
  intros Hi Hx Hin. destruct s as [sch w]. unfold reveal_char.
  pose proof size_chars as [Hsz Hbound].
  rewrite to_int_small by (unfold int_range; lia).
  rewrite char_at_nth by lia.
  destruct (Ascii.eqb _ marker) eqn:E; intros H.
  - apply Ascii.eqb_eq in E. rewrite E.
    apply Hmid in H as (g & inner & ->). cbn.
    exists [Display; Delay chardelay; Call g inner]. split.
    + now rewrite <- !app_assoc.
    + repeat constructor.
  - apply Ascii.eqb_neq in E. injection H as <-. cbn [snd].
    rewrite trace_write_char. eexists. split; [reflexivity|].
    repeat constructor. assumption.
Qed.

Lemma reveal_chunk_shape n : forall i x s s',
  0 <= i -> 0 <= x -> i + x + Z.of_nat n <= strlen dialog ->
  reveal_chunk gs chardelay dialog mid n i x s = Ret s' ->
  exists evs,
    trace (snd s') = trace (snd s) ++ evs
    /\ tick_events chardelay
         (firstn n (skipn (Z.to_nat (i + x)) (list_ascii_of_string dialog)))
         evs.
Proof.
  pose proof size_chars as [Hsz Hbound].
  induction n as [|n IH]; intros i x s s' Hi Hx Hin H.
  - injection H as <-. exists []. rewrite app_nil_r. split; constructor.
  - cbn [reveal_chunk] in H.
    destruct (reveal_char gs chardelay dialog mid i x s) as [s1| |] eqn:E1;
      try discriminate.
    cbn [bind] in H.
    apply reveal_char_shape in E1 as (e1 & T1 & S1); try lia.
    rewrite to_int_small in H by (unfold int_range; lia).
    apply IH in H as (e2 & T2 & S2); try lia.
    exists (e1 ++ e2). split; [now rewrite T2, T1, app_assoc|].
    rewrite (skipn_nth zero) by lia. cbn [firstn].
    replace (S (Z.to_nat (i + x))) with (Z.to_nat (i + (x + 1))) by lia.
    exact (tick_events_app _ _ _ _ _ S1 S2).
Qed.

Lemma reveal_tail_shape fuel : forall i s s',
  0 <= i <= strlen dialog ->
  reveal_tail gs chardelay (strlen dialog) dialog mid fuel i s = Ret s' ->
  exists evs,
    trace (snd s') = trace (snd s) ++ evs
    /\ tail_events chardelay
         (skipn (Z.to_nat i) (list_ascii_of_string dialog)) evs.
Proof.
  pose proof size_chars as [Hsz Hbound].
  induction fuel as [|fuel IH]; intros i s s' Hi H.
  - cbn in H. destruct (i <? strlen dialog) eqn:E; [discriminate|].
    injection H as <-. exists []. rewrite app_nil_r. split; [reflexivity|].
    rewrite skipn_all2 by lia. constructor.
  - cbn [reveal_tail] in H. destruct (i <? strlen dialog) eqn:E.
    + destruct s as [sch w]. rewrite char_at_nth in H by lia.
      rewrite (skipn_nth zero) by lia.
      rewrite to_int_small in H by (unfold int_range; lia).
      replace (S (Z.to_nat i)) with (Z.to_nat (i + 1)) by lia.
      destruct (Ascii.eqb _ marker) eqn:Ec.
      * apply Ascii.eqb_eq in Ec. rewrite Ec.
        destruct (mid (sch, w)) as [s1| |] eqn:Em; try discriminate.
        cbn [bind] in H. apply Hmid in Em as (g & inner & T1).
        apply IH in H as (e2 & T2 & S2); try lia.
        exists (Call g inner :: e2). split.
        -- rewrite T2, T1. cbn [snd]. now rewrite <- app_assoc.
        -- now constructor.
      * apply Ascii.eqb_neq in Ec. cbn [bind] in H.
        apply IH in H as (e2 & T2 & S2); try lia.
        eexists. split.
        -- rewrite T2. cbn. rewrite trace_write_char.
           rewrite <- !app_assoc. reflexivity.
        -- cbn. now constructor.
    + injection H as <-. exists []. rewrite app_nil_r. split; [reflexivity|].
      rewrite skipn_all2 by lia. constructor.
Qed.

Lemma reveal_loops_shape fuel2 fuel : forall i s s',
  0 <= i <= strlen dialog ->
  ('(i', s1) <- reveal_ticks gs textspeed chardelay (strlen dialog) dialog
                             mid fuel i s ;;
   reveal_tail gs chardelay (strlen dialog) dialog mid fuel2 i' s1)
  = Ret s' ->
  exists evs,
    trace (snd s') = trace (snd s) ++ evs
    /\ body_events (Z.to_nat textspeed) chardelay
                   (skipn (Z.to_nat i) (list_ascii_of_string dialog)) evs.
Proof.
  pose proof size_chars as [Hsz Hbound].
  assert (Hbase : forall i s s',
    0 <= i <= strlen dialog ->
    (to_int (i + textspeed) <? strlen dialog) = false ->
    reveal_tail gs chardelay (strlen dialog) dialog mid fuel2 i s = Ret s' ->
    exists evs,
      trace (snd s') = trace (snd s) ++ evs
      /\ body_events (Z.to_nat textspeed) chardelay
                     (skipn (Z.to_nat i) (list_ascii_of_string dialog)) evs).
  { intros i s s' Hi E H.
    rewrite to_int_small in E by (unfold int_range; lia).
    apply reveal_tail_shape in H as (evs & T & S); [|lia].
    exists evs. split; [assumption|]. apply be_tail; [|assumption].
    rewrite length_skipn. lia. }
  induction fuel as [|fuel IH]; intros i s s' Hi H.
  - cbn [reveal_ticks] in H.
    destruct (to_int (i + textspeed) <? strlen dialog) eqn:E;
      [discriminate|].
    cbn [bind] in H. eauto.
  - cbn [reveal_ticks] in H.
    destruct (to_int (i + textspeed) <? strlen dialog) eqn:E;
      [|cbn [bind] in H; eauto].
    rewrite to_int_small in E, H by (unfold int_range; lia).
    destruct (reveal_chunk gs chardelay dialog mid (Z.to_nat textspeed) i 0 s)
      as [[sch1 w1]| |] eqn:Ec; try discriminate.
    cbn [bind] in H.
    apply reveal_chunk_shape in Ec as (e1 & T1 & S1); try lia.
    apply IH in H as (e2 & T2 & S2); try lia.
    exists (e1 ++ Display :: Delay chardelay :: e2). split.
    + rewrite T2. cbn. cbn in T1. rewrite T1. now rewrite <- !app_assoc.
    + apply be_tick.
      * rewrite length_skipn. lia.
      * now rewrite Z.add_0_r in S1.
      * rewrite skipn_skipn.
        replace (Z.to_nat textspeed + Z.to_nat i)%nat
          with (Z.to_nat (i + textspeed)) by lia.
        assumption.
Qed.

End RevealShape.

Lemma call_shape g body s s' :
  call g body s = Ret s' ->
  exists inner, trace (snd s') = trace (snd s) ++ [Call g inner].
Proof.
  destruct s as [sch w]. unfold call.
  destruct (body _) as [[sch1 w1]| |]; cbn [bind]; try discriminate.
  intros H; injection H as <-. cbn. eauto.
Qed.

Lemma call_shape_any g body s s' :
  call g body s = Ret s' ->
  exists g' inner, trace (snd s') = trace (snd s) ++ [Call g' inner].
Proof. intros H. apply call_shape in H as [inner H]. eauto. Qed.

Lemma trace_header gs headertext headerdelay w :
  trace (setCursor 0 16
           (delay headerdelay
              (display (write_str gs headertext (setCursor 0 0 w)))))
  = trace w ++ header_events headertext headerdelay.
Proof.
  cbn [setCursor delay display log trace]. rewrite trace_write_str.
  cbn [setCursor log trace]. unfold header_events.
  now rewrite <- !app_assoc.
Qed.

(** One-by-one mode: after the header, the events of the body. *)
Lemma reveal_onebyone_shape gs fuel textspeed chardelay headerdelay onebyone
    headertext dialog mid sch w s' :
  1 <= textspeed <= 255 ->
  Z.of_nat (String.length dialog) < 2 ^ 31 - 256 ->
  onebyone <> 0 ->
  (forall s s', mid s = Ret s' ->
     exists g inner, trace (snd s') = trace (snd s) ++ [Call g inner]) ->
  reveal gs fuel textspeed chardelay headerdelay onebyone headertext dialog
         mid (sch, w) = Ret s' ->
  exists body,
    trace (snd s') = trace w ++ header_events headertext headerdelay ++ body
    /\ body_events (Z.to_nat textspeed) chardelay
                   (list_ascii_of_string dialog) body.
Proof.
  intros Hts Hlen Hob Hmid. unfold reveal.
  assert ((onebyone =? 0) = false) as -> by lia. cbn [negb].
  intros H.
  apply (reveal_loops_shape gs textspeed chardelay dialog mid Hts Hlen Hmid)
    in H as (body & T & S).
  - exists body. split; [|exact S].
    cbn [snd] in T. now rewrite T, trace_header, <- app_assoc.
  - pose proof (size_chars dialog Hlen). lia.
Qed.

Lemma dialog_shape gs fuel textspeed chardelay headerdelay onebyone
    headertext dialog sch w sch' w' :
  uint8_range textspeed ->
  Z.of_nat (String.length dialog) < 2 ^ 31 - 256 ->
  onebyone <> 0 ->
  drawDialogText gs fuel textspeed chardelay headerdelay onebyone headertext
                 dialog (sch, w) = Ret (sch', w') ->
  exists body g inner,
    trace w' = trace w ++ header_events headertext (norm 200 headerdelay)
               ++ body ++ [Call g inner]
    /\ body_events (Z.to_nat (if textspeed <=? 0 then 1 else textspeed))
                   (norm 10 chardelay) (list_ascii_of_string dialog) body.
Proof.
  intros Hts Hlen Hob. unfold drawDialogText. intros H.
  destruct (reveal _ _ _ _ _ _ _ _ _ _) as [s1| |] eqn:E; try discriminate.
  cbn [bind] in H.
  apply reveal_onebyone_shape in E as (body & T & S); auto.
  - apply call_shape in H as [inner Hc]. cbn [snd] in Hc.
    exists body, CtcSerial, inner. split; [|exact S].
    now rewrite Hc, T, <- !app_assoc.
  - unfold uint8_range in Hts. destruct (textspeed <=? 0) eqn:E0; lia.
  - intros s s'. apply call_shape_any.
Qed.

Lemma timed_dialog_shape gs fuel textspeed chardelay headerdelay timer
    timedinput timedend onebyone headertext dialog sch w sch' w' :
  uint8_range textspeed ->
  Z.of_nat (String.length dialog) < 2 ^ 31 - 256 ->
  onebyone <> 0 ->
  drawTimedDialogText gs fuel textspeed chardelay headerdelay timer
    timedinput timedend onebyone headertext dialog (sch, w)
  = Ret (sch', w') ->
  exists body g inner,
    trace w' = trace w ++ header_events headertext (norm 200 headerdelay)
               ++ body ++ [Call g inner]
    /\ body_events (Z.to_nat (if textspeed <=? 0 then 1 else textspeed))
                   (norm 10 chardelay) (list_ascii_of_string dialog) body.
Proof.
  intros Hts Hlen Hob. unfold drawTimedDialogText. intros H.
  destruct (reveal _ _ _ _ _ _ _ _ _ _) as [s1| |] eqn:E; try discriminate.
  cbn [bind] in H.
  apply reveal_onebyone_shape in E as (body & T & S); auto.
  - assert (exists g inner, trace w' = trace (snd s1) ++ [Call g inner])
      as (g & inner & Hc).
    { destruct (negb (timedend =? 0));
        apply call_shape_any in H; exact H. }
    exists body, g, inner. split; [|exact S].
    now rewrite Hc, T, <- !app_assoc.
  - unfold uint8_range in Hts. destruct (textspeed <=? 0) eqn:E0; lia.
  - intros s s'. destruct (negb (timedinput =? 0)); apply call_shape_any.
Qed.

(** What the shape says about the counts. *)
Lemma shape_counts headertext headerdelay n d l body g inner :
  body_events n d l body ->
  gate_calls (header_events headertext headerdelay ++ body ++ [Call g inner])
  = S (markers l)
  /\ body_text (header_events headertext headerdelay ++ body
                ++ [Call g inner])
     = unmarked l.
Proof.
  intros H. apply body_events_counts in H as [Hg Hw]. split.
  - cbn. rewrite gate_calls_app, Hg. cbn. lia.
  - unfold body_text. cbn. rewrite written_app, Hw. cbn.
    now rewrite app_nil_r.
Qed.

(** ** Enough fuel *)

Lemma bind_fuel {A B} (m : result A) (k : A -> result B) :
  m <> OutOfFuel -> (forall a, k a <> OutOfFuel) -> bind m k <> OutOfFuel.
Proof. destruct m; cbn; auto; discriminate. Qed.

Lemma drain_serial_fuel sch : forall w, drain_serial sch w <> OutOfFuel.
Proof.
  induction sch as [|t sch IH]; intros w; cbn; [discriminate|].
  destruct (_ =? 0); [discriminate | apply IH].
Qed.

Lemma read_millis_fuel s : read_millis s <> OutOfFuel.
Proof. destruct s as [[|t sch] w]; discriminate. Qed.

Section GateFuel.

Variable gs : Z * Z -> ascii -> Z * Z.

Lemma await_serial_fuel n : forall sch prev color w,
  (List.length sch <= n)%nat -> await_serial gs sch prev color w <> OutOfFuel.
Proof.
  induction n as [|n IH]; intros sch prev color w Hn.
  - destruct sch; [discriminate | cbn in Hn; lia].
  - destruct sch as [|t [|t' sch2]]; cbn; try discriminate.
    + destruct (_ =? 0); discriminate.
    + destruct (_ =? 0); [|discriminate].
      destruct (500 <? _); apply IH; cbn in Hn; lia.
Qed.

Lemma await_serial_timed_fuel n :
  forall sch basetime prev now color timerMS w,
    (List.length sch <= n)%nat ->
    await_serial_timed gs sch basetime prev now color timerMS w
    <> OutOfFuel.
Proof.
  induction n as [|n IH]; intros sch basetime prev now color timerMS w Hn.
  - destruct sch; [discriminate | cbn in Hn; lia].
  - destruct sch as [|t [|t' sch2]]; cbn; try discriminate.
    + destruct (_ && _); discriminate.
    + destruct (_ && _); [|discriminate].
      destruct (500 <? _); apply IH; cbn in Hn; lia.
Qed.

Lemma ctcSerial_fuel s : ctcSerial gs s <> OutOfFuel.
Proof.
  destruct s as [sch w]. unfold ctcSerial. cbn [getCursorX getCursorY].
  apply bind_fuel; [apply drain_serial_fuel|]. intros s1.
  apply bind_fuel; [apply read_millis_fuel|]. intros [prev [sch1 w1]].
  apply bind_fuel; [apply (await_serial_fuel _ _ _ _ _ (Nat.le_refl _))|].
  intros [sch2 w2].
  apply bind_fuel; [apply drain_serial_fuel|]. intros [sch3 w3].
  discriminate.
Qed.

Lemma ctcTimedSerial_fuel timerMS s : ctcTimedSerial gs timerMS s <> OutOfFuel.
Proof.
  destruct s as [sch w]. unfold ctcTimedSerial. cbn [getCursorX getCursorY].
  apply bind_fuel; [apply drain_serial_fuel|]. intros s1.
  apply bind_fuel; [apply read_millis_fuel|]. intros [basetime s2].
  apply bind_fuel; [apply read_millis_fuel|]. intros [prev s3].
  apply bind_fuel; [apply read_millis_fuel|]. intros [now [sch1 w1]].
  apply bind_fuel;
    [apply (await_serial_timed_fuel _ _ _ _ _ _ _ _ (Nat.le_refl _))|].
  intros [sch2 w2].
  apply bind_fuel; [apply drain_serial_fuel|]. intros [sch3 w3].
  discriminate.
Qed.

Lemma call_fuel g body s :
  (forall s0, body s0 <> OutOfFuel) -> call g body s <> OutOfFuel.
Proof.
  intros Hb. destruct s as [sch w]. unfold call.
  apply bind_fuel; [apply Hb|]. intros [sch1 w1]. discriminate.
Qed.

Section LoopFuel.

Variables (textspeed chardelay : Z) (dialog : string).
Variable mid : st -> result st.
Hypothesis Hts : 1 <= textspeed <= 255.
Hypothesis Hlen : Z.of_nat (String.length dialog) < 2 ^ 31 - 256.
Hypothesis Hmid : forall s, mid s <> OutOfFuel.

Lemma reveal_chunk_fuel n : forall i x s,
  reveal_chunk gs chardelay dialog mid n i x s <> OutOfFuel.
Proof.
  induction n as [|n IH]; intros i x s; cbn [reveal_chunk]; [discriminate|].
  apply bind_fuel; [|intros s1; apply IH].
  destruct s as [sch w]. unfold reveal_char.
  destruct (Ascii.eqb _ _); [apply Hmid | discriminate].
Qed.

Lemma reveal_ticks_fuel fuel : forall i s,
  0 <= i <= strlen dialog ->
  (Z.to_nat (strlen dialog - i) <= fuel)%nat ->
  reveal_ticks gs textspeed chardelay (strlen dialog) dialog mid fuel i s
  <> OutOfFuel.
Proof.
  pose proof (size_chars dialog Hlen) as [_ Hb].
  induction fuel as [|fuel IH]; intros i s Hi Hf; cbn [reveal_ticks];
    rewrite to_int_small by (unfold int_range; lia);
    destruct (i + textspeed <? strlen dialog) eqn:E; try discriminate;
    [lia|].
  apply bind_fuel; [apply reveal_chunk_fuel|]. intros [sch w].
  apply IH; lia.
Qed.

Lemma reveal_ticks_index fuel : forall i s i' s',
  0 <= i <= strlen dialog ->
  reveal_ticks gs textspeed chardelay (strlen dialog) dialog mid fuel i s
  = Ret (i', s') ->
  i <= i' <= strlen dialog.
Proof.
  pose proof (size_chars dialog Hlen) as [_ Hb].
  induction fuel as [|fuel IH]; intros i s i' s' Hi; cbn [reveal_ticks];
    rewrite to_int_small by (unfold int_range; lia);
    destruct (i + textspeed <? strlen dialog) eqn:E; try discriminate;
    try (intros H; injection H as <- <-; lia).
  destruct (reveal_chunk _ _ _ _ _ _ _ _) as [[sch w]| |]; try discriminate.
  cbn [bind]. intros H. apply IH in H; lia.
Qed.

Lemma reveal_tail_fuel fuel : forall i s,
  0 <= i <= strlen dialog ->
  (Z.to_nat (strlen dialog - i) <= fuel)%nat ->
  reveal_tail gs chardelay (strlen dialog) dialog mid fuel i s <> OutOfFuel.
Proof.
  pose proof (size_chars dialog Hlen) as [_ Hb].
  induction fuel as [|fuel IH]; intros i s Hi Hf; cbn [reveal_tail];
    destruct (i <? strlen dialog) eqn:E; try discriminate; [lia|].
  destruct s as [sch w].
  apply bind_fuel.
  - destruct (Ascii.eqb _ _); [apply Hmid | discriminate].
  - intros s1. rewrite to_int_small by (unfold int_range; lia).
    apply IH; lia.
Qed.

Lemma reveal_fuel fuel headerdelay onebyone headertext s :
  (String.length dialog <= fuel)%nat ->
  reveal gs fuel textspeed chardelay headerdelay onebyone headertext dialog
         mid s <> OutOfFuel.
Proof.
  intros Hf. pose proof (size_chars dialog Hlen) as [Hs Hb].
  rewrite length_chars in Hs.
  destruct s as [sch w]. unfold reveal.
  destruct (negb (onebyone =? 0)); [|discriminate].
  match goal with |- bind ?m _ <> _ => destruct m as [[i s1]| |] eqn:E end;
    cbn [bind]; try discriminate.
  - apply reveal_ticks_index in E; [|lia]. apply reveal_tail_fuel; lia.
  - apply reveal_ticks_fuel in E; [contradiction | lia | lia].
Qed.

End LoopFuel.

(** The loops of the dialog functions make no more turns than the body has
    characters: given that many, a run ends or is left waiting for input. *)
Lemma dialog_fuel fuel textspeed chardelay headerdelay onebyone headertext
    dialog s :
  uint8_range textspeed ->
  Z.of_nat (String.length dialog) < 2 ^ 31 - 256 ->
  (String.length dialog <= fuel)%nat ->
  drawDialogText gs fuel textspeed chardelay headerdelay onebyone headertext
                 dialog s <> OutOfFuel.
Proof.
  intros Hts Hlen Hf. unfold drawDialogText.
  apply bind_fuel.
  - apply reveal_fuel; auto.
    + unfold uint8_range in Hts. destruct (textspeed <=? 0) eqn:E; lia.
    + intros s0. apply call_fuel, ctcSerial_fuel.
  - intros s1. apply call_fuel, ctcSerial_fuel.
Qed.

Lemma timed_dialog_fuel fuel textspeed chardelay headerdelay timer timedinput
    timedend onebyone headertext dialog s :
  uint8_range textspeed ->
  Z.of_nat (String.length dialog) < 2 ^ 31 - 256 ->
  (String.length dialog <= fuel)%nat ->
  drawTimedDialogText gs fuel textspeed chardelay headerdelay timer timedinput
                      timedend onebyone headertext dialog s <> OutOfFuel.
Proof.
  intros Hts Hlen Hf. unfold drawTimedDialogText.
  apply bind_fuel.
  - apply reveal_fuel; auto.
    + unfold uint8_range in Hts. destruct (textspeed <=? 0) eqn:E; lia.
    + intros s0. destruct (negb (timedinput =? 0)); apply call_fuel;
        auto using ctcSerial_fuel, ctcTimedSerial_fuel.
  - intros s1. destruct (negb (timedend =? 0)); apply call_fuel;
      auto using ctcSerial_fuel, ctcTimedSerial_fuel.
Qed.

End GateFuel.

(** C3 as stated fails: with [onebyone] off the body goes to the display as
    it is, marker included, and only the closing wait is made. *)
Lemma instant_mode_keeps_markers :
  exists sch' w',
    drawDialogText classic_step 11 1 0 0 0 "Hi" "Hello`World" (press, boot)
    = Ret (sch', w')
    /\ gate_calls (trace w') = 1%nat
    /\ body_text (trace w') = list_ascii_of_string "Hello`World".
Proof.
  do 2 eexists. split; [vm_compute; reflexivity|].
  split; vm_compute; reflexivity.
Qed.

(** C3, as amended.  In one-by-one mode a completed call has made one
    click-to-confirm invocation per marker and one more at the end, and the
    text it wrote as the body is the body without its markers, in order. *)
Theorem reveal_gate_count_and_text gs :
  (forall fuel textspeed chardelay headerdelay onebyone headertext dialog
          sch w,
      uint8_range textspeed ->
      Z.of_nat (String.length dialog) < 2 ^ 31 - 256 ->
      onebyone <> 0 ->
      ((String.length dialog <= fuel)%nat ->
       drawDialogText gs fuel textspeed chardelay headerdelay onebyone
                      headertext dialog (sch, w) <> OutOfFuel)
      /\ forall sch' w',
           drawDialogText gs fuel textspeed chardelay headerdelay onebyone
                          headertext dialog (sch, w) = Ret (sch', w') ->
           exists evs,
             trace w' = trace w ++ evs
             /\ gate_calls evs = S (markers (list_ascii_of_string dialog))
             /\ body_text evs = unmarked (list_ascii_of_string dialog))
  /\ (forall fuel textspeed chardelay headerdelay timer timedinput timedend
             onebyone headertext dialog sch w,
        uint8_range textspeed ->
        Z.of_nat (String.length dialog) < 2 ^ 31 - 256 ->
        onebyone <> 0 ->
        ((String.length dialog <= fuel)%nat ->
         drawTimedDialogText gs fuel textspeed chardelay headerdelay timer
           timedinput timedend onebyone headertext dialog (sch, w)
         <> OutOfFuel)
        /\ forall sch' w',
             drawTimedDialogText gs fuel textspeed chardelay headerdelay
               timer timedinput timedend onebyone headertext dialog (sch, w)
             = Ret (sch', w') ->
             exists evs,
               trace w' = trace w ++ evs
               /\ gate_calls evs = S (markers (list_ascii_of_string dialog))
               /\ body_text evs = unmarked (list_ascii_of_string dialog)).
Proof.
  split.
  - intros fuel textspeed chardelay headerdelay onebyone headertext dialog
           sch w Hts Hlen Hob.
    split; [intros Hf; now apply dialog_fuel|]. intros sch' w' H.
    apply dialog_shape in H as (body & g & inner & T & S); auto.
    eexists. split; [exact T|]. eapply shape_counts; eassumption.
  - intros fuel textspeed chardelay headerdelay timer timedinput timedend
           onebyone headertext dialog sch w Hts Hlen Hob.
    split; [intros Hf; now apply timed_dialog_fuel|]. intros sch' w' H.
    apply timed_dialog_shape in H as (body & g & inner & T & S); auto.
    eexists. split; [exact T|]. eapply shape_counts; eassumption.
Qed.

(** The scenario of the specification: "Hello`World" revealed one character
    per tick shows "HelloWorld" and waits twice. *)
Lemma reveal_gate_count_and_text_witness :
  (exists w',
      drawDialogText classic_step 11 1 0 0 1 "Hi" "Hello`World"
                     (press ++ press, boot) = Ret ([], w')
      /\ exists evs,
           trace w' = trace boot ++ evs
           /\ gate_calls evs = 2%nat
           /\ body_text evs = list_ascii_of_string "HelloWorld")
  /\ (exists w',
        drawTimedDialogText classic_step 11 1 0 0 3 1 0 1 "Hi" "Hello`World"
                            (repeat quiet 8 ++ press, boot) = Ret ([], w')
        /\ exists evs,
             trace w' = trace boot ++ evs
             /\ gate_calls evs = 2%nat
             /\ body_text evs = list_ascii_of_string "HelloWorld").
Proof.
  split.
  - eexists. split; [vm_compute; reflexivity|].
    apply (proj2 (proj1 (reveal_gate_count_and_text classic_step) 11%nat 1 0 0
                        1 "Hi"%string "Hello`World"%string (press ++ press)
                        boot
                        ltac:(unfold uint8_range; lia) ltac:(cbn; lia)
                        ltac:(lia)) []).
    vm_compute; reflexivity.
  - eexists. split; [vm_compute; reflexivity|].
    apply (proj2 (proj2 (reveal_gate_count_and_text classic_step) 11%nat 1 0 0
                        3 1 0 1 "Hi"%string "Hello`World"%string
                        (repeat quiet 8 ++ press) boot
                        ltac:(unfold uint8_range; lia) ltac:(cbn; lia)
                        ltac:(lia)) []).
    vm_compute; reflexivity.
Defined.

(** C8 as stated fails: a marker met by the trailing loop starts its wait
    with no [display()] and no [delay()] of its own.  Here the marker is the
    whole body and its wait follows [setCursor(0, 16)] at once. *)
Lemma trailing_marker_not_presented :
  exists sch' w' inner1 inner2,
    drawDialogText classic_step 1 1 10 200 1 "" "`" (press ++ press, boot)
    = Ret (sch', w')
    /\ trace w' = header_events "" 200
                  ++ [Call CtcSerial inner1; Call CtcSerial inner2]
    /\ bare_gates 10 0 (removelast (after_body_origin (trace w'))) = 1%nat.
Proof.
  do 4 eexists. split; [vm_compute; reflexivity|].
  split; vm_compute; reflexivity.
Qed.

(** C8, as amended.  In one-by-one mode the events of a completed call are
    the header, the body as [body_events] describes it, and the closing
    wait: a marker is never written; inside a full tick it presents, waits
    [chardelay] and starts the click-to-confirm, among the trailing
    characters it only starts the click-to-confirm; the characters after it
    follow in both cases. *)
Theorem reveal_marker_events gs :
  (forall fuel textspeed chardelay headerdelay onebyone headertext dialog
          sch w sch' w',
      uint8_range textspeed ->
      Z.of_nat (String.length dialog) < 2 ^ 31 - 256 ->
      onebyone <> 0 ->
      drawDialogText gs fuel textspeed chardelay headerdelay onebyone
                     headertext dialog (sch, w) = Ret (sch', w') ->
      exists body g inner,
        trace w' = trace w ++ header_events headertext (norm 200 headerdelay)
                   ++ body ++ [Call g inner]
        /\ body_events (Z.to_nat (if textspeed <=? 0 then 1 else textspeed))
                       (norm 10 chardelay) (list_ascii_of_string dialog) body)
  /\ (forall fuel textspeed chardelay headerdelay timer timedinput timedend
             onebyone headertext dialog sch w sch' w',
        uint8_range textspeed ->
        Z.of_nat (String.length dialog) < 2 ^ 31 - 256 ->
        onebyone <> 0 ->
        drawTimedDialogText gs fuel textspeed chardelay headerdelay timer
          timedinput timedend onebyone headertext dialog (sch, w)
        = Ret (sch', w') ->
        exists body g inner,
          trace w' = trace w
                     ++ header_events headertext (norm 200 headerdelay)
                     ++ body ++ [Call g inner]
          /\ body_events
               (Z.to_nat (if textspeed <=? 0 then 1 else textspeed))
               (norm 10 chardelay) (list_ascii_of_string dialog) body).
Proof.
  split.
  - intros fuel textspeed chardelay headerdelay onebyone headertext dialog
           sch w sch' w'. apply dialog_shape.
  - intros fuel textspeed chardelay headerdelay timer timedinput timedend
           onebyone headertext dialog sch w sch' w'. apply timed_dialog_shape.
Qed.

Lemma reveal_marker_events_witness :
  (exists w',
      drawDialogText classic_step 3 2 5 0 1 "" "a`bc`"
                     (press ++ press ++ press, boot) = Ret ([], w')
      /\ exists body g inner,
           trace w' = trace boot ++ header_events "" 0 ++ body
                      ++ [Call g inner]
           /\ body_events 2 5 (list_ascii_of_string "a`bc`") body)
  /\ (exists w',
        drawTimedDialogText classic_step 3 2 5 0 (-1) 0 0 1 "" "a`bc`"
                            (press ++ press ++ press, boot) = Ret ([], w')
        /\ exists body g inner,
             trace w' = trace boot ++ header_events "" 0 ++ body
                        ++ [Call g inner]
             /\ body_events 2 5 (list_ascii_of_string "a`bc`") body).
Proof.
  split.
  - eexists. split; [vm_compute; reflexivity|].
    apply (proj1 (reveal_marker_events classic_step) 3%nat 2 5 0 1
                 ""%string "a`bc`"%string (press ++ press ++ press) boot []).
    + unfold uint8_range; lia.
    + cbn; lia.
    + lia.
    + vm_compute; reflexivity.
  - eexists. split; [vm_compute; reflexivity|].
    apply (proj2 (reveal_marker_events classic_step) 3%nat 2 5 0 (-1) 0 0 1
                 ""%string "a`bc`"%string (press ++ press ++ press) boot []).
    + unfold uint8_range; lia.
    + cbn; lia.
    + lia.
    + vm_compute; reflexivity.
Defined.

(** ** Default values *)

Lemma norm_neg d v : v < 0 -> norm d v = d.
Proof. unfold norm. intros H. now apply Z.ltb_lt in H as ->. Qed.

Lemma norm_default d : 0 <= d -> norm d d = d.
Proof. unfold norm. now destruct (d <? 0). Qed.

(** C9 as stated fails: nothing is put in the place of a bitmap of size
    zero, both [drawBitmap] calls receive width 0 and height 0. *)
Lemma zero_sized_bitmap_drawn_as_given :
  drawVerticalScrollingBitmap 0 (-1) (-1) (-1) 1 false false 0 0 0
                              (mkImage [] 0 0) boot
  = Ret (mkWorld 0 0 1 [] 1000 []
           [DrawBitmap 0 0 [] 0 0 ON; Display; Delay 500;
            DrawBitmap 0 64 [] 0 0 ON; Display; Delay 500]).
Proof. vm_compute; reflexivity. Qed.

(** [RECOMM] handed to a [uint8_t textspeed] arrives as 255. *)
Lemma recomm_as_textspeed : to_uint8 RECOMM = 255.
Proof. reflexivity. Qed.

(** C9, as amended.  A call with a malformed parameter runs as the call
    with the recommended value in its place: 1 for a text speed of 0, the
    one value of the [uint8_t] parameter that passes the test
    [textspeed <= 0]; 10, 200 and 10000 for a negative character delay,
    header delay and timer; 500, 500 and 5 for negative scroll delays.
    Nothing is said of a negative text speed handed over by a caller: it
    does not arrive as such (see [recomm_as_textspeed]). *)
Theorem malformed_parameters_normalized gs :
  (forall fuel textspeed chardelay headerdelay onebyone headertext dialog s,
      uint8_range textspeed -> textspeed <= 0 ->
      drawDialogText gs fuel textspeed chardelay headerdelay onebyone
                     headertext dialog s
      = drawDialogText gs fuel 1 chardelay headerdelay onebyone headertext
                       dialog s)
  /\ (forall fuel textspeed chardelay headerdelay onebyone headertext dialog s,
        chardelay < 0 ->
        drawDialogText gs fuel textspeed chardelay headerdelay onebyone
                       headertext dialog s
        = drawDialogText gs fuel textspeed 10 headerdelay onebyone headertext
                         dialog s)
  /\ (forall fuel textspeed chardelay headerdelay onebyone headertext dialog s,
        headerdelay < 0 ->
        drawDialogText gs fuel textspeed chardelay headerdelay onebyone
                       headertext dialog s
        = drawDialogText gs fuel textspeed chardelay 200 onebyone headertext
                         dialog s)
  /\ (forall fuel textspeed chardelay headerdelay timer timedinput timedend
             onebyone headertext dialog s,
        uint8_range textspeed -> textspeed <= 0 ->
        drawTimedDialogText gs fuel textspeed chardelay headerdelay timer
                            timedinput timedend onebyone headertext dialog s
        = drawTimedDialogText gs fuel 1 chardelay headerdelay timer
                              timedinput timedend onebyone headertext dialog
                              s)
  /\ (forall fuel textspeed chardelay headerdelay timer timedinput timedend
             onebyone headertext dialog s,
        chardelay < 0 ->
        drawTimedDialogText gs fuel textspeed chardelay headerdelay timer
                            timedinput timedend onebyone headertext dialog s
        = drawTimedDialogText gs fuel textspeed 10 headerdelay timer
                              timedinput timedend onebyone headertext dialog
                              s)
  /\ (forall fuel textspeed chardelay headerdelay timer timedinput timedend
             onebyone headertext dialog s,
        headerdelay < 0 ->
        drawTimedDialogText gs fuel textspeed chardelay headerdelay timer
                            timedinput timedend onebyone headertext dialog s
        = drawTimedDialogText gs fuel textspeed chardelay 200 timer
                              timedinput timedend onebyone headertext dialog
                              s)
  /\ (forall fuel textspeed chardelay headerdelay timer timedinput timedend
             onebyone headertext dialog s,
        timer < 0 ->
        drawTimedDialogText gs fuel textspeed chardelay headerdelay timer
                            timedinput timedend onebyone headertext dialog s
        = drawTimedDialogText gs fuel textspeed chardelay headerdelay 10000
                              timedinput timedend onebyone headertext dialog
                              s)
  /\ (forall fuel initialdelay enddelay scrolldelay scrollstep snaptoend
             allowoverflow offset_x offset_y end_y bmp w,
        initialdelay < 0 ->
        drawVerticalScrollingBitmap fuel initialdelay enddelay scrolldelay
          scrollstep snaptoend allowoverflow offset_x offset_y end_y bmp w
        = drawVerticalScrollingBitmap fuel 500 enddelay scrolldelay
            scrollstep snaptoend allowoverflow offset_x offset_y end_y bmp w)
  /\ (forall fuel initialdelay enddelay scrolldelay scrollstep snaptoend
             allowoverflow offset_x offset_y end_y bmp w,
        enddelay < 0 ->
        drawVerticalScrollingBitmap fuel initialdelay enddelay scrolldelay
          scrollstep snaptoend allowoverflow offset_x offset_y end_y bmp w
        = drawVerticalScrollingBitmap fuel initialdelay 500 scrolldelay
            scrollstep snaptoend allowoverflow offset_x offset_y end_y bmp w)
  /\ (forall fuel initialdelay enddelay scrolldelay scrollstep snaptoend
             allowoverflow offset_x offset_y end_y bmp w,
        scrolldelay < 0 ->
        drawVerticalScrollingBitmap fuel initialdelay enddelay scrolldelay
          scrollstep snaptoend allowoverflow offset_x offset_y end_y bmp w
        = drawVerticalScrollingBitmap fuel initialdelay enddelay 5
            scrollstep snaptoend allowoverflow offset_x offset_y end_y bmp w).
Proof.
  repeat split; intros;
    unfold drawDialogText, drawTimedDialogText, drawVerticalScrollingBitmap;
    try (assert ((textspeed <=? 0) = true) as -> by lia; reflexivity);
    match goal with
    | H : ?v < 0 |- context [norm ?d ?v] =>
      rewrite (norm_neg d v H), (norm_default d) by lia
    end; reflexivity.
Qed.

Lemma malformed_parameters_normalized_witness :
  drawDialogText classic_step 2 0 (-1) (-1) 1 "Hi" "ok" (press, boot)
  = drawDialogText classic_step 2 1 10 200 1 "Hi" "ok" (press, boot)
  /\ drawTimedDialogText classic_step 2 0 (-1) (-1) (-1) 1 1 1 "Hi" "ok"
                         (press, boot)
     = drawTimedDialogText classic_step 2 1 10 200 10000 1 1 1 "Hi" "ok"
                           (press, boot)
  /\ drawVerticalScrollingBitmap 40 (-1) (-1) (-1) 2 false false 0 0 0 bmp128
                                 boot
     = drawVerticalScrollingBitmap 40 500 500 5 2 false false 0 0 0 bmp128
                                   boot.
Proof.
  destruct (malformed_parameters_normalized classic_step)
    as (D1 & D2 & D3 & T1 & T2 & T3 & T4 & S1 & S2 & S3).
  split; [|split].
  - rewrite D1, D2, D3 by (unfold uint8_range; lia). reflexivity.
  - rewrite T1, T2, T3, T4 by (unfold uint8_range; lia). reflexivity.
  - rewrite S1, S2, S3 by lia. reflexivity.
Defined.

(** * Further properties *)

(** ** The exit of the click-to-confirm functions *)

Lemma emits_any P w w' : emits P w w' -> emits any_event w w'.
Proof. apply emits_weaken. reflexivity. Qed.

Section GateExit.

Variable gs : Z * Z -> ascii -> Z * Z.

Lemma indicator_any c w : emits any_event w (indicator gs c w).
Proof. exact (emits_any _ _ _ (indicator_pin_free gs c w)). Qed.

Lemma await_serial_any n : forall sch prev color w sch' w',
  (List.length sch <= n)%nat ->
  await_serial gs sch prev color w = Ret (sch', w') ->
  emits any_event w w'.
Proof.
  induction n as [|n IH]; intros sch prev color w sch' w' Hn H.
  - destruct sch; [discriminate | cbn in Hn; lia].
  - destruct sch as [|t sch1]; [discriminate|].
    cbn [await_serial] in H.
    pose proof (polled_pin_free _ _ _ (polled_available t w)) as Ha.
    destruct (Serial_available t w) as [k w1]. cbn [snd] in Ha.
    apply emits_any in Ha.
    destruct (k =? 0).
    + destruct sch1 as [|t' sch2]; [discriminate|].
      pose proof (polled_pin_free _ _ _ (polled_millis t' w1)) as Hm.
      destruct (millis t' w1) as [now' w2]. cbn [snd] in Hm.
      apply emits_any in Hm.
      destruct (500 <? _); apply IH in H; cbn in Hn; try lia;
        eauto using emits_trans, indicator_any.
    + injection H as <- <-. assumption.
Qed.

Lemma digitalRead_any button t w :
  emits any_event w (snd (digitalRead button t w)).
Proof.
  cbn. apply emits_log; [reflexivity|]. exists []. now rewrite app_nil_r.
Qed.

Lemma await_release_any sch : forall button w sch' w',
  await_release sch button w = Ret (sch', w') -> emits any_event w w'.
Proof.
  induction sch as [|t sch IH]; intros button w sch' w' H; [discriminate|].
  cbn [await_release] in H.
  pose proof (digitalRead_any button t w) as Hd.
  destruct (digitalRead button t w) as [v w1]. cbn [snd] in Hd.
  destruct (v =? 0).
  - injection H as <- <-. assumption.
  - apply IH in H. eauto using emits_trans.
Qed.

Lemma await_press_any n : forall sch button prev color w sch' w',
  (List.length sch <= n)%nat ->
  await_press gs sch button prev color w = Ret (sch', w') ->
  emits any_event w w'.
Proof.
  induction n as [|n IH]; intros sch button prev color w sch' w' Hn H.
  - destruct sch; [discriminate | cbn in Hn; lia].
  - destruct sch as [|t sch1]; [discriminate|].
    cbn [await_press] in H.
    pose proof (digitalRead_any button t w) as Ha.
    destruct (digitalRead button t w) as [k w1]. cbn [snd] in Ha.
    destruct (k =? 0).
    + destruct sch1 as [|t' sch2]; [discriminate|].
      pose proof (polled_pin_free _ _ _ (polled_millis t' w1)) as Hm.
      destruct (millis t' w1) as [now' w2]. cbn [snd] in Hm.
      apply emits_any in Hm.
      destruct (500 <? _); apply IH in H; cbn in Hn; try lia;
        eauto using emits_trans, indicator_any.
    + injection H as <- <-. assumption.
Qed.

(** The last lines of the four functions: indicator off, presented, the
    buffer drained, cursor back, colour 1. *)
Lemma gate_exit baseX baseY sch w w2 sch' w3 :
  emits any_event w w2 ->
  drain_serial sch (indicator gs 0 w2) = Ret (sch', w3) ->
  let w' := setTextColor 1 (setCursor baseX baseY w3) in
  rx w' = []
  /\ cursor_x w' = to_int16 baseX /\ cursor_y w' = to_int16 baseY
  /\ text_color w' = 1
  /\ exists before polls,
       trace w'
       = trace w ++ before
         ++ [SetCursor 116 0; SetTextColor 0; WriteStr ">>"; Display]
         ++ polls ++ [SetCursor (to_int16 baseX) (to_int16 baseY);
                      SetTextColor 1]
       /\ forallb is_poll polls = true.
Proof.
  intros (before & Tb & _) Hd.
  apply drain_serial_polled in Hd as (Hrx & used & _ & P).
  destruct P as (_ & _ & _ & _ & polls & Tp & Hp).
  cbn. repeat split; auto.
  exists before, polls. split; [|assumption].
  rewrite Tp, trace_indicator, Tb. now rewrite <- !app_assoc.
Qed.


Lemma start_any w :
  emits any_event w
    (log (GetCursorY (cursor_y (log (GetCursorX (cursor_x w)) w)))
         (log (GetCursorX (cursor_x w)) w)).
Proof. repeat (apply emits_log; [reflexivity|]). apply emits_refl. Qed.

Ltac chain_any :=
  repeat match goal with
         | H : drain_serial _ _ = Ret _ |- _ =>
           apply drain_serial_polled in H as (_ & ? & _ & H);
           apply polled_pin_free, emits_any in H
         | H : read_millis _ = Ret _ |- _ =>
           apply read_millis_polled in H as (? & _ & H & _);
           apply polled_pin_free, emits_any in H
         | H : await_serial _ _ _ _ _ = Ret _ |- _ =>
           apply (await_serial_any _ _ _ _ _ _ _ (Nat.le_refl _)) in H
         | H : await_serial_timed _ _ _ _ _ _ _ _ = Ret _ |- _ =>
           apply (await_serial_timed_pin_free _ _ _ _ _ _ _ _ _ _ _
                    (Nat.le_refl _)), emits_any in H
         | H : await_release _ _ _ = Ret _ |- _ =>
           apply await_release_any in H
         | H : await_press _ _ _ _ _ _ = Ret _ |- _ =>
           apply (await_press_any _ _ _ _ _ _ _ _ (Nat.le_refl _)) in H
         end;
  eapply emits_trans; [apply start_any|];
  repeat (eapply emits_trans; [eassumption|]);
  apply emits_refl.

Ltac gate_exit_tac H :=
  run_binds H; injection H as <- <-;
  match goal with
  | Hd : drain_serial _ (indicator _ 0 _) = Ret _ |- _ =>
    refine (gate_exit _ _ _ _ _ _ _ _ Hd); clear Hd
  end;
  chain_any.

Lemma ctcSerial_exit_contract sch w sch' w' :
  ctcSerial gs (sch, w) = Ret (sch', w') ->
  rx w' = []
  /\ cursor_x w' = to_int16 (cursor_x w) /\ cursor_y w' = to_int16 (cursor_y w)
  /\ text_color w' = 1
  /\ exists before polls,
       trace w'
       = trace w ++ before
         ++ [SetCursor 116 0; SetTextColor 0; WriteStr ">>"; Display]
         ++ polls ++ [SetCursor (to_int16 (cursor_x w))
                                (to_int16 (cursor_y w)); SetTextColor 1]
       /\ forallb is_poll polls = true.
Proof.
  unfold ctcSerial. cbn [getCursorX getCursorY]. intros H. gate_exit_tac H.
Qed.

Lemma ctcTimedSerial_exit_contract timerMS sch w sch' w' :
  ctcTimedSerial gs timerMS (sch, w) = Ret (sch', w') ->
  rx w' = []
  /\ cursor_x w' = to_int16 (cursor_x w) /\ cursor_y w' = to_int16 (cursor_y w)
  /\ text_color w' = 1
  /\ exists before polls,
       trace w'
       = trace w ++ before
         ++ [SetCursor 116 0; SetTextColor 0; WriteStr ">>"; Display]
         ++ polls ++ [SetCursor (to_int16 (cursor_x w))
                                (to_int16 (cursor_y w)); SetTextColor 1]
       /\ forallb is_poll polls = true.
Proof.
  unfold ctcTimedSerial. cbn [getCursorX getCursorY]. intros H.
  gate_exit_tac H.
Qed.

Lemma ctc_exit_contract button sch w sch' w' :
  ctc gs button (sch, w) = Ret (sch', w') ->
  rx w' = []
  /\ cursor_x w' = to_int16 (cursor_x w) /\ cursor_y w' = to_int16 (cursor_y w)
  /\ text_color w' = 1
  /\ exists before polls,
       trace w'
       = trace w ++ before
         ++ [SetCursor 116 0; SetTextColor 0; WriteStr ">>"; Display]
         ++ polls ++ [SetCursor (to_int16 (cursor_x w))
                                (to_int16 (cursor_y w)); SetTextColor 1]
       /\ forallb is_poll polls = true.
Proof.
  unfold ctc. cbn [getCursorX getCursorY]. intros H. gate_exit_tac H.
Qed.

Lemma ctcTimed_exit_contract button timerMS sch w sch' w' :
  ctcTimed gs button timerMS (sch, w) = Ret (sch', w') ->
  rx w' = []
  /\ cursor_x w' = to_int16 (cursor_x w) /\ cursor_y w' = to_int16 (cursor_y w)
  /\ text_color w' = 1
  /\ exists before polls,
       trace w'
       = trace w ++ before
         ++ [SetCursor 116 0; SetTextColor 0; WriteStr ">>"; Display]
         ++ polls ++ [SetCursor (to_int16 (cursor_x w))
                                (to_int16 (cursor_y w)); SetTextColor 1]
       /\ forallb is_poll polls = true.
Proof.
  unfold ctcTimed. cbn [getCursorX getCursorY]. intros H. gate_exit_tac H.
Qed.

End GateExit.

(** ** The timed wait *)

Lemma ticking_steady sch : Forall ticking sch -> Forall steady sch.
Proof.
  apply Forall_impl. unfold ticking, steady. intros; lia.
Qed.

Lemma total_dt_ticking sch :
  Forall ticking sch -> Z.of_nat (List.length sch) <= total_dt sch.
Proof. induction 1; cbn [total_dt List.length]; unfold ticking in *; lia. Qed.

(** With nothing arriving the flush stops once the buffer is empty. *)
Lemma drain_serial_silent sch : forall w,
  Forall silent sch -> (List.length (rx w) < List.length sch)%nat ->
  exists sch' w',
    drain_serial sch w = Ret (sch', w')
    /\ List.length sch = (List.length sch' + List.length (rx w) + 1)%nat.
Proof.
  induction sch as [|t sch IH]; intros w Hs Hl; [cbn in Hl; lia|].
  apply Forall_cons_iff in Hs as [Ht Hs]. unfold silent in Ht.
  cbn [drain_serial]. unfold Serial_available, Serial_read.
  cbn [pass rx log]. rewrite Ht, app_nil_r.
  destruct (rx w) as [|b rest] eqn:Erx.
  - do 2 eexists. split; [reflexivity|]. cbn [List.length]. lia.
  - cbn [List.length] in *.
    assert ((Z.of_nat (S (List.length rest)) =? 0) = false) as ->
      by (apply Z.eqb_neq; lia).
    cbn [snd].
    match goal with |- context [drain_serial sch ?w0] =>
      destruct (IH w0 Hs) as (sch' & w' & E & L); [cbn [rx log]; lia|]
    end.
    exists sch', w'. split; [exact E|]. cbn [rx log] in L. lia.
Qed.

Lemma available_silent t w :
  silent t -> rx w = [] ->
  exists w1, Serial_available t w = (0, w1)
             /\ rx w1 = [] /\ clock w1 = clock w + dt t.
Proof.
  unfold silent, Serial_available. intros Ht Hrx.
  cbn [pass rx log]. rewrite Hrx, Ht. cbn.
  eexists. split; [reflexivity|]. cbn. now rewrite Hrx, Ht.
Qed.

Lemma millis_silent t w :
  silent t -> rx w = [] ->
  exists w2, millis t w = (to_long (clock w + dt t), w2)
             /\ rx w2 = [] /\ clock w2 = clock w + dt t.
Proof.
  unfold silent, millis. intros Ht Hrx.
  cbn [pass rx log clock]. eexists. split; [reflexivity|].
  cbn. now rewrite Hrx, Ht.
Qed.

Section TimedWait.

Variable gs : Z * Z -> ascii -> Z * Z.
Variable timerMS : Z.

(** A run of the timed loop in which nothing arrives ends by the clock. *)
Lemma await_serial_timed_silent n :
  forall sch basetime prev now color w sch' w',
    (List.length sch <= n)%nat ->
    Forall silent sch -> Forall steady sch -> rx w = [] ->
    0 <= basetime <= now -> now <= clock w ->
    clock w + total_dt sch < 2 ^ 31 ->
    await_serial_timed gs sch basetime prev now color timerMS w
    = Ret (sch', w') ->
    basetime + timerMS <= clock w' /\ rx w' = []
    /\ exists used, sch = used ++ sch'
                    /\ clock w' = clock w + total_dt used.
Proof.
  induction n as [|n IH];
    intros sch basetime prev now color w sch' w' Hn Hs Hst Hrx Hb Hc Hr H.
  - destruct sch; [discriminate | cbn in Hn; lia].
  - destruct sch as [|t sch1]; [discriminate|].
    apply Forall_cons_iff in Hs as [Ht Hs].
    apply Forall_cons_iff in Hst as [Hdt Hst]. unfold steady in Hdt.
    pose proof (total_dt_steady _ Hst) as Hpos.
    cbn [await_serial_timed total_dt] in H, Hr.
    destruct (available_silent t w Ht Hrx) as (w1 & Ea & Hrx1 & Hc1).
    rewrite Ea in H. cbn [Z.eqb andb] in H.
    destruct (to_long (now - basetime) <? timerMS) eqn:Et.
    + destruct sch1 as [|t' sch2]; [discriminate|].
      apply Forall_cons_iff in Hs as [Ht' Hs].
      apply Forall_cons_iff in Hst as [Hdt' Hst]. unfold steady in Hdt'.
      pose proof (total_dt_steady _ Hst) as Hpos'.
      cbn [total_dt] in Hr, Hpos.
      destruct (millis_silent t' w1 Ht' Hrx1) as (w2 & Em & Hrx2 & Hc2).
      rewrite Em in H.
      rewrite (to_long_small (clock w1 + dt t')) in H
        by (unfold long_range, int_range; lia).
      assert (exists used, sch2 = used ++ sch'
                /\ basetime + timerMS <= clock w' /\ rx w' = []
                /\ clock w' = clock w2 + total_dt used)
        as (used & -> & Hgoal & Hrx' & Hclk).
      { destruct (500 <? _);
          apply IH in H as (G & R & used & E & C); cbn in Hn;
          rewrite ?rx_indicator, ?clock_indicator in *;
          try lia; eauto 6. }
      split; [assumption|]. split; [assumption|].
      exists (t :: t' :: used). split; [reflexivity|]. cbn [total_dt]. lia.
    + injection H as <- <-.
      rewrite to_long_small in Et by (unfold long_range, int_range; lia).
      split; [lia|]. split; [assumption|].
      exists [t]. split; [reflexivity|]. cbn. lia.
Qed.

(** While the clock ticks the timed loop comes to its end. *)
Lemma await_serial_timed_returns n :
  forall sch basetime prev now color w,
    (Z.to_nat (timerMS - (now - basetime)) <= n)%nat ->
    (2 * n + 1 <= List.length sch)%nat ->
    Forall silent sch -> Forall ticking sch -> rx w = [] ->
    0 <= basetime <= now -> now <= clock w ->
    clock w + total_dt sch < 2 ^ 31 ->
    exists sch' w',
      await_serial_timed gs sch basetime prev now color timerMS w
      = Ret (sch', w')
      /\ (List.length sch <= List.length sch' + 2 * n + 1)%nat.
Proof.
  induction n as [|n IH];
    intros sch basetime prev now color w Hm Hl Hs Htk Hrx Hb Hc Hr;
    (destruct sch as [|t sch1]; [cbn in Hl; lia|]);
    apply Forall_cons_iff in Hs as [Ht Hs];
    apply Forall_cons_iff in Htk as [Hdt Htk]; unfold ticking in Hdt;
    pose proof (total_dt_steady _ (ticking_steady _ Htk));
    cbn [await_serial_timed total_dt] in *;
    destruct (available_silent t w Ht Hrx) as (w1 & Ea & Hrx1 & Hc1);
    rewrite Ea; cbn [Z.eqb andb];
    rewrite to_long_small by (unfold long_range, int_range; lia).
  - assert ((now - basetime <? timerMS) = false) as -> by lia.
    do 2 eexists. split; [reflexivity|]. cbn. lia.
  - destruct (now - basetime <? timerMS) eqn:Et.
    + destruct sch1 as [|t' sch2]; [cbn in Hl; lia|].
      apply Forall_cons_iff in Hs as [Ht' Hs].
      apply Forall_cons_iff in Htk as [Hdt' Htk]. unfold ticking in Hdt'.
      pose proof (total_dt_steady _ (ticking_steady _ Htk)).
      cbn [total_dt List.length] in *.
      destruct (millis_silent t' w1 Ht' Hrx1) as (w2 & Em & Hrx2 & Hc2).
      rewrite Em.
      rewrite (to_long_small (clock w1 + dt t'))
        by (unfold long_range, int_range; lia).
      destruct (500 <? _);
        match goal with |- context [await_serial_timed gs sch2 ?b ?p ?nw ?c
                                      timerMS ?w0] =>
          destruct (IH sch2 b p nw c w0) as (sch' & w' & E & L);
            rewrite ?rx_indicator, ?clock_indicator; try lia; auto
        end;
        exists sch', w'; (split; [exact E|]); lia.
    + do 2 eexists. split; [reflexivity|]. cbn. lia.
Qed.

End TimedWait.

Section TimedGate.

Variable gs : Z * Z -> ascii -> Z * Z.

(** X1.  With nothing arriving on the serial port, [ctcTimedSerial] does not
    return before [timerMS] milliseconds have passed on the clock. *)
Theorem ctcTimedSerial_silent_run timerMS sch w sch' w' :
  Forall silent sch -> Forall steady sch ->
  0 <= clock w -> clock w + total_dt sch < 2 ^ 31 ->
  ctcTimedSerial gs timerMS (sch, w) = Ret (sch', w') ->
  clock w + timerMS <= clock w'.
Proof.
  intros Hs Hst Hc Hr. unfold ctcTimedSerial. cbn [getCursorX getCursorY].
  intros H. run_binds H.
  apply drain_serial_polled in E as (Hrx0 & u0 & -> & P0).
  apply read_millis_polled in E0 as (t1 & -> & P1 & -> & Hrx1).
  apply read_millis_polled in E1 as (t2 & -> & P2 & -> & Hrx2).
  apply read_millis_polled in E2 as (t3 & -> & P3 & -> & Hrx3).
  apply Forall_app in Hs as [_ Hs].
  apply Forall_cons_iff in Hs as [S1 Hs].
  apply Forall_cons_iff in Hs as [S2 Hs].
  apply Forall_cons_iff in Hs as [S3 Hs]. unfold silent in S1, S2, S3.
  apply Forall_app in Hst as [T0 Hst].
  apply Forall_cons_iff in Hst as [T1 Hst].
  apply Forall_cons_iff in Hst as [T2 Hst].
  apply Forall_cons_iff in Hst as [T3 Hst]. unfold steady in T1, T2, T3.
  pose proof (total_dt_steady _ T0). pose proof (total_dt_steady _ Hst).
  rewrite total_dt_app in Hr. cbn [total_dt] in Hr.
  destruct P0 as (C0 & _), P1 as (C1 & _), P2 as (C2 & _), P3 as (C3 & _).
  cbn [log clock total_dt] in C0, C1, C2, C3.
  rewrite !to_long_small in E3 by (unfold long_range, int_range; lia).
  apply (await_serial_timed_silent _ _ _ _ _ _ _ _ _ _ _ (Nat.le_refl _))
    in E3 as (G & _ & ua & -> & Ca); auto; try lia.
  2:{ rewrite Hrx3, Hrx2, Hrx1, Hrx0, S1, S2, S3. reflexivity. }
  apply drain_serial_polled in E4 as (_ & u2 & -> & (C4 & _)).
  apply Forall_app in Hst as [_ Hst]. apply Forall_app in Hst as [Tu2 _].
  pose proof (total_dt_steady _ Tu2).
  rewrite clock_indicator in C4.
  injection H as <- <-. cbn [setTextColor setCursor log clock]. lia.
Qed.

(** X2.  With nothing arriving and a clock that advances at every
    observation, [ctcTimedSerial] returns: the bytes queued before the call
    cost one observation each, the timed wait at most two per millisecond of
    [timerMS]. *)
Theorem ctcTimedSerial_ticking_run timerMS sch w :
  Forall silent sch -> Forall ticking sch ->
  0 <= clock w -> clock w + total_dt sch < 2 ^ 31 ->
  (List.length (rx w) + 2 * Z.to_nat timerMS + 6 <= List.length sch)%nat ->
  exists sch' w', ctcTimedSerial gs timerMS (sch, w) = Ret (sch', w').
Proof.
  intros Hs Htk Hc Hr Hl. unfold ctcTimedSerial. cbn [getCursorX getCursorY].
  match goal with |- context [drain_serial sch ?w0] =>
    destruct (drain_serial_silent sch w0 Hs) as (l0 & w0' & E & L0);
      [cbn [rx log]; lia|]
  end.
  rewrite E. cbn [bind]. cbn [rx log] in L0.
  apply drain_serial_polled in E as (Hrx0 & u0 & -> & (C0 & _)).
  cbn [log clock] in C0.
  apply Forall_app in Hs as [_ Hs]. apply Forall_app in Htk as [K0 Htk].
  pose proof (total_dt_steady _ (ticking_steady _ K0)).
  rewrite total_dt_app in Hr.
  destruct l0 as [|t1 [|t2 [|t3 l3]]]; cbn [List.length] in L0; try lia.
  apply Forall_cons_iff in Hs as [S1 Hs].
  apply Forall_cons_iff in Hs as [S2 Hs].
  apply Forall_cons_iff in Hs as [S3 Hs].
  apply Forall_cons_iff in Htk as [K1 Htk].
  apply Forall_cons_iff in Htk as [K2 Htk].
  apply Forall_cons_iff in Htk as [K3 Htk]. unfold ticking in K1, K2, K3.
  pose proof (total_dt_steady _ (ticking_steady _ Htk)).
  cbn [total_dt] in Hr.
  destruct (millis_silent t1 w0' S1 Hrx0) as (w1 & E1 & Hrx1 & C1).
  destruct (millis_silent t2 w1 S2 Hrx1) as (w2 & E2 & Hrx2 & C2).
  destruct (millis_silent t3 w2 S3 Hrx2) as (w3 & E3 & Hrx3 & C3).
  cbn [read_millis]. rewrite E1. cbn [bind read_millis].
  rewrite E2. cbn [bind read_millis]. rewrite E3. cbn [bind].
  rewrite !to_long_small by (unfold long_range, int_range; lia).
  destruct (await_serial_timed_returns gs timerMS (Z.to_nat timerMS) l3
              (clock w0' + dt t1) (clock w1 + dt t2) (clock w2 + dt t3) 0 w3)
    as (l4 & w4 & E4 & L4); auto; try lia.
  rewrite E4. cbn [bind].
  apply (await_serial_timed_silent _ _ _ _ _ _ _ _ _ _ _ (Nat.le_refl _))
    in E4 as (_ & Hrx4 & ua & -> & _);
    auto using ticking_steady; try lia.
  apply Forall_app in Hs as [_ Hs].
  destruct (drain_serial_silent l4 (indicator gs 0 w4) Hs)
    as (l5 & w5 & E5 & _); [rewrite rx_indicator, Hrx4; cbn; lia|].
  rewrite E5. cbn [bind]. eauto.
Qed.

(** A timer of zero or less ends the wait at its first poll. *)
Lemma await_serial_timed_expired sch basetime prev now color timerMS w sch'
    w' :
  timerMS <= 0 -> 0 <= basetime <= now -> now < 2 ^ 31 ->
  await_serial_timed gs sch basetime prev now color timerMS w
  = Ret (sch', w') ->
  exists t, sch = t :: sch' /\ polled [t] w w'.
Proof.
  intros Ht Hb Hn. destruct sch as [|t sch1]; [discriminate|].
  cbn [await_serial_timed].
  pose proof (polled_available t w) as Ha.
  destruct (Serial_available t w) as [k w1]. cbn [snd] in Ha.
  rewrite to_long_small by (unfold long_range, int_range; lia).
  assert ((now - basetime <? timerMS) = false) as -> by lia.
  rewrite andb_false_r. intros H; injection H as <- <-. eauto.
Qed.

(** X3.  With [timerMS <= 0] the timed wait is over before its first test:
    the indicator is never written lit, whatever arrives. *)
Theorem ctcTimedSerial_expired_run timerMS sch w sch' w' :
  timerMS <= 0 -> Forall steady sch ->
  0 <= clock w -> clock w + total_dt sch < 2 ^ 31 ->
  ctcTimedSerial gs timerMS (sch, w) = Ret (sch', w') ->
  exists evs, trace w' = trace w ++ evs
              /\ indicator_writes 1 (text_color w) evs = O.
Proof.
  intros Ht Hst Hc Hr. unfold ctcTimedSerial. cbn [getCursorX getCursorY].
  intros H. run_binds H.
  apply drain_serial_polled in E as (_ & u0 & -> & P0).
  apply read_millis_polled in E0 as (t1 & -> & P1 & -> & _).
  apply read_millis_polled in E1 as (t2 & -> & P2 & -> & _).
  apply read_millis_polled in E2 as (t3 & -> & P3 & -> & _).
  apply Forall_app in Hst as [T0 Hst].
  apply Forall_cons_iff in Hst as [T1 Hst].
  apply Forall_cons_iff in Hst as [T2 Hst].
  apply Forall_cons_iff in Hst as [T3 Hst]. unfold steady in T1, T2, T3.
  pose proof (total_dt_steady _ T0). pose proof (total_dt_steady _ Hst).
  rewrite total_dt_app in Hr. cbn [total_dt] in Hr.
  pose proof P0 as (C0 & _). pose proof P1 as (C1 & _).
  pose proof P2 as (C2 & _). pose proof P3 as (C3 & _).
  cbn [log clock total_dt] in C0, C1, C2, C3.
  rewrite !to_long_small in E3 by (unfold long_range, int_range; lia).
  apply await_serial_timed_expired in E3 as (ta & -> & Pa); try lia.
  apply drain_serial_polled in E4 as (_ & u2 & -> & P4).
  pose proof (polled_trans _ _ _ _ _ P0
               (polled_trans _ _ _ _ _ P1
                 (polled_trans _ _ _ _ _ P2
                   (polled_trans _ _ _ _ _ P3 Pa))))
    as (_ & _ & _ & _ & e1 & T1' & Q1).
  destruct P4 as (_ & _ & _ & _ & e2 & T2' & Q2).
  injection H as <- <-.
  rewrite trace_indicator in T2'.
  exists ([GetCursorX (cursor_x w); GetCursorY (cursor_y w)] ++ e1
          ++ [SetCursor 116 0; SetTextColor 0; WriteStr ">>"; Display] ++ e2
          ++ [SetCursor (to_int16 (cursor_x w)) (to_int16 (cursor_y w));
              SetTextColor 1]).
  split.
  - cbn [setTextColor setCursor log trace]. rewrite T2', T1'.
    cbn [log trace]. now rewrite <- !app_assoc.
  - cbn [app indicator_writes]. rewrite indicator_writes_polls by assumption.
    cbn [app indicator_writes]. cbn [Z.eqb andb].
    now rewrite indicator_writes_polls by assumption.
Qed.

End TimedGate.

Lemma ctcTimedSerial_silent_run_witness :
  exists w', ctcTimedSerial classic_step 3 (repeat quiet 8, boot)
             = Ret ([], w')
             /\ clock boot + 3 <= clock w'.
Proof.
  eexists. split; [vm_compute; reflexivity|].
  apply (ctcTimedSerial_silent_run classic_step 3 (repeat quiet 8) boot []).
  - repeat constructor.
  - repeat constructor; unfold steady; cbn; lia.
  - cbn; lia.
  - cbn; lia.
  - vm_compute; reflexivity.
Defined.

Lemma ctcTimedSerial_ticking_run_witness :
  exists sch' w',
    ctcTimedSerial classic_step 3 (repeat quiet 12, boot) = Ret (sch', w').
Proof.
  apply (ctcTimedSerial_ticking_run classic_step 3 (repeat quiet 12) boot).
  - repeat constructor.
  - repeat constructor; unfold ticking; cbn; lia.
  - cbn; lia.
  - cbn; lia.
  - cbn; lia.
Defined.

Lemma ctcTimedSerial_expired_run_witness :
  exists w', ctcTimedSerial classic_step 0
               (repeat quiet 8, mkWorld 0 0 0 [1; 2] 600 [] [])
             = Ret ([], w')
             /\ exists evs, trace w' = [] ++ evs
                            /\ indicator_writes 1 0 evs = O.
Proof.
  eexists. split; [vm_compute; reflexivity|].
  apply (ctcTimedSerial_expired_run classic_step 0 (repeat quiet 8)
           (mkWorld 0 0 0 [1; 2] 600 [] []) []).
  - lia.
  - repeat constructor; unfold steady; cbn; lia.
  - cbn; lia.
  - cbn; lia.
  - vm_compute; reflexivity.
Defined.

(** ** The GPIO wait *)

Section ButtonWait.

Variable gs : Z * Z -> ascii -> Z * Z.
Variable button : Z.

Lemma digitalRead_kept t w :
  level_kept t ->
  exists w1, digitalRead button t w = (pin_level button (pins w), w1)
             /\ pins w1 = pins w.
Proof.
  unfold level_kept, digitalRead. intros Ht. cbn [pass pins log].
  rewrite Ht. cbn [app]. eexists. split; [reflexivity|]. cbn. now rewrite Ht.
Qed.

Lemma millis_kept t w :
  level_kept t -> pins (snd (millis t w)) = pins w.
Proof. unfold level_kept. intros Ht. cbn. now rewrite Ht. Qed.

Lemma pins_indicator c w : pins (indicator gs c w) = pins w.
Proof.
  unfold indicator, display, write_str. cbn [log pins].
  destruct (fold_left _ _ _). reflexivity.
Qed.

Lemma await_release_held sch : forall w,
  Forall level_kept sch -> pin_level button (pins w) <> 0 ->
  await_release sch button w = Pending.
Proof.
  induction sch as [|t sch IH]; intros w Hk Hp; [reflexivity|].
  apply Forall_cons_iff in Hk as [Ht Hk]. cbn [await_release].
  destruct (digitalRead_kept t w Ht) as (w1 & -> & Hw1).
  apply Z.eqb_neq in Hp as E. rewrite E. apply IH; [assumption|].
  now rewrite Hw1.
Qed.

Lemma await_release_low sch w :
  Forall level_kept sch -> pin_level button (pins w) = 0 ->
  await_release sch button w = Pending
  \/ exists t sch' w', sch = t :: sch'
       /\ await_release sch button w = Ret (sch', w') /\ pins w' = pins w.
Proof.
  intros Hk Hp. destruct sch as [|t sch]; [now left|]. right.
  apply Forall_cons_iff in Hk as [Ht Hk]. cbn [await_release].
  destruct (digitalRead_kept t w Ht) as (w1 & -> & Hw1).
  rewrite Hp. cbn. eauto 6.
Qed.

Lemma await_press_idle n : forall sch prev color w,
  (List.length sch <= n)%nat ->
  Forall level_kept sch -> pin_level button (pins w) = 0 ->
  await_press gs sch button prev color w = Pending.
Proof.
  induction n as [|n IH]; intros sch prev color w Hn Hk Hp.
  - destruct sch; [reflexivity | cbn in Hn; lia].
  - destruct sch as [|t [|t' sch2]]; [reflexivity| |];
      apply Forall_cons_iff in Hk as [Ht Hk]; cbn [await_press];
      destruct (digitalRead_kept t w Ht) as (w1 & -> & Hw1);
      rewrite Hp; cbn [Z.eqb]; [reflexivity|].
    apply Forall_cons_iff in Hk as [Ht' Hk].
    pose proof (millis_kept t' w1 Ht') as Hm.
    destruct (millis t' w1) as [now w2]. cbn [snd] in Hm.
    destruct (500 <? _); apply IH; cbn in Hn; try lia; auto;
      rewrite ?pins_indicator; congruence.
Qed.

(** X4.  A pin that never changes level does not confirm: held down it never
    passes the first loop of [ctc], left up it never leaves the second; the
    run is still waiting when the observations end, however many there
    are. *)
Theorem ctc_constant_level sch w :
  Forall level_kept sch -> ctc gs button (sch, w) = Pending.
Proof.
  intros Hk. unfold ctc. cbn [getCursorX getCursorY].
  match goal with |- context [await_release sch button ?w0] =>
    set (wa := w0)
  end.
  destruct (Z.eq_dec (pin_level button (pins wa)) 0) as [Hp | Hp].
  - destruct (await_release_low sch wa Hk Hp)
      as [-> | (t & l & w1 & -> & -> & Hw1)]; [reflexivity|].
    cbn [bind]. apply Forall_cons_iff in Hk as [_ Hk].
    destruct l as [|t1 l]; [reflexivity|].
    apply Forall_cons_iff in Hk as [Ht1 Hk].
    cbn [read_millis].
    pose proof (millis_kept t1 w1 Ht1) as Hm.
    destruct (millis t1 w1) as [now w2]. cbn [snd] in Hm. cbn [bind].
    rewrite (await_press_idle _ _ _ _ _ (Nat.le_refl _)); auto.
    congruence.
  - now rewrite await_release_held.
Qed.

End ButtonWait.

Lemma ctc_constant_level_witness :
  ctc classic_step 7 (repeat quiet 40, boot) = Pending.
Proof.
  apply (ctc_constant_level classic_step 7 (repeat quiet 40) boot).
  repeat constructor.
Defined.

(** ** Further properties of the confirm gates *)

(** X5.  Every return of [ctcSerial] or [ctcTimedSerial] leaves the serial
    buffer empty, and its last events are: the indicator written dark and
    presented, then nothing but polls, then the cursor set back and the
    colour set to 1.  The indicator is never left lit. *)
Theorem serial_gates_exit_dark gs :
  (forall sch w sch' w',
      ctcSerial gs (sch, w) = Ret (sch', w') ->
      rx w' = []
      /\ exists before polls,
           trace w'
           = trace w ++ before
             ++ [SetCursor 116 0; SetTextColor 0; WriteStr ">>"; Display]
             ++ polls ++ [SetCursor (to_int16 (cursor_x w))
                                    (to_int16 (cursor_y w)); SetTextColor 1]
           /\ forallb is_poll polls = true)
  /\ (forall timerMS sch w sch' w',
        ctcTimedSerial gs timerMS (sch, w) = Ret (sch', w') ->
        rx w' = []
        /\ exists before polls,
             trace w'
             = trace w ++ before
               ++ [SetCursor 116 0; SetTextColor 0; WriteStr ">>"; Display]
               ++ polls ++ [SetCursor (to_int16 (cursor_x w))
                                      (to_int16 (cursor_y w)); SetTextColor 1]
             /\ forallb is_poll polls = true).
Proof.
  split.
  - intros sch w sch' w' H.
    apply ctcSerial_exit_contract in H as (Hrx & _ & _ & _ & Ht). auto.
  - intros timerMS sch w sch' w' H.
    apply ctcTimedSerial_exit_contract in H as (Hrx & _ & _ & _ & Ht). auto.
Qed.

Lemma serial_gates_exit_dark_witness :
  (exists w', ctcSerial classic_step (press, boot) = Ret ([], w')
              /\ rx w' = [])
  /\ (exists w', ctcTimedSerial classic_step 3 (repeat quiet 8, boot)
                 = Ret ([], w')
                 /\ rx w' = []).
Proof.
  split.
  - eexists. split; [vm_compute; reflexivity|].
    apply (proj1 (serial_gates_exit_dark classic_step) press boot []).
    vm_compute; reflexivity.
  - eexists. split; [vm_compute; reflexivity|].
    apply (proj2 (serial_gates_exit_dark classic_step) 3 (repeat quiet 8)
                 boot []).
    vm_compute; reflexivity.
Defined.

(** X6.  Every return of the GPIO gates [ctc] and [ctcTimed] gives back the
    cursor it found (for an [int16_t] cursor), sets the colour to 1, leaves
    the serial buffer empty, and ends with the indicator written dark and
    presented, polls, and the cursor and colour calls. *)
Theorem button_gates_exit gs :
  (forall button sch w sch' w',
      int16_range (cursor_x w) -> int16_range (cursor_y w) ->
      ctc gs button (sch, w) = Ret (sch', w') ->
      cursor_x w' = cursor_x w /\ cursor_y w' = cursor_y w
      /\ text_color w' = 1 /\ rx w' = []
      /\ exists before polls,
           trace w'
           = trace w ++ before
             ++ [SetCursor 116 0; SetTextColor 0; WriteStr ">>"; Display]
             ++ polls ++ [SetCursor (cursor_x w) (cursor_y w);
                          SetTextColor 1]
           /\ forallb is_poll polls = true)
  /\ (forall button timerMS sch w sch' w',
        int16_range (cursor_x w) -> int16_range (cursor_y w) ->
        ctcTimed gs button timerMS (sch, w) = Ret (sch', w') ->
        cursor_x w' = cursor_x w /\ cursor_y w' = cursor_y w
        /\ text_color w' = 1 /\ rx w' = []
        /\ exists before polls,
             trace w'
             = trace w ++ before
               ++ [SetCursor 116 0; SetTextColor 0; WriteStr ">>"; Display]
               ++ polls ++ [SetCursor (cursor_x w) (cursor_y w);
                            SetTextColor 1]
             /\ forallb is_poll polls = true).
Proof.
  split.
  - intros button sch w sch' w' Hx Hy H.
    apply ctc_exit_contract in H as (Hrx & Hcx & Hcy & Hc & Ht).
    rewrite !to_int16_small in * by assumption. auto 6.
  - intros button timerMS sch w sch' w' Hx Hy H.
    apply ctcTimed_exit_contract in H as (Hrx & Hcx & Hcy & Hc & Ht).
    rewrite !to_int16_small in * by assumption. auto 6.
Qed.

Lemma button_gates_exit_witness :
  (exists sch' w',
      ctc classic_step 7
          ([quiet; quiet; mkTick 1 [] [(7, 1)]; quiet],
           mkWorld 30 16 0 [] 0 [] []) = Ret (sch', w')
      /\ cursor_x w' = 30 /\ cursor_y w' = 16 /\ text_color w' = 1)
  /\ (exists sch' w',
        ctcTimed classic_step 7 3
                 (repeat quiet 8, mkWorld 30 16 0 [] 0 [] []) = Ret (sch', w')
        /\ cursor_x w' = 30 /\ cursor_y w' = 16 /\ text_color w' = 1).
Proof.
  split.
  - do 2 eexists. split; [vm_compute; reflexivity|].
    destruct (proj1 (button_gates_exit classic_step) 7
                [quiet; quiet; mkTick 1 [] [(7, 1)]; quiet]
                (mkWorld 30 16 0 [] 0 [] []) _ _
                ltac:(unfold int16_range; cbn; lia)
                ltac:(unfold int16_range; cbn; lia)
                ltac:(vm_compute; reflexivity))
      as (Hx & Hy & Hc & _).
    auto.
  - do 2 eexists. split; [vm_compute; reflexivity|].
    destruct (proj2 (button_gates_exit classic_step) 7 3 (repeat quiet 8)
                (mkWorld 30 16 0 [] 0 [] []) _ _
                ltac:(unfold int16_range; cbn; lia)
                ltac:(unfold int16_range; cbn; lia)
                ltac:(vm_compute; reflexivity))
      as (Hx & Hy & Hc & _).
    auto.
Defined.

(** ** The frames of a scroll *)

Lemma lit_rows_app a b : lit_rows (a ++ b) = lit_rows a ++ lit_rows b.
Proof.
  induction a as [|e a IH]; [reflexivity|].
  destruct e; cbn [app lit_rows]; auto.
  destruct color as [|[p|p|]|]; cbn; now rewrite ?IH.
Qed.

Lemma map_seq_succ {A} (f : nat -> A) n :
  map f (seq 1 (S n)) = f 1%nat :: map (fun j => f (S j)) (seq 1 n).
Proof. cbn [seq map]. now rewrite <- seq_shift, map_map. Qed.

Section RowsAlgebra.

Variables (step : Z) (snap : bool).

Lemma down_rows_done top togo :
  0 < step -> togo <= 0 -> down_rows step snap top togo = [].
Proof.
  intros Hs Ht. unfold down_rows.
  assert (E : Z.to_nat ((togo - 1) / step) = O).
  { assert ((togo - 1) / step < 0) by (apply Z.div_lt_upper_bound; lia).
    lia. }
  rewrite E. destruct snap; cbn; [reflexivity|].
  replace (Z.to_nat (togo - 0)) with O by lia. reflexivity.
Qed.

Lemma down_rows_full top togo :
  0 < step -> step < togo ->
  down_rows step snap top togo
  = (top - step) :: down_rows step snap (top - step) (togo - step).
Proof.
  intros Hs Ht. unfold down_rows.
  assert (E : (togo - 1) / step = (togo - step - 1) / step + 1).
  { replace (togo - 1) with (togo - step - 1 + 1 * step) by lia.
    now rewrite Z.div_add by lia. }
  assert (0 <= (togo - step - 1) / step) by (apply Z.div_pos; lia).
  set (k' := Z.to_nat ((togo - step - 1) / step)).
  assert (Ek : Z.to_nat ((togo - 1) / step) = S k') by (unfold k'; lia).
  rewrite Ek, map_seq_succ. cbn [app]. f_equal; [lia|]. f_equal.
  - apply map_ext. intros j. lia.
  - replace (togo - step - Z.of_nat k' * step)
      with (togo - Z.of_nat (S k') * step) by lia.
    apply map_ext. intros j. lia.
Qed.

Lemma down_rows_break top togo :
  0 < step -> 0 < togo <= step -> snap = true ->
  down_rows step snap top togo = [].
Proof.
  intros Hs Ht ->. unfold down_rows.
  rewrite Z.div_small by lia. reflexivity.
Qed.

Lemma down_rows_unit top togo :
  0 < step -> 0 < togo <= step -> snap = false ->
  down_rows step snap top togo
  = (top - 1) :: down_rows step snap (top - 1) (togo - 1).
Proof.
  intros Hs Ht ->. unfold down_rows.
  rewrite Z.div_small by lia.
  assert (E : Z.to_nat ((togo - 1 - 1) / step) = O).
  { destruct (Z.eq_dec togo 1) as [-> | Hn].
    - assert ((1 - 1 - 1) / step < 0) by (apply Z.div_lt_upper_bound; lia).
      lia.
    - rewrite Z.div_small by lia. reflexivity. }
  rewrite E. cbn [Z.to_nat Z.of_nat map seq app].
  replace (Z.to_nat (togo - 0 * step)) with (S (Z.to_nat (togo - 1 - 0 * step)))
    by lia.
  rewrite map_seq_succ. f_equal; [lia|]. apply map_ext. intros j. lia.
Qed.

Lemma up_rows_done top togo :
  step < 0 -> togo <= 0 -> up_rows step snap top togo = [].
Proof.
  intros Hs Ht. unfold up_rows.
  assert (E : Z.to_nat (togo / (- step)) = O).
  { assert (togo / (- step) <= 0) by (apply Z.div_le_upper_bound; lia).
    lia. }
  rewrite E. destruct snap; cbn; [reflexivity|].
  replace (Z.to_nat (togo - 0)) with O by lia. reflexivity.
Qed.

Lemma up_rows_full top togo :
  step < 0 -> - step <= togo ->
  up_rows step snap top togo
  = (top - step) :: up_rows step snap (top - step) (togo + step).
Proof.
  intros Hs Ht. unfold up_rows.
  assert (E : togo / (- step) = (togo + step) / (- step) + 1).
  { replace togo with (togo + step + 1 * (- step)) at 1 by lia.
    now rewrite Z.div_add by lia. }
  assert (0 <= (togo + step) / (- step)) by (apply Z.div_pos; lia).
  set (k' := Z.to_nat ((togo + step) / (- step))).
  assert (Ek : Z.to_nat (togo / (- step)) = S k') by (unfold k'; lia).
  rewrite Ek, map_seq_succ. cbn [app]. f_equal; [lia|]. f_equal.
  - apply map_ext. intros j. lia.
  - replace (togo + step - Z.of_nat k' * (- step))
      with (togo - Z.of_nat (S k') * (- step)) by lia.
    apply map_ext. intros j. lia.
Qed.

Lemma up_rows_break top togo :
  step < 0 -> 0 < togo < - step -> snap = true ->
  up_rows step snap top togo = [].
Proof.
  intros Hs Ht ->. unfold up_rows.
  rewrite Z.div_small by lia. reflexivity.
Qed.

Lemma up_rows_unit top togo :
  step < 0 -> 0 < togo < - step -> snap = false ->
  up_rows step snap top togo
  = (top + 1) :: up_rows step snap (top + 1) (togo - 1).
Proof.
  intros Hs Ht ->. unfold up_rows.
  rewrite !Z.div_small by lia.
  cbn [Z.to_nat Z.of_nat map seq app].
  replace (Z.to_nat (togo - 0 * - step))
    with (S (Z.to_nat (togo - 1 - 0 * - step))) by lia.
  rewrite map_seq_succ. f_equal; [lia|]. apply map_ext. intros j. lia.
Qed.

End RowsAlgebra.

Section ScrollFrames.

Variables (scrolldelay scrollstep : Z) (snaptoend : bool).
Variables (offset_x offset_y end_y : Z) (bmp : Image).
Hypothesis Hoff : int16_range offset_y.
Hypothesis Hend : int16_range end_y.

Lemma trace_scroll_frame y w :
  trace (scroll_frame scrolldelay offset_x bmp y w)
  = trace w ++ [DrawBitmap (to_int16 offset_x) (to_int16 y) (bitmap bmp)
                           (to_int16 (width bmp)) (to_int16 (height bmp)) ON;
                Display; Delay scrolldelay].
Proof.
  unfold scroll_frame, delay, display, drawBitmap, log. cbn [trace].
  now rewrite <- !app_assoc.
Qed.

Lemma scroll_down_rows fuel :
  0 < scrollstep <= 2 ^ 31 - 2 ^ 17 ->
  forall h w w',
    0 <= h <= 65536 ->
    scroll_down scrolldelay scrollstep snaptoend offset_x offset_y end_y bmp
                fuel h w = Ret w' ->
    exists evs,
      trace w' = trace w ++ evs
      /\ lit_rows evs
         = down_rows scrollstep snaptoend (offset_y - h)
                     (end_y - (h + 64 - offset_y)).
Proof.
  intros Hstep. induction fuel as [|fuel IH]; intros h w w' Hh H.
  - cbn in H. revert H. int_simpl.
    destruct (h + 64 - offset_y <? end_y) eqn:E; [discriminate|].
    intros H; injection H as <-. exists []. rewrite app_nil_r.
    split; [reflexivity|]. rewrite down_rows_done; [reflexivity| |]; lia.
  - cbn in H. revert H. int_simpl.
    destruct (h + 64 - offset_y <? end_y) eqn:E.
    2:{ intros H; injection H as <-. exists []. rewrite app_nil_r.
        split; [reflexivity|]. rewrite down_rows_done; [reflexivity| |]; lia. }
    destruct (h + 64 - offset_y + scrollstep <? end_y) eqn:E1.
    + int_simpl. intros H.
      apply IH in H as (evs & T & R); [|unfold int16_range in *; lia].
      rewrite trace_scroll_frame in T. cbn [drawBitmap log trace] in T.
      eexists. split; [rewrite T, <- !app_assoc; reflexivity|].
      cbn [app lit_rows OFF ON]. rewrite R.
      rewrite (down_rows_full _ _ (offset_y - h)) by lia.
      rewrite to_int16_small by (unfold int16_range in *; lia).
      f_equal; [lia|]. f_equal; lia.
    + cbn [andb]. destruct snaptoend eqn:Es; cbn [negb].
      * intros H; injection H as <-. cbn [drawBitmap log trace].
        eexists. split; [reflexivity|]. cbn [lit_rows OFF].
        rewrite down_rows_break; [reflexivity | lia | lia | reflexivity].
      * int_simpl. intros H.
        apply IH in H as (evs & T & R); [|unfold int16_range in *; lia].
        rewrite trace_scroll_frame in T. cbn [drawBitmap log trace] in T.
        eexists. split; [rewrite T, <- !app_assoc; reflexivity|].
        cbn [app lit_rows OFF ON]. rewrite R.
        rewrite (down_rows_unit _ _ (offset_y - h)) by (auto; lia).
        rewrite to_int16_small by (unfold int16_range in *; lia).
        f_equal; [lia|]. f_equal; lia.
Qed.

Lemma scroll_up_rows fuel :
  - (2 ^ 31 - 2 ^ 17) <= scrollstep < 0 -> -32767 <= end_y ->
  forall h w w',
    -32768 <= h <= 32767 ->
    scroll_up scrolldelay scrollstep snaptoend offset_x end_y bmp fuel h w
    = Ret w' ->
    exists evs,
      trace w' = trace w ++ evs
      /\ lit_rows evs = up_rows scrollstep snaptoend h (- end_y - h).
Proof.
  intros Hstep Hlow. induction fuel as [|fuel IH]; intros h w w' Hh H.
  - cbn in H. revert H. int_simpl.
    destruct (h <? - end_y) eqn:E; [discriminate|].
    intros H; injection H as <-. exists []. rewrite app_nil_r.
    split; [reflexivity|]. rewrite up_rows_done; [reflexivity| |]; lia.
  - cbn in H. revert H. int_simpl.
    destruct (h <? - end_y) eqn:E.
    2:{ intros H; injection H as <-. exists []. rewrite app_nil_r.
        split; [reflexivity|]. rewrite up_rows_done; [reflexivity| |]; lia. }
    destruct (h - scrollstep <=? - end_y) eqn:E1.
    + intros H.
      apply IH in H as (evs & T & R); [|unfold int16_range in *; lia].
      rewrite trace_scroll_frame in T. cbn [drawBitmap log trace] in T.
      eexists. split; [rewrite T, <- !app_assoc; reflexivity|].
      cbn [app lit_rows OFF ON]. rewrite R.
      rewrite (up_rows_full _ _ h) by lia.
      rewrite to_int16_small by (unfold int16_range in *; lia).
      f_equal. f_equal; lia.
    + assert ((h <=? - end_y) = true) as -> by lia. cbn [andb].
      destruct snaptoend eqn:Es; cbn [negb].
      * intros H; injection H as <-. cbn [drawBitmap log trace].
        eexists. split; [reflexivity|]. cbn [lit_rows OFF].
        rewrite up_rows_break; [reflexivity | lia | lia | reflexivity].
      * intros H.
        apply IH in H as (evs & T & R); [|unfold int16_range in *; lia].
        rewrite trace_scroll_frame in T. cbn [drawBitmap log trace] in T.
        eexists. split; [rewrite T, <- !app_assoc; reflexivity|].
        cbn [app lit_rows OFF ON]. rewrite R.
        rewrite (up_rows_unit _ _ h) by (auto; lia).
        rewrite to_int16_small by (unfold int16_range in *; lia).
        f_equal. f_equal; lia.
Qed.

End ScrollFrames.

Lemma resolve_end_y_down_range scrollstep end_y ao bmp :
  0 < scrollstep -> int16_range end_y -> end_y <= 32703 ->
  0 <= height bmp <= 32767 ->
  0 <= resolve_end_y scrollstep end_y ao bmp <= 32767.
Proof.
  intros Hs He Hm Hh. unfold resolve_end_y, int16_range in *.
  assert ((0 <? scrollstep) = true) as -> by lia. cbn [andb].
  rewrite (to_int_small (end_y + 64)) by (unfold int_range; lia).
  destruct (end_y <=? 0) eqn:E;
    [rewrite to_int16_small; unfold int16_range; lia|].
  destruct (_ && _); rewrite to_int16_small; unfold int16_range; lia.
Qed.

Lemma resolve_end_y_up_range scrollstep end_y ao bmp :
  scrollstep < 0 -> -32767 <= end_y <= 32767 ->
  0 <= height bmp <= 32767 ->
  -32767 <= resolve_end_y scrollstep end_y ao bmp <= 32767.
Proof.
  intros Hs He Hh. unfold resolve_end_y.
  assert ((0 <? scrollstep) = false) as -> by lia.
  assert ((scrollstep <? 0) = true) as -> by lia. cbn [andb].
  rewrite (to_int_small (end_y + 64)) by (unfold int_range; lia).
  rewrite (to_int_small (height bmp - 64)) by (unfold int_range; lia).
  destruct (_ && _); [rewrite to_int16_small; unfold int16_range; lia|].
  destruct (_ && _); lia.
Qed.

(** The lit frames of a whole call: first frame, steps, final frame. *)
Lemma down_frames fuel initialdelay enddelay scrolldelay scrollstep snaptoend
    allowoverflow offset_x offset_y end_y bmp w w' :
  0 < scrollstep <= 2 ^ 31 - 2 ^ 17 ->
  int16_range offset_y -> int16_range end_y -> end_y <= 32703 ->
  0 <= height bmp <= 32767 ->
  drawVerticalScrollingBitmap fuel initialdelay enddelay scrolldelay
    scrollstep snaptoend allowoverflow offset_x offset_y end_y bmp w
  = Ret w' ->
  exists evs,
    trace w' = trace w ++ evs
    /\ lit_rows evs
       = offset_y
         :: down_rows scrollstep snaptoend offset_y
              (resolve_end_y scrollstep end_y allowoverflow bmp - 64
               + offset_y)
         ++ [64 - resolve_end_y scrollstep end_y allowoverflow bmp].
Proof.
  intros Hs Ho He Hm Hh.
  pose proof (resolve_end_y_down_range scrollstep end_y allowoverflow bmp
                ltac:(lia) He Hm Hh) as Hr.
  unfold drawVerticalScrollingBitmap.
  assert ((0 <? scrollstep) = true) as -> by lia.
  set (endY := resolve_end_y scrollstep end_y allowoverflow bmp) in *.
  destruct (scroll_down _ _ _ _ _ _ _ _ _ _) as [wl| |] eqn:El;
    try discriminate.
  cbn [bind]. intros H; injection H as <-.
  apply scroll_down_rows in El as (evs & T & R);
    try assumption; try (unfold int16_range; lia).
  unfold final_frame, delay, display, drawBitmap, log in *.
  cbn [trace] in *. rewrite T.
  eexists. split; [rewrite <- !app_assoc; reflexivity|].
  cbn [app lit_rows ON]. rewrite lit_rows_app, R. cbn [lit_rows app ON].
  rewrite (to_int16_small offset_y) by assumption.
  int_simpl.
  rewrite to_int16_small by (unfold int16_range; lia).
  f_equal. f_equal; [f_equal; lia|]. f_equal. lia.
Qed.

Lemma up_frames fuel initialdelay enddelay scrolldelay scrollstep snaptoend
    allowoverflow offset_x offset_y end_y bmp w w' :
  - (2 ^ 31 - 2 ^ 17) <= scrollstep < 0 ->
  int16_range offset_y -> -32767 <= end_y <= 32767 ->
  0 <= height bmp <= 32767 ->
  drawVerticalScrollingBitmap fuel initialdelay enddelay scrolldelay
    scrollstep snaptoend allowoverflow offset_x offset_y end_y bmp w
  = Ret w' ->
  exists evs,
    trace w' = trace w ++ evs
    /\ lit_rows evs
       = offset_y
         :: up_rows scrollstep snaptoend offset_y
              (- resolve_end_y scrollstep end_y allowoverflow bmp - offset_y)
         ++ [- resolve_end_y scrollstep end_y allowoverflow bmp].
Proof.
  intros Hs Ho He Hh.
  pose proof (resolve_end_y_up_range scrollstep end_y allowoverflow bmp
                ltac:(lia) He Hh) as Hr.
  unfold drawVerticalScrollingBitmap.
  assert ((0 <? scrollstep) = false) as -> by lia.
  assert ((scrollstep <? 0) = true) as -> by lia.
  set (endY := resolve_end_y scrollstep end_y allowoverflow bmp) in *.
  destruct (scroll_up _ _ _ _ _ _ _ _ _) as [wl| |] eqn:El;
    try discriminate.
  cbn [bind]. intros H; injection H as <-.
  apply scroll_up_rows in El as (evs & T & R);
    try assumption; try (unfold int16_range in *; lia).
  unfold final_frame, delay, display, drawBitmap, log in *.
  cbn [trace] in *. rewrite T.
  eexists. split; [rewrite <- !app_assoc; reflexivity|].
  cbn [app lit_rows ON]. rewrite lit_rows_app, R. cbn [lit_rows app ON].
  rewrite (to_int16_small offset_y) by assumption.
  int_simpl.
  rewrite to_int16_small by (unfold int16_range; lia).
  reflexivity.
Qed.

Lemma down_rows_moves step snap n : forall top togo,
  0 < step -> (Z.to_nat togo <= n)%nat -> 0 <= togo ->
  Forall (fun m => 0 <= m <= step)
         (moves (top :: down_rows step snap top togo ++ [top - togo])).
Proof.
  induction n as [|n IH]; intros top togo Hs Hn Ht.
  - rewrite down_rows_done by lia. cbn. constructor; [lia | constructor].
  - destruct (Z.eq_dec togo 0) as [-> | Hz].
    + rewrite down_rows_done by lia. cbn. constructor; [lia | constructor].
    + destruct (Z_lt_dec step togo) as [Hf | Hf].
      * rewrite down_rows_full by lia. cbn [app moves].
        constructor; [lia|].
        replace (top - togo) with (top - step - (togo - step)) by lia.
        apply IH; lia.
      * destruct snap eqn:Es.
        -- rewrite down_rows_break by (auto; lia). cbn.
           constructor; [lia | constructor].
        -- rewrite down_rows_unit by (auto; lia). cbn [app moves].
           constructor; [lia|].
           replace (top - togo) with (top - 1 - (togo - 1)) by lia.
           apply IH; lia.
Qed.

Lemma up_rows_moves step snap n : forall top togo,
  step < 0 -> (Z.to_nat togo <= n)%nat -> 0 <= togo ->
  Forall (fun m => step <= m <= 0)
         (moves (top :: up_rows step snap top togo ++ [top + togo])).
Proof.
  induction n as [|n IH]; intros top togo Hs Hn Ht.
  - rewrite up_rows_done by lia. cbn. constructor; [lia | constructor].
  - destruct (Z.eq_dec togo 0) as [-> | Hz].
    + rewrite up_rows_done by lia. cbn. constructor; [lia | constructor].
    + destruct (Z_le_dec (- step) togo) as [Hf | Hf].
      * rewrite up_rows_full by lia. cbn [app moves].
        constructor; [lia|].
        replace (top + togo) with (top - step + (togo + step)) by lia.
        apply IH; lia.
      * destruct snap eqn:Es.
        -- rewrite up_rows_break by (auto; lia). cbn.
           constructor; [lia | constructor].
        -- rewrite up_rows_unit by (auto; lia). cbn [app moves].
           constructor; [lia|].
           replace (top + togo) with (top + 1 + (togo - 1)) by lia.
           apply IH; lia.
Qed.

Lemma scroll_call_returns fuel initialdelay enddelay scrolldelay scrollstep
    snaptoend allowoverflow offset_x offset_y end_y bmp w :
  scrollstep <> 0 ->
  - (2 ^ 31 - 2 ^ 17) <= scrollstep <= 2 ^ 31 - 2 ^ 17 ->
  int16_range offset_y -> int16_range end_y ->
  (Z.to_nat (if (0 <? scrollstep)%Z
             then (resolve_end_y scrollstep end_y allowoverflow bmp
                   - (64 - offset_y))%Z
             else (- resolve_end_y scrollstep end_y allowoverflow bmp
                   - offset_y)%Z) <= fuel)%nat ->
  exists w',
    drawVerticalScrollingBitmap fuel initialdelay enddelay scrolldelay
      scrollstep snaptoend allowoverflow offset_x offset_y end_y bmp w
    = Ret w'.
Proof.
  intros Hstep Hrange Hoff Hend Hfuel.
  set (endY := resolve_end_y scrollstep end_y allowoverflow bmp) in *.
  assert (HendY : int16_range endY).
  { unfold endY, resolve_end_y.
    repeat match goal with
           | |- context [if ?b then _ else _] => destruct b
           end; auto using to_int16_range; unfold int16_range; lia. }
  unfold drawVerticalScrollingBitmap. fold endY.
  destruct (0 <? scrollstep) eqn:Hpos.
  - match goal with
    | |- context [scroll_down ?sd ?ss ?sn ?ox ?oy ?ey ?b ?f ?h ?w0] =>
      destruct (scroll_down_returns sd ss sn ox oy ey b Hoff HendY f
                  ltac:(lia) h w0 ltac:(lia) ltac:(lia)) as [wl ->]
    end.
    cbn [bind]. eauto.
  - assert ((scrollstep <? 0) = true) as -> by lia.
    match goal with
    | |- context [scroll_up ?sd ?ss ?sn ?ox ?ey ?b ?f ?h ?w0] =>
      destruct (scroll_up_returns sd ss sn ox ey b HendY f
                  ltac:(lia) h w0 ltac:(unfold int16_range in *; lia)
                  ltac:(lia)) as [wl ->]
    end.
    cbn [bind]. eauto.
Qed.

(** X7.  The lit frames of a downward scroll, in closed form.  After the first
    frame at [offset_y] come [k] frames [scrollstep] rows apart, [k] the
    number of whole steps that stay strictly short of the end; then, unless
    [snaptoend], one frame per remaining row; then the final frame at
    [64 - endY]. *)
Theorem scroll_down_frames fuel initialdelay enddelay scrolldelay scrollstep
    snaptoend allowoverflow offset_x offset_y end_y bmp w :
  0 < scrollstep <= 2 ^ 31 - 2 ^ 17 ->
  int16_range offset_y -> int16_range end_y -> end_y <= 32703 ->
  0 <= height bmp <= 32767 ->
  (Z.to_nat (resolve_end_y scrollstep end_y allowoverflow bmp
             - (64 - offset_y)) <= fuel)%nat ->
  exists w' evs,
    drawVerticalScrollingBitmap fuel initialdelay enddelay scrolldelay
      scrollstep snaptoend allowoverflow offset_x offset_y end_y bmp w
    = Ret w'
    /\ trace w' = trace w ++ evs
    /\ lit_rows evs
       = offset_y
         :: down_rows scrollstep snaptoend offset_y
              (resolve_end_y scrollstep end_y allowoverflow bmp - 64
               + offset_y)
         ++ [64 - resolve_end_y scrollstep end_y allowoverflow bmp].
Proof.
  intros Hs Ho He Hm Hh Hfuel.
  destruct (scroll_call_returns fuel initialdelay enddelay scrolldelay
              scrollstep snaptoend allowoverflow offset_x offset_y end_y bmp
              w) as [w' Hrun]; try assumption; try lia.
  { replace (0 <? scrollstep) with true by lia. exact Hfuel. }
  destruct (down_frames _ _ _ _ _ _ _ _ _ _ _ _ _ Hs Ho He Hm Hh Hrun)
    as (evs & T & R).
  eauto.
Qed.

Lemma scroll_down_frames_witness :
  exists w' evs,
    drawVerticalScrollingBitmap 64 0 0 0 5 false false 0 0 0 bmp128 boot
    = Ret w'
    /\ trace w' = trace boot ++ evs
    /\ lit_rows evs
       = [0; -5; -10; -15; -20; -25; -30; -35; -40; -45; -50; -55; -60; -61;
          -62; -63; -64; -64].
Proof.
  exact (scroll_down_frames 64 0 0 0 5 false false 0 0 0 bmp128 boot
           ltac:(lia) ltac:(unfold int16_range; lia)
           ltac:(unfold int16_range; lia) ltac:(lia) ltac:(cbn; lia)
           ltac:(vm_compute; lia)).
Defined.

(** X8.  The lit frames of an upward scroll, in closed form.  After the first
    frame at [offset_y] come [k] frames [-scrollstep] rows apart, [k] the
    number of whole steps that do not pass the end; then, unless
    [snaptoend], one frame per remaining row; then the final frame at
    [-endY]. *)
Theorem scroll_up_frames fuel initialdelay enddelay scrolldelay scrollstep
    snaptoend allowoverflow offset_x offset_y end_y bmp w :
  - (2 ^ 31 - 2 ^ 17) <= scrollstep < 0 ->
  int16_range offset_y -> -32767 <= end_y <= 32767 ->
  0 <= height bmp <= 32767 ->
  (Z.to_nat (- resolve_end_y scrollstep end_y allowoverflow bmp - offset_y)
   <= fuel)%nat ->
  exists w' evs,
    drawVerticalScrollingBitmap fuel initialdelay enddelay scrolldelay
      scrollstep snaptoend allowoverflow offset_x offset_y end_y bmp w
    = Ret w'
    /\ trace w' = trace w ++ evs
    /\ lit_rows evs
       = offset_y
         :: up_rows scrollstep snaptoend offset_y
              (- resolve_end_y scrollstep end_y allowoverflow bmp - offset_y)
         ++ [- resolve_end_y scrollstep end_y allowoverflow bmp].
Proof.
  intros Hs Ho He Hh Hfuel.
  destruct (scroll_call_returns fuel initialdelay enddelay scrolldelay
              scrollstep snaptoend allowoverflow offset_x offset_y end_y bmp
              w) as [w' Hrun]; try assumption; try lia.
  { unfold int16_range; lia. }
  { replace (0 <? scrollstep) with false by lia. exact Hfuel. }
  destruct (up_frames _ _ _ _ _ _ _ _ _ _ _ _ _ Hs Ho He Hh Hrun)
    as (evs & T & R).
  eauto.
Qed.

Lemma scroll_up_frames_witness :
  exists w' evs,
    drawVerticalScrollingBitmap 64 0 0 0 (-5) false false 0 (-64) 0 bmp128
                                boot
    = Ret w'
    /\ trace w' = trace boot ++ evs
    /\ lit_rows evs
       = [-64; -59; -54; -49; -44; -39; -34; -29; -24; -19; -14; -9; -4; -3;
          -2; -1; 0; 0].
Proof.
  exact (scroll_up_frames 64 0 0 0 (-5) false false 0 (-64) 0 bmp128 boot
           ltac:(lia) ltac:(unfold int16_range; lia) ltac:(lia)
           ltac:(cbn; lia) ltac:(vm_compute; lia)).
Defined.

(** X9.  When the end lies ahead of the first frame, no lit frame of a
    completed scroll lies behind the one before it or more than
    [|scrollstep|] rows ahead of it, the final frame included. *)
Theorem scroll_moves_bounded fuel initialdelay enddelay scrolldelay
    scrollstep snaptoend allowoverflow offset_x offset_y end_y bmp w w' :
  (0 < scrollstep <= 2 ^ 31 - 2 ^ 17 ->
   int16_range offset_y -> int16_range end_y -> end_y <= 32703 ->
   0 <= height bmp <= 32767 ->
   64 - offset_y <= resolve_end_y scrollstep end_y allowoverflow bmp ->
   drawVerticalScrollingBitmap fuel initialdelay enddelay scrolldelay
     scrollstep snaptoend allowoverflow offset_x offset_y end_y bmp w
   = Ret w' ->
   exists evs,
     trace w' = trace w ++ evs
     /\ Forall (fun m => 0 <= m <= scrollstep) (moves (lit_rows evs)))
  /\ (- (2 ^ 31 - 2 ^ 17) <= scrollstep < 0 ->
      int16_range offset_y -> -32767 <= end_y <= 32767 ->
      0 <= height bmp <= 32767 ->
      offset_y <= - resolve_end_y scrollstep end_y allowoverflow bmp ->
      drawVerticalScrollingBitmap fuel initialdelay enddelay scrolldelay
        scrollstep snaptoend allowoverflow offset_x offset_y end_y bmp w
      = Ret w' ->
      exists evs,
        trace w' = trace w ++ evs
        /\ Forall (fun m => scrollstep <= m <= 0) (moves (lit_rows evs))).
Proof.
  split.
  - intros Hs Ho He Hm Hh Hahead Hrun.
    destruct (down_frames _ _ _ _ _ _ _ _ _ _ _ _ _ Hs Ho He Hm Hh Hrun)
      as (evs & T & R).
    exists evs. split; [exact T|]. rewrite R.
    set (endY := resolve_end_y scrollstep end_y allowoverflow bmp) in *.
    replace (64 - endY) with (offset_y - (endY - 64 + offset_y)) by lia.
    apply (down_rows_moves scrollstep snaptoend
             (Z.to_nat (endY - 64 + offset_y))); lia.
  - intros Hs Ho He Hh Hahead Hrun.
    destruct (up_frames _ _ _ _ _ _ _ _ _ _ _ _ _ Hs Ho He Hh Hrun)
      as (evs & T & R).
    exists evs. split; [exact T|]. rewrite R.
    set (endY := resolve_end_y scrollstep end_y allowoverflow bmp) in *.
    replace (- endY) with (offset_y + (- endY - offset_y)) at 2 by lia.
    apply (up_rows_moves scrollstep snaptoend
             (Z.to_nat (- endY - offset_y))); lia.
Qed.

Lemma scroll_moves_bounded_witness :
  (exists w' evs,
      drawVerticalScrollingBitmap 64 0 0 0 5 false false 0 0 0 bmp128 boot
      = Ret w'
      /\ trace w' = trace boot ++ evs
      /\ Forall (fun m => 0 <= m <= 5) (moves (lit_rows evs)))
  /\ (exists w' evs,
        drawVerticalScrollingBitmap 64 0 0 0 (-5) true false 0 (-64) 0
                                    bmp128 boot = Ret w'
        /\ trace w' = trace boot ++ evs
        /\ Forall (fun m => -5 <= m <= 0) (moves (lit_rows evs))).
Proof.
  split.
  - eexists.
    destruct (proj1 (scroll_moves_bounded 64 0 0 0 5 false false 0 0 0 bmp128
                       boot _)
                ltac:(lia) ltac:(unfold int16_range; lia)
                ltac:(unfold int16_range; lia) ltac:(lia) ltac:(cbn; lia)
                ltac:(vm_compute; discriminate)
                ltac:(vm_compute; reflexivity)) as (evs & T & M).
    exists evs. split; [vm_compute; reflexivity|]. split; [exact T|exact M].
  - eexists.
    destruct (proj2 (scroll_moves_bounded 64 0 0 0 (-5) true false 0 (-64) 0
                       bmp128 boot _)
                ltac:(lia) ltac:(unfold int16_range; lia) ltac:(lia)
                ltac:(cbn; lia) ltac:(vm_compute; discriminate)
                ltac:(vm_compute; reflexivity)) as (evs & T & M).
    exists evs. split; [vm_compute; reflexivity|]. split; [exact T|exact M].
Defined.

Lemma erases_in_place_app last a b :
  erases_in_place last a = true ->
  (forall l, erases_in_place l b = true) ->
  erases_in_place last (a ++ b) = true.
Proof.
  intros Ha Hb. revert last Ha.
  induction a as [|e a IH]; intros last Ha; [apply Hb|].
  destruct e; cbn [app erases_in_place] in *; auto.
  destruct (color =? 0); auto.
  apply andb_prop in Ha as [Hxy Ha]. rewrite Hxy. cbn [andb]. auto.
Qed.

Section ErasesInPlace.

Variables (scrolldelay scrollstep : Z) (snaptoend : bool).
Variables (offset_x offset_y end_y : Z) (bmp : Image).

Lemma scroll_down_erases fuel : forall h w w',
  scroll_down scrolldelay scrollstep snaptoend offset_x offset_y end_y bmp
              fuel h w = Ret w' ->
  exists evs,
    trace w' = trace w ++ evs
    /\ erases_in_place (to_int16 offset_x,
                        to_int16 (to_int (to_int (- h) + offset_y))) evs
       = true.
Proof.
  induction fuel as [|fuel IH]; intros h w w' H.
  - cbn [scroll_down] in H.
    destruct (_ <? end_y); [discriminate|].
    injection H as <-. exists []. now rewrite app_nil_r.
  - cbn [scroll_down] in H.
    destruct (_ <? end_y) eqn:E.
    2:{ injection H as <-. exists []. now rewrite app_nil_r. }
    destruct (_ <? end_y) eqn:E1 in H.
    + apply IH in H as (evs & T & R).
      rewrite trace_scroll_frame in T. cbn [drawBitmap log trace] in T.
      eexists. split; [rewrite T, <- !app_assoc; reflexivity|].
      cbn [app erases_in_place OFF ON Z.eqb fst snd].
      now rewrite !Z.eqb_refl.
    + cbn [andb] in H.
      destruct snaptoend; cbn [negb] in H.
      * injection H as <-. cbn [drawBitmap log trace].
        eexists. split; [reflexivity|].
        cbn [erases_in_place OFF Z.eqb fst snd].
        now rewrite !Z.eqb_refl.
      * apply IH in H as (evs & T & R).
        rewrite trace_scroll_frame in T. cbn [drawBitmap log trace] in T.
        eexists. split; [rewrite T, <- !app_assoc; reflexivity|].
        cbn [app erases_in_place OFF ON Z.eqb fst snd].
        now rewrite !Z.eqb_refl.
Qed.

Lemma scroll_up_erases fuel : forall h w w',
  scroll_up scrolldelay scrollstep snaptoend offset_x end_y bmp fuel h w
  = Ret w' ->
  exists evs,
    trace w' = trace w ++ evs
    /\ erases_in_place (to_int16 offset_x, to_int16 h) evs = true.
Proof.
  induction fuel as [|fuel IH]; intros h w w' H.
  - cbn [scroll_up] in H.
    destruct (h <? _); [discriminate|].
    injection H as <-. exists []. now rewrite app_nil_r.
  - cbn [scroll_up] in H.
    destruct (h <? _) eqn:E.
    2:{ injection H as <-. exists []. now rewrite app_nil_r. }
    destruct (_ <=? _) eqn:E1 in H.
    + apply IH in H as (evs & T & R).
      rewrite trace_scroll_frame in T. cbn [drawBitmap log trace] in T.
      eexists. split; [rewrite T, <- !app_assoc; reflexivity|].
      cbn [app erases_in_place OFF ON Z.eqb fst snd].
      now rewrite !Z.eqb_refl.
    + destruct ((h <=? _) && negb snaptoend) eqn:E2 in H.
      * apply IH in H as (evs & T & R).
        rewrite trace_scroll_frame in T. cbn [drawBitmap log trace] in T.
        eexists. split; [rewrite T, <- !app_assoc; reflexivity|].
        cbn [app erases_in_place OFF ON Z.eqb fst snd].
        now rewrite !Z.eqb_refl.
      * injection H as <-. cbn [drawBitmap log trace].
        eexists. split; [reflexivity|].
        cbn [erases_in_place OFF Z.eqb fst snd].
        now rewrite !Z.eqb_refl.
Qed.

End ErasesInPlace.

(** X10.  No ghost image.  In every completed scroll, each dark draw of the
    bitmap is at the column and row of the lit draw before it: the loops
    erase the frame that is on the display and no other place. *)
Theorem scroll_erases_in_place fuel initialdelay enddelay scrolldelay
    scrollstep snaptoend allowoverflow offset_x offset_y end_y bmp w w' :
  drawVerticalScrollingBitmap fuel initialdelay enddelay scrolldelay
    scrollstep snaptoend allowoverflow offset_x offset_y end_y bmp w
  = Ret w' ->
  exists evs,
    trace w' = trace w ++ evs
    /\ forall last, erases_in_place last evs = true.
Proof.
  unfold drawVerticalScrollingBitmap.
  set (endY := resolve_end_y scrollstep end_y allowoverflow bmp).
  assert (Hfinal : forall y d l,
             erases_in_place l
               [DrawBitmap (to_int16 offset_x) y (bitmap bmp)
                           (to_int16 (width bmp)) (to_int16 (height bmp)) ON;
                Display; Delay d] = true) by reflexivity.
  destruct (0 <? scrollstep); [|destruct (scrollstep <? 0)].
  - destruct (scroll_down _ _ _ _ _ _ _ _ _ _) as [wl| |] eqn:El;
      try discriminate.
    cbn [bind]. intros H; injection H as <-.
    apply scroll_down_erases in El as (evs & T & R).
    unfold final_frame, delay, display, drawBitmap, log in *.
    cbn [trace] in *. rewrite T.
    eexists. split; [rewrite <- !app_assoc; reflexivity|].
    intros last. cbn [app erases_in_place ON Z.eqb].
    apply erases_in_place_app; [|intros l; apply Hfinal].
    change (to_int (- 0)) with 0 in R. cbn [Z.add] in R.
    now rewrite to_int16_to_int in R.
  - destruct (scroll_up _ _ _ _ _ _ _ _ _) as [wl| |] eqn:El;
      try discriminate.
    cbn [bind]. intros H; injection H as <-.
    apply scroll_up_erases in El as (evs & T & R).
    unfold final_frame, delay, display, drawBitmap, log in *.
    cbn [trace] in *. rewrite T.
    eexists. split; [rewrite <- !app_assoc; reflexivity|].
    intros last. cbn [app erases_in_place ON Z.eqb].
    apply erases_in_place_app; [exact R|intros l; apply Hfinal].
  - intros H; injection H as <-.
    unfold delay, display, drawBitmap, log. cbn [trace].
    eexists. split; [rewrite <- !app_assoc; reflexivity|].
    reflexivity.
Qed.

Lemma scroll_erases_in_place_witness :
  exists w' evs,
    drawVerticalScrollingBitmap 64 0 0 0 5 true false 0 0 0 bmp128 boot
    = Ret w'
    /\ trace w' = trace boot ++ evs
    /\ erases_in_place (0, 0) evs = true.
Proof.
  eexists.
  destruct (scroll_erases_in_place 64 0 0 0 5 true false 0 0 0 bmp128 boot _
              ltac:(vm_compute; reflexivity)) as (evs & T & R).
  exists evs. split; [vm_compute; reflexivity|]. split; [exact T|apply R].
Defined.

(** X11.  With [scrollstep = 0] neither branch runs: the call draws the first
    frame, presents it, waits the initial delay and returns; there is no
    final frame and the end delay is never waited. *)
Theorem scroll_step_zero_draws_once fuel initialdelay enddelay scrolldelay
    snaptoend allowoverflow offset_x offset_y end_y bmp w :
  exists w',
    drawVerticalScrollingBitmap fuel initialdelay enddelay scrolldelay 0
      snaptoend allowoverflow offset_x offset_y end_y bmp w = Ret w'
    /\ trace w'
       = trace w ++ [DrawBitmap (to_int16 offset_x) (to_int16 offset_y)
                                (bitmap bmp) (to_int16 (width bmp))
                                (to_int16 (height bmp)) ON;
                     Display; Delay (norm 500 initialdelay)]
    /\ clock w' = clock w + norm 500 initialdelay.
Proof.
  eexists. split; [reflexivity|].
  unfold delay, display, drawBitmap, log. cbn [trace clock].
  split; [now rewrite <- !app_assoc | reflexivity].
Qed.

(** ** Where a dialog leaves the cursor *)

Lemma on_grid_fold gs l : forall p,
  keeps_grid gs -> on_grid p -> on_grid (fold_left gs l p).
Proof. induction l as [|c l IH]; intros p Hk Hp; cbn; auto. Qed.

Lemma unmarked_cons c l :
  unmarked (c :: l)
  = if Ascii.eqb c marker then unmarked l else c :: unmarked l.
Proof. unfold unmarked. cbn. now destruct (Ascii.eqb c marker). Qed.

Section CursorTrack.

Variable gs : Z * Z -> ascii -> Z * Z.
Hypothesis Hgs : keeps_grid gs.

Lemma cursor_write_char c w : cursor (write_char gs c w) = gs (cursor w) c.
Proof.
  unfold write_char, cursor. cbn [log cursor_x cursor_y].
  now destruct (gs _ _).
Qed.

Lemma cursor_write_str s w :
  cursor (write_str gs s w) = fold_left gs (list_ascii_of_string s) (cursor w).
Proof.
  unfold write_str, cursor. cbn [log cursor_x cursor_y].
  now destruct (fold_left _ _ _).
Qed.

Lemma color_write_str s w : text_color (write_str gs s w) = text_color w.
Proof. unfold write_str. now destruct (fold_left _ _ _). Qed.

(** An invocation of a serial wait gives the cursor back. *)
Lemma call_keeps_cursor g body s s' :
  (forall sch w sch' w',
      body (sch, w) = Ret (sch', w') ->
      cursor_x w' = to_int16 (cursor_x w)
      /\ cursor_y w' = to_int16 (cursor_y w) /\ text_color w' = 1) ->
  call g body s = Ret s' ->
  on_grid (cursor (snd s)) ->
  cursor (snd s') = cursor (snd s) /\ text_color (snd s') = 1.
Proof.
  intros Hb. destruct s as [sch w]. unfold call.
  destruct (body _) as [[sch1 w1]| |] eqn:E; cbn [bind]; try discriminate.
  intros H [Hx Hy]; injection H as <-. cbn [snd cursor fst] in *.
  apply Hb in E as (Ex & Ey & Ec). cbn in Ex, Ey.
  unfold cursor. cbn. rewrite Ex, Ey, !to_int16_small by assumption. auto.
Qed.

Section Loops.

Variables (textspeed chardelay : Z) (dialog : string).
Variable mid : st -> result st.
Hypothesis Hts : 1 <= textspeed <= 255.
Hypothesis Hlen : Z.of_nat (String.length dialog) < 2 ^ 31 - 256.
Hypothesis Hmid : forall s s',
  mid s = Ret s' -> on_grid (cursor (snd s)) ->
  cursor (snd s') = cursor (snd s).

Lemma reveal_char_cursor i x s s' :
  0 <= i -> 0 <= x -> i + x < strlen dialog ->
  on_grid (cursor (snd s)) ->
  reveal_char gs chardelay dialog mid i x s = Ret s' ->
  cursor (snd s')
  = fold_left gs
      (unmarked [nth (Z.to_nat (i + x)) (list_ascii_of_string dialog) zero])
      (cursor (snd s)).
Proof.
  intros Hi Hx Hin Hg. destruct s as [sch w]. unfold reveal_char.
  pose proof (size_chars dialog Hlen) as [Hsz Hbound].
  rewrite to_int_small by (unfold int_range; lia).
  rewrite char_at_nth by lia. rewrite unmarked_cons.
  destruct (Ascii.eqb _ marker) eqn:E; intros H.
  - apply Hmid in H; [|exact Hg]. exact H.
  - injection H as <-. cbn [snd]. now rewrite cursor_write_char.
Qed.

Lemma reveal_chunk_cursor n : forall i x s s',
  0 <= i -> 0 <= x -> i + x + Z.of_nat n <= strlen dialog ->
  on_grid (cursor (snd s)) ->
  reveal_chunk gs chardelay dialog mid n i x s = Ret s' ->
  cursor (snd s')
  = fold_left gs
      (unmarked (firstn n (skipn (Z.to_nat (i + x))
                                 (list_ascii_of_string dialog))))
      (cursor (snd s)).
Proof.
  pose proof (size_chars dialog Hlen) as [Hsz Hbound].
  induction n as [|n IH]; intros i x s s' Hi Hx Hin Hg H.
  - now injection H as <-.
  - cbn [reveal_chunk] in H.
    destruct (reveal_char gs chardelay dialog mid i x s) as [s1| |] eqn:E1;
      try discriminate.
    cbn [bind] in H.
    apply reveal_char_cursor in E1; try lia; auto.
    rewrite to_int_small in H by (unfold int_range; lia).
    apply IH in H; try lia.
    2:{ rewrite E1. now apply on_grid_fold. }
    rewrite H, E1. rewrite (skipn_nth zero (Z.to_nat (i + x))) by lia.
    cbn [firstn].
    replace (S (Z.to_nat (i + x))) with (Z.to_nat (i + (x + 1))) by lia.
    rewrite <- fold_left_app. f_equal.
    change (?c :: ?l) with ([c] ++ l) at 2. now rewrite unmarked_app.
Qed.

Lemma reveal_tail_cursor fuel : forall i s s',
  0 <= i <= strlen dialog ->
  on_grid (cursor (snd s)) ->
  reveal_tail gs chardelay (strlen dialog) dialog mid fuel i s = Ret s' ->
  cursor (snd s')
  = fold_left gs
      (unmarked (skipn (Z.to_nat i) (list_ascii_of_string dialog)))
      (cursor (snd s)).
Proof.
  pose proof (size_chars dialog Hlen) as [Hsz Hbound].
  induction fuel as [|fuel IH]; intros i s s' Hi Hg H.
  - cbn in H. destruct (i <? strlen dialog) eqn:E; [discriminate|].
    injection H as <-. now rewrite skipn_all2 by lia.
  - cbn [reveal_tail] in H. destruct (i <? strlen dialog) eqn:E.
    + destruct s as [sch w]. rewrite char_at_nth in H by lia.
      rewrite (skipn_nth zero) by lia. rewrite unmarked_cons.
      rewrite to_int_small in H by (unfold int_range; lia).
      replace (S (Z.to_nat i)) with (Z.to_nat (i + 1)) by lia.
      destruct (Ascii.eqb _ marker) eqn:Ec.
      * destruct (mid (sch, w)) as [s1| |] eqn:Em; try discriminate.
        cbn [bind] in H. apply Hmid in Em; [|exact Hg].
        apply IH in H; try lia; [|now rewrite Em].
        now rewrite H, Em.
      * cbn [bind] in H. apply IH in H; try lia.
        -- rewrite H. cbn [snd fold_left]. f_equal.
           apply cursor_write_char.
        -- cbn [snd] in *.
           change (cursor (delay chardelay (display (write_char gs _ w))))
             with (cursor (write_char gs
                     (nth (Z.to_nat i) (list_ascii_of_string dialog) zero) w)).
           rewrite cursor_write_char. now apply Hgs.
    + injection H as <-. now rewrite skipn_all2 by lia.
Qed.

Lemma reveal_loops_cursor fuel2 fuel : forall i s s',
  0 <= i <= strlen dialog ->
  on_grid (cursor (snd s)) ->
  ('(i', s1) <- reveal_ticks gs textspeed chardelay (strlen dialog) dialog
                             mid fuel i s ;;
   reveal_tail gs chardelay (strlen dialog) dialog mid fuel2 i' s1)
  = Ret s' ->
  cursor (snd s')
  = fold_left gs
      (unmarked (skipn (Z.to_nat i) (list_ascii_of_string dialog)))
      (cursor (snd s)).
Proof.
  pose proof (size_chars dialog Hlen) as [Hsz Hbound].
  induction fuel as [|fuel IH]; intros i s s' Hi Hg H.
  - cbn [reveal_ticks] in H.
    destruct (to_int (i + textspeed) <? strlen dialog) eqn:E;
      [discriminate|].
    cbn [bind] in H. now apply reveal_tail_cursor in H.
  - cbn [reveal_ticks] in H.
    destruct (to_int (i + textspeed) <? strlen dialog) eqn:E;
      [|cbn [bind] in H; now apply reveal_tail_cursor in H].
    rewrite to_int_small in E, H by (unfold int_range; lia).
    destruct (reveal_chunk gs chardelay dialog mid (Z.to_nat textspeed) i 0 s)
      as [[sch1 w1]| |] eqn:Ec; try discriminate.
    cbn [bind] in H.
    apply reveal_chunk_cursor in Ec; try lia; auto.
    rewrite Z.add_0_r in Ec. cbn [snd] in Ec.
    apply IH in H; try lia.
    2:{ cbn [snd].
        change (cursor (delay chardelay (display w1))) with (cursor w1).
        rewrite Ec. now apply on_grid_fold. }
    rewrite H. cbn [snd].
    change (cursor (delay chardelay (display w1))) with (cursor w1).
    rewrite Ec, <- fold_left_app, <- unmarked_app. do 2 f_equal.
    rewrite <- (firstn_skipn (Z.to_nat textspeed)
                  (skipn (Z.to_nat i) (list_ascii_of_string dialog))) at 2.
    f_equal. rewrite skipn_skipn. f_equal. lia.
Qed.

End Loops.

End CursorTrack.

Lemma on_grid_origin : on_grid (0, 16).
Proof. unfold on_grid, int16_range; cbn; lia. Qed.

Lemma serial_gate_keeps_cursor gs timer timed s s' :
  (if timed : bool then call CtcTimedSerial (ctcTimedSerial gs timer)
   else call CtcSerial (ctcSerial gs)) s = Ret s' ->
  on_grid (cursor (snd s)) ->
  cursor (snd s') = cursor (snd s) /\ text_color (snd s') = 1.
Proof.
  destruct timed; apply call_keeps_cursor.
  - intros sch w sch' w'. apply ctcTimedSerial_exit.
  - intros sch w sch' w'. apply ctcSerial_exit.
Qed.

(** The cursor where the body of a dialog ends. *)
Lemma reveal_cursor gs fuel textspeed chardelay headerdelay onebyone
    headertext dialog mid sch w s' :
  keeps_grid gs ->
  1 <= textspeed <= 255 ->
  Z.of_nat (String.length dialog) < 2 ^ 31 - 256 ->
  (forall s s', mid s = Ret s' -> on_grid (cursor (snd s)) ->
                cursor (snd s') = cursor (snd s)) ->
  reveal gs fuel textspeed chardelay headerdelay onebyone headertext dialog
         mid (sch, w) = Ret s' ->
  cursor (snd s')
  = fold_left gs
      (if onebyone =? 0 then list_ascii_of_string dialog
       else unmarked (list_ascii_of_string dialog))
      (0, 16).
Proof.
  intros Hgs Hts Hlen Hmid. unfold reveal.
  destruct (onebyone =? 0); cbn [negb].
  - intros H; injection H as <-. cbn [snd].
    change (cursor (delay 1 (display ?w0))) with (cursor w0).
    now rewrite cursor_write_str.
  - intros H.
    apply (reveal_loops_cursor gs Hgs textspeed chardelay dialog mid Hts Hlen
             Hmid) in H.
    + exact H.
    + pose proof (size_chars dialog Hlen). lia.
    + exact on_grid_origin.
Qed.

Lemma keeps_grid_int16_step : keeps_grid int16_step.
Proof.
  intros [x y] c [Hx Hy]. split; cbn [int16_step fst snd] in *.
  - apply to_int16_range.
  - exact Hy.
Qed.

Lemma dialog_cursor_after gs fuel textspeed chardelay headerdelay onebyone
    headertext dialog mid (last : st -> result st) sch w s' :
  keeps_grid gs -> uint8_range textspeed ->
  Z.of_nat (String.length dialog) < 2 ^ 31 - 256 ->
  (forall s s', mid s = Ret s' -> on_grid (cursor (snd s)) ->
                cursor (snd s') = cursor (snd s)) ->
  (forall s s', last s = Ret s' -> on_grid (cursor (snd s)) ->
                cursor (snd s') = cursor (snd s) /\ text_color (snd s') = 1) ->
  (s <- reveal gs fuel (if textspeed <=? 0 then 1 else textspeed) chardelay
               headerdelay onebyone headertext dialog mid (sch, w) ;;
   last s) = Ret s' ->
  cursor (snd s')
  = fold_left gs
      (if onebyone =? 0 then list_ascii_of_string dialog
       else unmarked (list_ascii_of_string dialog))
      (0, 16)
  /\ text_color (snd s') = 1.
Proof.
  intros Hgs Hts Hlen Hmid Hlast H.
  destruct (reveal _ _ _ _ _ _ _ _ _ _) as [s1| |] eqn:E; try discriminate.
  cbn [bind] in H.
  apply reveal_cursor in E; auto.
  - apply Hlast in H.
    + now rewrite <- E.
    + rewrite E. apply on_grid_fold; [assumption | exact on_grid_origin].
  - unfold uint8_range in Hts. destruct (textspeed <=? 0) eqn:E0; lia.
Qed.

(** X12.  Where a completed dialog leaves the text cursor and colour.  The
    cursor ends where the glyphs of the body carry it from [(0, 16)]: the
    whole body in instant mode, the body without its markers in one-by-one
    mode; no wait moves it.  The colour ends as 1. *)
Theorem dialog_final_cursor gs :
  keeps_grid gs ->
  (forall fuel textspeed chardelay headerdelay onebyone headertext dialog
          sch w s',
      uint8_range textspeed ->
      Z.of_nat (String.length dialog) < 2 ^ 31 - 256 ->
      drawDialogText gs fuel textspeed chardelay headerdelay onebyone
                     headertext dialog (sch, w) = Ret s' ->
      cursor (snd s')
      = fold_left gs
          (if onebyone =? 0 then list_ascii_of_string dialog
           else unmarked (list_ascii_of_string dialog))
          (0, 16)
      /\ text_color (snd s') = 1)
  /\ (forall fuel textspeed chardelay headerdelay timer timedinput timedend
             onebyone headertext dialog sch w s',
        uint8_range textspeed ->
        Z.of_nat (String.length dialog) < 2 ^ 31 - 256 ->
        drawTimedDialogText gs fuel textspeed chardelay headerdelay timer
          timedinput timedend onebyone headertext dialog (sch, w) = Ret s' ->
        cursor (snd s')
        = fold_left gs
            (if onebyone =? 0 then list_ascii_of_string dialog
             else unmarked (list_ascii_of_string dialog))
            (0, 16)
        /\ text_color (snd s') = 1).
Proof.
  intros Hgs. split.
  - intros fuel textspeed chardelay headerdelay onebyone headertext dialog
           sch w s' Hts Hlen H.
    unfold drawDialogText in H.
    eapply dialog_cursor_after in H; eauto.
    + intros s0 s1 Hc Hg.
      now apply (serial_gate_keeps_cursor gs 0 false) in Hc.
    + intros s0 s1 Hc Hg.
      now apply (serial_gate_keeps_cursor gs 0 false) in Hc.
  - intros fuel textspeed chardelay headerdelay timer timedinput timedend
           onebyone headertext dialog sch w s' Hts Hlen H.
    unfold drawTimedDialogText in H.
    eapply dialog_cursor_after in H; eauto.
    + intros s0 s1 Hc Hg.
      now apply (serial_gate_keeps_cursor gs (norm 10000 timer)
                   (negb (timedinput =? 0))) in Hc.
    + intros s0 s1 Hc Hg.
      destruct (negb (timedend =? 0)).
      * now apply (serial_gate_keeps_cursor gs (norm 10000 timer) true)
          in Hc.
      * now apply (serial_gate_keeps_cursor gs 0 false) in Hc.
Qed.

Lemma dialog_final_cursor_witness :
  (exists w',
      drawDialogText int16_step 11 1 0 0 1 "Hi" "Hello`World"
                     (press ++ press, boot) = Ret ([], w')
      /\ cursor w' = (60, 16) /\ text_color w' = 1)
  /\ (exists w',
        drawTimedDialogText int16_step 11 1 0 0 3 1 0 0 "Hi" "Hello`World"
                            (press, boot) = Ret ([], w')
        /\ cursor w' = (66, 16) /\ text_color w' = 1).
Proof.
  split.
  - eexists. split; [vm_compute; reflexivity|].
    apply (proj1 (dialog_final_cursor int16_step keeps_grid_int16_step)
                 11%nat 1 0 0 1 "Hi"%string "Hello`World"%string
                 (press ++ press) boot ([], _)
                 ltac:(unfold uint8_range; lia) ltac:(cbn; lia)).
    vm_compute; reflexivity.
  - eexists. split; [vm_compute; reflexivity|].
    apply (proj2 (dialog_final_cursor int16_step keeps_grid_int16_step)
                 11%nat 1 0 0 3 1 0 0 "Hi"%string "Hello`World"%string
                 press boot ([], _)
                 ltac:(unfold uint8_range; lia) ltac:(cbn; lia)).
    vm_compute; reflexivity.
Defined.

(** X13.  Instant mode in full.  With [onebyone = 0] a completed dialog is the
    header, the body written by one [write()] call, [display()], a wait of
    1 ms and one closing wait; no loop runs, so the call needs no loop turns
    at all. *)
Theorem instant_dialog_shape gs :
  (forall fuel textspeed chardelay headerdelay headertext dialog sch w sch'
          w',
      drawDialogText gs fuel textspeed chardelay headerdelay 0 headertext
                     dialog (sch, w) = Ret (sch', w') ->
      exists inner,
        trace w'
        = trace w ++ header_events headertext (norm 200 headerdelay)
          ++ [WriteStr dialog; Display; Delay 1; Call CtcSerial inner])
  /\ (forall fuel textspeed chardelay headerdelay timer timedinput timedend
             headertext dialog sch w sch' w',
        drawTimedDialogText gs fuel textspeed chardelay headerdelay timer
          timedinput timedend 0 headertext dialog (sch, w)
        = Ret (sch', w') ->
        exists inner,
          trace w'
          = trace w ++ header_events headertext (norm 200 headerdelay)
            ++ [WriteStr dialog; Display; Delay 1;
                Call (if timedend =? 0 then CtcSerial else CtcTimedSerial)
                     inner]).
Proof.
  split.
  - intros fuel textspeed chardelay headerdelay headertext dialog sch w sch'
           w' H.
    unfold drawDialogText, reveal in H. cbn [Z.eqb negb bind] in H.
    apply call_shape in H as [inner H]. cbn [snd] in H.
    exists inner. rewrite H.
    cbn [delay display log trace]. rewrite trace_write_str, trace_header.
    now rewrite <- !app_assoc.
  - intros fuel textspeed chardelay headerdelay timer timedinput timedend
           headertext dialog sch w sch' w' H.
    unfold drawTimedDialogText, reveal in H. cbn [Z.eqb negb bind] in H.
    destruct (timedend =? 0); cbn [negb] in H;
      apply call_shape in H as [inner H]; cbn [snd] in H;
      exists inner; rewrite H;
      cbn [delay display log trace]; rewrite trace_write_str, trace_header;
      now rewrite <- !app_assoc.
Qed.

Lemma instant_dialog_shape_witness :
  (exists w' inner,
      drawDialogText classic_step 0 1 0 0 0 "Hi" "Hello`World" (press, boot)
      = Ret ([], w')
      /\ trace w'
         = [SetCursor 0 0; WriteStr "Hi"; Display; Delay 0; SetCursor 0 16;
            WriteStr "Hello`World"; Display; Delay 1; Call CtcSerial inner])
  /\ (exists w' inner,
        drawTimedDialogText classic_step 0 1 0 0 3 0 1 0 "Hi" "Hello`World"
                            (repeat quiet 8, boot) = Ret ([], w')
        /\ trace w'
           = [SetCursor 0 0; WriteStr "Hi"; Display; Delay 0; SetCursor 0 16;
              WriteStr "Hello`World"; Display; Delay 1;
              Call CtcTimedSerial inner]).
Proof.
  split.
  - eexists.
    destruct (proj1 (instant_dialog_shape classic_step) 0%nat 1 0 0
                    "Hi"%string "Hello`World"%string press boot [] _
                    ltac:(vm_compute; reflexivity)) as [inner T].
    exists inner. split; [vm_compute; reflexivity | exact T].
  - eexists.
    destruct (proj2 (instant_dialog_shape classic_step) 0%nat 1 0 0 3 0 1
                    "Hi"%string "Hello`World"%string (repeat quiet 8) boot []
                    _ ltac:(vm_compute; reflexivity)) as [inner T].
    exists inner. split; [vm_compute; reflexivity | exact T].
Defined.

(** X14.  With both timed flags off, [drawTimedDialogText] is [drawDialogText]:
    the same result on every state and schedule, whatever the timer. *)
Theorem timed_dialog_flags_off gs fuel textspeed chardelay headerdelay timer
    onebyone headertext dialog s :
  drawTimedDialogText gs fuel textspeed chardelay headerdelay timer 0 0
                      onebyone headertext dialog s
  = drawDialogText gs fuel textspeed chardelay headerdelay onebyone
                   headertext dialog s.
Proof. reflexivity. Qed.

(** ** Which wait a dialog starts *)

Lemma same_gate_refl g : same_gate g g = true.
Proof. now destruct g. Qed.

Lemma call_emits g body sch w s' :
  call g body (sch, w) = Ret s' -> emits (waits_are g) w (snd s').
Proof.
  intros H. apply call_shape in H as [inner H]. cbn [snd] in H.
  exists [Call g inner]. split; [exact H|].
  cbn. now rewrite same_gate_refl.
Qed.

Section RevealEmits.

Variable gs : Z * Z -> ascii -> Z * Z.
Variable g : gate.
Variables (textspeed chardelay size : Z) (dialog : string).
Variable mid : st -> result st.
Hypothesis Hmid : forall sch w s',
  mid (sch, w) = Ret s' -> emits (waits_are g) w (snd s').

Lemma write_char_emits c w : emits (waits_are g) w (write_char gs c w).
Proof.
  exists [WriteChar c]. split; [apply trace_write_char | reflexivity].
Qed.

Lemma present_emits d w : emits (waits_are g) w (delay d (display w)).
Proof. exists [Display; Delay d]. cbn. now rewrite <- app_assoc. Qed.

Lemma reveal_char_emits i x sch w s' :
  reveal_char gs chardelay dialog mid i x (sch, w) = Ret s' ->
  emits (waits_are g) w (snd s').
Proof.
  unfold reveal_char. destruct (Ascii.eqb _ marker); intros H.
  - apply Hmid in H.
    exact (emits_trans _ _ _ _ (present_emits chardelay w) H).
  - injection H as <-. apply write_char_emits.
Qed.

Lemma reveal_chunk_emits n : forall i x sch w s',
  reveal_chunk gs chardelay dialog mid n i x (sch, w) = Ret s' ->
  emits (waits_are g) w (snd s').
Proof.
  induction n as [|n IH]; intros i x sch w s' H.
  - injection H as <-. apply emits_refl.
  - cbn [reveal_chunk] in H.
    destruct (reveal_char _ _ _ _ _ _ _) as [[sch1 w1]| |] eqn:E1;
      try discriminate.
    cbn [bind] in H.
    apply reveal_char_emits in E1. apply IH in H.
    exact (emits_trans _ _ _ _ E1 H).
Qed.

Lemma reveal_ticks_emits fuel : forall i sch w i' s',
  reveal_ticks gs textspeed chardelay size dialog mid fuel i (sch, w)
  = Ret (i', s') ->
  emits (waits_are g) w (snd s').
Proof.
  induction fuel as [|fuel IH]; intros i sch w i' s' H.
  - cbn [reveal_ticks] in H. destruct (_ <? size); [discriminate|].
    injection H as <- <-. apply emits_refl.
  - cbn [reveal_ticks] in H. destruct (_ <? size).
    + destruct (reveal_chunk _ _ _ _ _ _ _ _) as [[sch1 w1]| |] eqn:Ec;
        try discriminate.
      cbn [bind] in H.
      apply reveal_chunk_emits in Ec. apply IH in H.
      exact (emits_trans _ _ _ _ Ec
               (emits_trans _ _ _ _ (present_emits chardelay w1) H)).
    + injection H as <- <-. apply emits_refl.
Qed.

Lemma reveal_tail_emits fuel : forall i sch w s',
  reveal_tail gs chardelay size dialog mid fuel i (sch, w) = Ret s' ->
  emits (waits_are g) w (snd s').
Proof.
  induction fuel as [|fuel IH]; intros i sch w s' H.
  - cbn [reveal_tail] in H. destruct (i <? size); [discriminate|].
    injection H as <-. apply emits_refl.
  - cbn [reveal_tail] in H. destruct (i <? size).
    + destruct (Ascii.eqb _ marker).
      * destruct (mid (sch, w)) as [[sch1 w1]| |] eqn:Em; try discriminate.
        cbn [bind] in H. apply Hmid in Em. apply IH in H.
        exact (emits_trans _ _ _ _ Em H).
      * cbn [bind] in H. apply IH in H.
        exact (emits_trans _ _ _ _
                 (emits_trans _ _ _ _ (write_char_emits _ w)
                    (present_emits chardelay _)) H).
    + injection H as <-. apply emits_refl.
Qed.

End RevealEmits.

Lemma reveal_emits gs g fuel textspeed chardelay headerdelay onebyone
    headertext dialog mid sch w s' :
  (forall sch w s', mid (sch, w) = Ret s' -> emits (waits_are g) w (snd s')) ->
  reveal gs fuel textspeed chardelay headerdelay onebyone headertext dialog
         mid (sch, w) = Ret s' ->
  emits (waits_are g) w (snd s').
Proof.
  intros Hmid. unfold reveal.
  assert (Hhead : emits (waits_are g) w
            (setCursor 0 16
               (delay headerdelay
                  (display (write_str gs headertext (setCursor 0 0 w)))))).
  { eexists. split; [apply trace_header | reflexivity]. }
  destruct (negb (onebyone =? 0)).
  - destruct (reveal_ticks _ _ _ _ _ _ _ _ _) as [[i1 [sch1 w1]]| |] eqn:Et;
      try discriminate.
    cbn [bind]. intros H.
    apply (reveal_ticks_emits gs g _ _ _ _ mid Hmid) in Et.
    apply (reveal_tail_emits gs g _ _ _ mid Hmid) in H.
    exact (emits_trans _ _ _ _ Hhead (emits_trans _ _ _ _ Et H)).
  - intros H; injection H as <-. cbn [snd].
    refine (emits_trans _ _ _ _ Hhead _).
    exists [WriteStr dialog; Display; Delay 1]. split; [|reflexivity].
    cbn [delay display log trace]. rewrite trace_write_str.
    now rewrite <- !app_assoc.
Qed.

(** X15.  Which wait a dialog starts.  In a completed [drawDialogText] every
    wait is [ctcSerial].  In a completed [drawTimedDialogText] the waits at
    the markers are all [ctcTimedSerial] when [timedinput] is set and all
    [ctcSerial] when it is not, and the closing wait is [ctcTimedSerial]
    exactly when [timedend] is set. *)
Theorem dialog_wait_kinds gs :
  (forall fuel textspeed chardelay headerdelay onebyone headertext dialog
          sch w sch' w',
      drawDialogText gs fuel textspeed chardelay headerdelay onebyone
                     headertext dialog (sch, w) = Ret (sch', w') ->
      exists evs, trace w' = trace w ++ evs
                  /\ forallb (waits_are CtcSerial) evs = true)
  /\ (forall fuel textspeed chardelay headerdelay timer timedinput timedend
             onebyone headertext dialog sch w sch' w',
        drawTimedDialogText gs fuel textspeed chardelay headerdelay timer
          timedinput timedend onebyone headertext dialog (sch, w)
        = Ret (sch', w') ->
        exists evs inner,
          trace w'
          = trace w ++ evs
            ++ [Call (if timedend =? 0 then CtcSerial else CtcTimedSerial)
                     inner]
          /\ forallb (waits_are (if timedinput =? 0 then CtcSerial
                                 else CtcTimedSerial)) evs = true).
Proof.
  split.
  - intros fuel textspeed chardelay headerdelay onebyone headertext dialog
           sch w sch' w' H.
    unfold drawDialogText in H.
    destruct (reveal _ _ _ _ _ _ _ _ _ _) as [[sch1 w1]| |] eqn:E;
      try discriminate.
    cbn [bind] in H.
    apply (reveal_emits gs CtcSerial) in E;
      [|intros ? ? ?; apply call_emits].
    apply call_emits in H. cbn [snd] in *.
    exact (emits_trans _ _ _ _ E H).
  - intros fuel textspeed chardelay headerdelay timer timedinput timedend
           onebyone headertext dialog sch w sch' w' H.
    unfold drawTimedDialogText in H.
    destruct (reveal _ _ _ _ _ _ _ _ _ _) as [[sch1 w1]| |] eqn:E;
      try discriminate.
    cbn [bind] in H.
    apply (reveal_emits gs (if timedinput =? 0 then CtcSerial
                            else CtcTimedSerial)) in E.
    2:{ intros ? ? ?. destruct (timedinput =? 0); apply call_emits. }
    destruct E as (evs & T & P). cbn [snd] in T.
    exists evs.
    destruct (timedend =? 0); cbn [negb] in H;
      apply call_shape in H as [inner H]; cbn [snd] in H;
      exists inner; (split; [|exact P]);
      now rewrite H, T, <- app_assoc.
Qed.

Lemma dialog_wait_kinds_witness :
  (exists w',
      drawDialogText classic_step 11 1 0 0 1 "Hi" "Hello`World"
                     (press ++ press, boot) = Ret ([], w')
      /\ exists evs, trace w' = trace boot ++ evs
                     /\ forallb (waits_are CtcSerial) evs = true)
  /\ (exists w',
        drawTimedDialogText classic_step 11 1 0 0 3 1 0 1 "Hi" "Hello`World"
                            (repeat quiet 8 ++ press, boot) = Ret ([], w')
        /\ exists evs inner,
             trace w' = trace boot ++ evs ++ [Call CtcSerial inner]
             /\ forallb (waits_are CtcTimedSerial) evs = true).
Proof.
  split.
  - eexists. split; [vm_compute; reflexivity|].
    apply (proj1 (dialog_wait_kinds classic_step) 11%nat 1 0 0 1 "Hi"%string
                 "Hello`World"%string (press ++ press) boot []).
    vm_compute; reflexivity.
  - eexists. split; [vm_compute; reflexivity|].
    apply (proj2 (dialog_wait_kinds classic_step) 11%nat 1 0 0 3 1 0 1
                 "Hi"%string "Hello`World"%string (repeat quiet 8 ++ press)
                 boot []).
    vm_compute; reflexivity.
Defined.

(** ** Fills and fades *)

Lemma strides_done c limit i : 1 <= c -> limit <= i -> strides c limit i = [].
Proof.
  intros Hc Hi; unfold strides.
  replace (Z.to_nat ((limit - i + c - 1) / c)) with O; [reflexivity|].
  assert ((limit - i + c - 1) / c <= 0); [|lia].
  assert ((limit - i + c - 1) / c < 1); [|lia].
  apply Z.div_lt_upper_bound; lia.
Qed.

Lemma strides_next c limit i :
  1 <= c -> i < limit ->
  strides c limit i = i :: strides c limit (i + c).
Proof.
  intros Hc Hi; unfold strides.
  replace (limit - i + c - 1) with ((limit - (i + c) + c - 1) + 1 * c) by lia.
  rewrite Z.div_add by lia.
  assert (0 <= (limit - (i + c) + c - 1) / c)
    by (apply Z.div_pos; lia).
  rewrite Z2Nat.inj_add by lia.
  change (Z.to_nat 1) with 1%nat.
  rewrite Nat.add_comm; cbn [Nat.add seq map].
  f_equal; [cbn; lia|].
  rewrite <- seq_shift, map_map.
  apply map_ext; intros k; lia.
Qed.

Lemma strides_ind (c limit : Z) (P : Z -> Prop) :
  1 <= c ->
  (forall i, limit <= i -> P i) ->
  (forall i, i < limit -> P (i + c) -> P i) ->
  forall i, P i.
Proof.
  intros Hc Hdone Hnext i.
  remember (Z.to_nat (limit - i)) as n eqn:Hn.
  revert i Hn; induction n as [n IH] using lt_wf_ind; intros i Hn.
  destruct (Z_lt_le_dec i limit) as [Hi|Hi]; [|auto].
  apply Hnext; [assumption|].
  apply (IH (Z.to_nat (limit - (i + c)))); [lia|reflexivity].
Qed.

Lemma times_strides c limit i x :
  1 <= c ->
  times (strides c limit i) x
  = if (i <=? x) && (x <? limit) && ((x - i) mod c =? 0) then 1%nat
    else 0%nat.
Proof.
  intros Hc; revert i; apply (strides_ind c limit); [assumption| |].
  - intros i Hi; rewrite strides_done by assumption.
    destruct (i <=? x) eqn:E1, (x <? limit) eqn:E2; try reflexivity; lia.
  - intros i Hi IH; rewrite strides_next by assumption.
    unfold times in *; cbn [count_occ]; rewrite IH; clear IH.
    replace ((x - (i + c)) mod c) with ((x - i) mod c)
      by (replace (x - i) with (x - (i + c) + 1 * c) by lia;
          now rewrite Z.mod_add by lia).
    destruct (Z.eq_dec i x) as [->|Hne].
    + rewrite Z.sub_diag, Z.mod_0_l by lia.
      replace (x + c <=? x) with false by lia.
      replace (x <=? x) with true by lia.
      replace (x <? limit) with true by lia.
      reflexivity.
    + destruct ((x - i) mod c =? 0) eqn:Em;
        [|now rewrite !andb_false_r].
      rewrite !andb_true_r.
      destruct (x <? limit); [|now rewrite !andb_false_r].
      rewrite !andb_true_r.
      apply Z.eqb_eq in Em.
      pose proof (Z.div_mod (x - i) c ltac:(lia)) as Hd.
      rewrite Em in Hd.
      destruct (i <=? x) eqn:E1, (i + c <=? x) eqn:E2; try reflexivity.
      * exfalso. apply Z.leb_le in E1. apply Z.leb_gt in E2.
        assert ((x - i) / c < 1) by (apply Z.div_lt_upper_bound; lia).
        assert (0 <= (x - i) / c) by (apply Z.div_pos; lia).
        nia.
      * lia.
Qed.

Lemma strides_range c limit i j :
  1 <= c -> In j (strides c limit i) -> i <= j < limit.
Proof.
  intros Hc Hin.
  apply (count_occ_In Z.eq_dec) in Hin.
  pose proof (times_strides c limit i j Hc) as Ht; unfold times in Ht.
  destruct (i <=? j) eqn:E1, (j <? limit) eqn:E2; cbn in Ht; lia.
Qed.

Lemma length_strides_unit n :
  0 <= n -> List.length (strides 1 n 0) = Z.to_nat n.
Proof.
  intros Hn; unfold strides.
  rewrite length_map, length_seq.
  f_equal. rewrite Z.div_1_r; lia.
Qed.

Lemma picks_app f l1 l2 : picks f (l1 ++ l2) = picks f l1 ++ picks f l2.
Proof.
  induction l1 as [|g l1 IH]; [reflexivity|].
  cbn; destruct (f g); cbn; now rewrite IH.
Qed.

Lemma picks_map f g js :
  (forall j, In j js -> f (g j) = Some j) -> picks f (map g js) = js.
Proof.
  induction js as [|j js IH]; intros H; [reflexivity|].
  cbn; rewrite (H j) by (now left).
  f_equal; apply IH; intros; apply H; now right.
Qed.

Lemma picks_none f l :
  (forall g, In g l -> f g = None) -> picks f l = [].
Proof.
  induction l as [|g l IH]; intros H; [reflexivity|].
  cbn; rewrite (H g) by (now left).
  apply IH; intros; apply H; now right.
Qed.

Lemma times_app l1 l2 x : times (l1 ++ l2) x = (times l1 x + times l2 x)%nat.
Proof. apply count_occ_app. Qed.

Lemma waited_app l1 l2 : waited (l1 ++ l2) = waited l1 + waited l2.
Proof.
  induction l1 as [|g l1 IH]; [reflexivity|].
  destruct g as [[]| | | | |]; cbn; lia.
Qed.

Lemma presents_app l1 l2 :
  presents (l1 ++ l2) = (presents l1 + presents l2)%nat.
Proof.
  induction l1 as [|g l1 IH]; [reflexivity|].
  destruct g as [[]| | | | |]; cbn; lia.
Qed.

Lemma bitmaps_app l1 l2 : bitmaps (l1 ++ l2) = bitmaps l1 ++ bitmaps l2.
Proof.
  induction l1 as [|g l1 IH]; [reflexivity|].
  destruct g as [[]| | | | |]; cbn; now rewrite ?IH.
Qed.

Section Fades.
Import Gfx.

(** A counting loop whose turns only append to the drawn list appends the
    turns of its counter values in order, when the counter does not wrap
    and the loop is given as many iterations as the distance to its
    limit. *)
Lemma for_loop_strides conv c limit body (g : Z -> list op) W H :
  1 <= c ->
  (forall j, 0 <= j < limit -> conv (j + c) = j + c) ->
  (forall j s, 0 <= j < limit -> scr_width s = W -> scr_height s = H ->
     body j s = Finished (mkScreen W H (drawn s ++ g j))) ->
  forall fuel i s,
    0 <= i -> scr_width s = W -> scr_height s = H ->
    (Z.to_nat (limit - i) <= fuel)%nat ->
    for_loop fuel conv c limit body i s
    = Finished (mkScreen W H (drawn s ++ flat_map g (strides c limit i))).
Proof.
  intros Hc Hconv Hbody fuel.
  induction fuel as [|fuel IH]; intros i s Hi HW HH Hfuel.
  - cbn [for_loop].
    replace (i <? limit) with false by lia.
    rewrite strides_done by lia; cbn [flat_map].
    rewrite app_nil_r; destruct s; cbn in *; now subst.
  - cbn [for_loop].
    destruct (i <? limit) eqn:E.
    + apply Z.ltb_lt in E.
      rewrite Hbody by (try assumption; lia); cbn [after].
      rewrite Hconv by lia.
      rewrite IH by (try reflexivity; lia); cbn [drawn].
      rewrite (strides_next c limit i) by lia; cbn [flat_map].
      now rewrite <- app_assoc.
    + apply Z.ltb_ge in E.
      rewrite strides_done by lia; cbn [flat_map].
      rewrite app_nil_r; destruct s; cbn in *; now subst.
Qed.

Lemma flat_map_singleton {A B} (g : A -> B) l :
  flat_map (fun j => [g j]) l = map g l.
Proof. induction l; cbn; congruence. Qed.

End Fades.

Ltac bool_cases :=
  repeat match goal with
         | |- context [?a <=? ?b] => destruct (Z.leb_spec a b)
         | |- context [?a <? ?b] => destruct (Z.ltb_spec a b)
         | |- context [?a =? ?b] => destruct (Z.eqb_spec a b)
         end;
  cbn [andb]; try reflexivity;
  try (exfalso; Z.div_mod_to_equations; lia).

Lemma picks_flat_map f (g : Z -> list Gfx.op) js :
  (forall j, In j js -> picks f (g j) = [j]) ->
  picks f (flat_map g js) = js.
Proof.
  induction js as [|j js IH]; intros H; [reflexivity|].
  cbn [flat_map]; rewrite picks_app, (H j) by (now left).
  cbn; f_equal; apply IH; intros; apply H; now right.
Qed.

Lemma picks_flat_map_none {A} f (g : A -> list Gfx.op) js :
  (forall j, picks f (g j) = []) -> picks f (flat_map g js) = [].
Proof.
  intros H; induction js as [|j js IH]; [reflexivity|].
  cbn [flat_map]; now rewrite picks_app, H, IH.
Qed.

Lemma presents_flat_map {A} (g : A -> list Gfx.op) n js :
  (forall j, presents (g j) = n) ->
  presents (flat_map g js) = (n * List.length js)%nat.
Proof.
  intros H; induction js as [|j js IH]; [cbn; lia|].
  cbn [flat_map]; rewrite presents_app, H, IH; cbn [List.length]; lia.
Qed.

Lemma waited_flat_map {A} (g : A -> list Gfx.op) q js :
  (forall j, waited (g j) = q) ->
  waited (flat_map g js) = q * Z.of_nat (List.length js).
Proof.
  intros H; induction js as [|j js IH]; [cbn; lia|].
  cbn [flat_map]; rewrite waited_app, H, IH; cbn [List.length]; lia.
Qed.

Lemma times_cons i js y :
  times (i :: js) y
  = ((if Z.eq_dec i y then 1 else 0) + times js y)%nat.
Proof. unfold times; cbn [count_occ]; now destruct (Z.eq_dec i y). Qed.

(** Two interlaced passes reach every line below the limit once. *)
Lemma times_interlaced limit x :
  (times (strides 2 limit 0) x + times (strides 2 limit 1) x)%nat
  = if (0 <=? x) && (x <? limit) then 1%nat else 0%nat.
Proof.
  rewrite !times_strides by lia.
  bool_cases.
Qed.

(** The passes [0 .. c-1] of stride [c] reach every line below the limit
    once. *)
Lemma times_passes c limit x js :
  1 <= c -> (forall i, In i js -> 0 <= i < c) ->
  times (flat_map (strides c limit) js) x
  = if (0 <=? x) && (x <? limit) then times js (x mod c) else 0%nat.
Proof.
  intros Hc; induction js as [|i js IH]; intros Hjs.
  - cbn; now destruct ((0 <=? x) && (x <? limit)).
  - cbn [flat_map]; rewrite times_app, IH by (intros; apply Hjs; now right).
    rewrite times_strides by assumption.
    pose proof (Hjs i (or_introl eq_refl)) as Hi.
    rewrite (times_cons i js).
    pose proof (Z.mod_pos_bound x c ltac:(lia)) as Hm.
    pose proof (Z.div_mod x c ltac:(lia)) as Hd.
    destruct (Z.eq_dec i (x mod c)) as [Hi'|Hne].
    + subst i.
      replace ((x - x mod c) mod c) with 0
        by (replace (x - x mod c) with (x / c * c) by lia;
            now rewrite Z.mod_mul by lia).
      pose proof (Z.mod_le x c) as Hle.
      destruct (Z.leb_spec 0 x), (Z.ltb_spec x limit),
               (Z.leb_spec (x mod c) x); cbn; try reflexivity; lia.
    + replace ((i <=? x) && (x <? limit) && ((x - i) mod c =? 0))
        with false; [now destruct ((0 <=? x) && (x <? limit))|].
      symmetry; apply not_true_is_false; intros Ht.
      apply andb_prop in Ht as [Ht Hz]; apply andb_prop in Ht as [Hl Hu].
      apply Z.eqb_eq in Hz. apply Z.leb_le in Hl.
      apply Hne.
      apply (Z.mod_unique_pos x c ((x - i) / c) i); [lia|].
      pose proof (Z.div_mod (x - i) c ltac:(lia)); lia.
Qed.

Lemma times_all_passes c limit x :
  1 <= c ->
  times (flat_map (strides c limit) (strides 1 c 0)) x
  = if (0 <=? x) && (x <? limit) then 1%nat else 0%nat.
Proof.
  intros Hc.
  rewrite (times_passes c limit x) by
    (auto; intros i Hi; apply strides_range in Hi; lia).
  rewrite times_strides by lia.
  pose proof (Z.mod_pos_bound x c ltac:(lia)).
  rewrite Z.sub_0_r, Z.mod_1_r.
  destruct ((0 <=? x) && (x <? limit)); [|reflexivity].
  bool_cases.
Qed.

Lemma norm_idem d v : 0 <= d -> norm d (norm d v) = norm d v.
Proof. unfold norm; intros; bool_cases. Qed.


Lemma quot_long_range a c :
  0 <= a <= 2147483647 -> 1 <= c -> long_range (Z.quot a c).
Proof.
  intros Ha Hc; unfold long_range, int_range.
  rewrite Z.quot_div_nonneg by lia.
  pose proof (Z.div_pos a c ltac:(lia) ltac:(lia)).
  pose proof (Z.div_le_upper_bound a c a ltac:(lia) ltac:(nia)).
  lia.
Qed.

Lemma presents_slow_lines (g : Z -> Gfx.op) js :
  (forall j, presents [g j] = O) ->
  presents (flat_map (fun j => slow_line (g j)) js) = List.length js.
Proof.
  intros Hg.
  rewrite (presents_flat_map _ 1%nat); [lia|].
  intros j; specialize (Hg j); unfold slow_line.
  change (g j :: [Gfx.Core Display; Gfx.Core (Delay 5)])
    with ([g j] ++ [Gfx.Core Display; Gfx.Core (Delay 5)]).
  rewrite presents_app, Hg; reflexivity.
Qed.

Section FadeRuns.
Import Gfx.

Variables (W H : Z).
Hypothesis HW : int16_range W.
Hypothesis HH : int16_range H.

Lemma column_line color j :
  0 <= j < W ->
  column H color
    (DrawFastVLine (to_int16 j) (to_int16 0) (to_int16 H) color) = Some j.
Proof.
  intros Hj; unfold int16_range in *.
  rewrite !to_int16_small by (unfold int16_range; lia).
  cbn [column]; now rewrite !Z.eqb_refl.
Qed.

Lemma row_line color j :
  0 <= j < H ->
  row W color
    (DrawFastHLine (to_int16 0) (to_int16 j) (to_int16 W) color) = Some j.
Proof.
  intros Hj; unfold int16_range in *.
  rewrite !to_int16_small by (unfold int16_range; lia).
  cbn [row]; now rewrite !Z.eqb_refl.
Qed.

Lemma diagonal_line color j :
  0 <= j <= 32767 ->
  diagonal color
    (DrawLine (to_int16 0) (to_int16 j) (to_int16 j) (to_int16 0) color)
  = Some j.
Proof.
  intros Hj.
  rewrite !to_int16_small by (unfold int16_range; lia).
  cbn [diagonal]; now rewrite !Z.eqb_refl.
Qed.

Lemma column_loop fuel color i s :
  0 <= i <= 1 -> scr_width s = W -> scr_height s = H ->
  (Z.to_nat W <= fuel)%nat ->
  for_loop fuel to_int 2 W
    (fun i s => Finished (drawFastVLine i 0 (scr_height s) color s)) i s
  = Finished (mkScreen W H (drawn s ++ columns_of H color (strides 2 W i))).
Proof.
  intros Hi Hw Hh Hfuel.
  rewrite (for_loop_strides to_int 2 W _
             (fun j => [DrawFastVLine (to_int16 j) (to_int16 0) (to_int16 H)
                                      color]) W H);
    try assumption; try lia.
  - now rewrite flat_map_singleton.
  - intros j Hj; apply to_int_small; unfold int_range, int16_range in *; lia.
  - intros j s0 Hj Hw0 Hh0; unfold drawFastVLine, put; now rewrite Hw0, Hh0.
Qed.

Lemma row_loop fuel color i s :
  0 <= i <= 1 -> scr_width s = W -> scr_height s = H ->
  (Z.to_nat H <= fuel)%nat ->
  for_loop fuel to_int 2 H
    (fun i s => Finished (drawFastHLine 0 i (scr_width s) color s)) i s
  = Finished (mkScreen W H (drawn s ++ rows_of W color (strides 2 H i))).
Proof.
  intros Hi Hw Hh Hfuel.
  rewrite (for_loop_strides to_int 2 H _
             (fun j => [DrawFastHLine (to_int16 0) (to_int16 j) (to_int16 W)
                                      color]) W H);
    try assumption; try lia.
  - now rewrite flat_map_singleton.
  - intros j Hj; apply to_int_small; unfold int_range, int16_range in *; lia.
  - intros j s0 Hj Hw0 Hh0; unfold drawFastHLine, put; now rewrite Hw0, Hh0.
Qed.

Lemma diagonal_loop fuel color i s :
  0 <= i <= 1 -> scr_width s = W -> scr_height s = H ->
  (Z.to_nat (W + H) <= fuel)%nat ->
  for_loop fuel to_int 2 (to_int (W + H))
    (fun i s => Finished (drawLine 0 i i 0 color s)) i s
  = Finished (mkScreen W H
                (drawn s ++ diagonals_of color (strides 2 (W + H) i))).
Proof.
  intros Hi Hw Hh Hfuel.
  rewrite (to_int_small (W + H))
    by (unfold int_range, int16_range in *; lia).
  rewrite (for_loop_strides to_int 2 (W + H) _
             (fun j => [DrawLine (to_int16 0) (to_int16 j) (to_int16 j)
                                 (to_int16 0) color]) W H);
    try assumption; try lia.
  - now rewrite flat_map_singleton.
  - intros j Hj; apply to_int_small; unfold int_range, int16_range in *; lia.
  - intros j s0 Hj Hw0 Hh0; unfold drawLine, put; now rewrite Hw0, Hh0.
Qed.

Lemma picks_columns color c i :
  1 <= c -> 0 <= i ->
  picks (column H color) (columns_of H color (strides c W i)) = strides c W i.
Proof.
  intros Hc Hi; apply picks_map; intros j Hj.
  apply strides_range in Hj; [|assumption].
  apply column_line; try assumption; lia.
Qed.

Lemma picks_rows color c i :
  1 <= c -> 0 <= i ->
  picks (row W color) (rows_of W color (strides c H i)) = strides c H i.
Proof.
  intros Hc Hi; apply picks_map; intros j Hj.
  apply strides_range in Hj; [|assumption].
  apply row_line; try assumption; lia.
Qed.

Lemma picks_diagonals color c L i :
  1 <= c -> 0 <= i -> L <= 32768 ->
  picks (diagonal color) (diagonals_of color (strides c L i)) = strides c L i.
Proof.
  intros Hc Hi HL; apply picks_map; intros j Hj.
  apply strides_range in Hj; [|assumption].
  apply diagonal_line; lia.
Qed.

Lemma no_columns_in_rows h c c' js : picks (column h c) (rows_of W c' js) = [].
Proof.
  apply picks_none; intros g Hg.
  apply in_map_iff in Hg as [j [<- _]]; reflexivity.
Qed.

Lemma no_rows_in_columns w c c' js : picks (row w c) (columns_of H c' js) = [].
Proof.
  apply picks_none; intros g Hg.
  apply in_map_iff in Hg as [j [<- _]]; reflexivity.
Qed.

Lemma presents_columns c js : presents (columns_of H c js) = O.
Proof. induction js; cbn; auto. Qed.
Lemma presents_rows c js : presents (rows_of W c js) = O.
Proof. induction js; cbn; auto. Qed.
Lemma presents_diagonals c js : presents (diagonals_of c js) = O.
Proof. induction js; cbn; auto. Qed.
Lemma waited_columns c js : waited (columns_of H c js) = 0.
Proof. induction js; cbn; auto. Qed.
Lemma waited_rows c js : waited (rows_of W c js) = 0.
Proof. induction js; cbn; auto. Qed.
Lemma waited_diagonals c js : waited (diagonals_of c js) = 0.
Proof. induction js; cbn; auto. Qed.
Lemma bitmaps_columns c js : bitmaps (columns_of H c js) = [].
Proof. induction js; cbn; auto. Qed.
Lemma bitmaps_rows c js : bitmaps (rows_of W c js) = [].
Proof. induction js; cbn; auto. Qed.

Lemma fadeGrid_run fuel delaytime state s :
  scr_width s = W -> scr_height s = H ->
  (Z.to_nat W <= fuel)%nat -> (Z.to_nat H <= fuel)%nat ->
  fadeGrid fuel delaytime state s
  = Finished (mkScreen W H (drawn s ++ fadeGrid_ops W H delaytime state)).
Proof.
  intros Hw Hh HfW HfH; unfold fadeGrid, fadeGrid_ops.
  rewrite Hw.
  rewrite column_loop by (auto; lia); cbn [after].
  unfold delay, display, clearDisplay, put; cbn [scr_width scr_height drawn].
  rewrite row_loop by (auto; lia); cbn [after drawn].
  rewrite column_loop by (auto; lia); cbn [after drawn].
  destruct (state =? 0); cbn [scr_width scr_height drawn];
    repeat rewrite <- app_assoc; cbn [app]; rewrite ?app_nil_r; reflexivity.
Qed.

Lemma fadeCross_run fuel delaytime state s :
  scr_width s = W -> scr_height s = H ->
  (Z.to_nat (W + H) <= fuel)%nat ->
  fadeCross fuel delaytime state s
  = Finished (mkScreen W H
      (drawn s
       ++ diagonals_of state (strides 2 (W + H) 0)
       ++ [Core Display; Core (Delay (norm 50 delaytime))]
       ++ diagonals_of state (strides 2 (W + H) 1)
       ++ [Core Display; Core (Delay (norm 50 delaytime))]
       ++ (if state =? 0
           then [ClearDisplay; Core Display;
                 Core (Delay (norm 50 delaytime))]
           else []))).
Proof.
  intros Hw Hh Hfuel; unfold fadeCross.
  rewrite Hw, Hh.
  rewrite diagonal_loop by (auto; lia); cbn [after].
  unfold delay, display, clearDisplay, put; cbn [scr_width scr_height drawn].
  rewrite diagonal_loop by (auto; lia); cbn [after drawn].
  destruct (state =? 0); cbn [scr_width scr_height drawn];
    repeat rewrite <- app_assoc; cbn [app]; rewrite ?app_nil_r; reflexivity.
Qed.

Lemma blinds_run fuel cycles whole state limit line (g : Z -> op) s :
  1 <= cycles <= 2 ^ 31 - 2 ^ 17 -> limit <= 65536 ->
  scr_width s = W -> scr_height s = H ->
  (forall j s, 0 <= j < limit -> scr_width s = W -> scr_height s = H ->
     line j s = mkScreen W H (drawn s ++ [g j])) ->
  (Z.to_nat cycles <= fuel)%nat -> (Z.to_nat limit <= fuel)%nat ->
  blinds fuel cycles whole state limit line s
  = Finished (mkScreen W H
      (drawn s ++ blinds_ops cycles limit (to_long (Z.quot whole cycles))
                             state (map g))).
Proof.
  intros Hc HL Hw Hh Hline HfC HfL; unfold blinds, blinds_ops.
  assert (Hq : quotient whole cycles
               = Finished (to_long (Z.quot whole cycles))).
  { unfold quotient. replace (cycles =? 0) with false by lia. reflexivity. }
  rewrite (for_loop_strides to_int 1 cycles _
             (fun i => map g (strides cycles limit i)
                       ++ [Core Display;
                           Core (Delay (to_long (Z.quot whole cycles)))])
             W H); try assumption; try lia.
  - cbn [after]. rewrite Hq.
    unfold delay, display, clearDisplay, put;
      cbn [after scr_width scr_height drawn].
    destruct (state =? 0);
      repeat rewrite <- app_assoc; cbn [app]; rewrite ?app_nil_r; reflexivity.
  - intros j Hj; apply to_int_small; unfold int_range; lia.
  - intros i s0 Hi Hw0 Hh0.
    rewrite (for_loop_strides to_int cycles limit _ (fun j => [g j]) W H);
      try assumption; try lia.
    + cbn [after]. rewrite Hq.
      unfold delay, display, put; cbn [after scr_width scr_height drawn].
      rewrite flat_map_singleton.
      repeat rewrite <- app_assoc; reflexivity.
    + intros j Hj; apply to_int_small; unfold int_range; lia.
    + intros j s1 Hj Hw1 Hh1; f_equal; auto.
Qed.

Lemma picks_blinds f (g : Z -> op) cycles limit q state :
  1 <= cycles ->
  (forall j, 0 <= j < limit -> f (g j) = Some j) ->
  (forall e, f (Core e) = None) -> f ClearDisplay = None ->
  picks f (blinds_ops cycles limit q state (map g))
  = flat_map (strides cycles limit) (strides 1 cycles 0).
Proof.
  intros Hc Hg Hcore Hclear; unfold blinds_ops.
  rewrite picks_app.
  replace (picks f (if state =? 0
                    then [ClearDisplay; Core Display; Core (Delay q)]
                    else [])) with (@nil Z)
    by (destruct (state =? 0); cbn; now rewrite ?Hclear, ?Hcore).
  rewrite app_nil_r.
  assert (Hpass : forall i, In i (strides 1 cycles 0) -> 0 <= i)
    by (intros i Hi; apply strides_range in Hi; lia).
  revert Hpass; generalize (strides 1 cycles 0) as passes.
  induction passes as [|i passes IH]; intros Hpass; [reflexivity|].
  cbn [flat_map]; rewrite !picks_app; cbn [picks]; rewrite !Hcore.
  rewrite app_nil_r, IH by (intros; apply Hpass; now right).
  f_equal; apply picks_map; intros j Hj.
  apply strides_range in Hj; [|assumption].
  pose proof (Hpass i (or_introl eq_refl)).
  apply Hg; lia.
Qed.

Lemma presents_blinds lines cycles limit q state :
  0 <= cycles -> (forall js, presents (lines js) = O) ->
  Z.of_nat (presents (blinds_ops cycles limit q state lines))
  = cycles + (if state =? 0 then 1 else 0).
Proof.
  intros Hc Hl; unfold blinds_ops.
  rewrite presents_app, (presents_flat_map _ 1%nat)
    by (intros; now rewrite presents_app, Hl).
  rewrite length_strides_unit by assumption.
  destruct (state =? 0); cbn [presents]; lia.
Qed.

Lemma waited_blinds lines cycles limit q state :
  0 <= cycles -> (forall js, waited (lines js) = 0) ->
  waited (blinds_ops cycles limit q state lines)
  = (cycles + (if state =? 0 then 1 else 0)) * q.
Proof.
  intros Hc Hl; unfold blinds_ops.
  rewrite waited_app, (waited_flat_map _ q)
    by (intros; rewrite waited_app, Hl; cbn; lia).
  rewrite length_strides_unit by assumption.
  rewrite Z2Nat.id by assumption.
  destruct (state =? 0); cbn [waited]; ring.
Qed.

(** The three blinds fades as runs of [blinds_ops]. *)
Lemma fadeVertical_run fuel cycles whole state s :
  1 <= cycles <= 2 ^ 31 - 2 ^ 17 ->
  scr_width s = W -> scr_height s = H ->
  (Z.to_nat cycles <= fuel)%nat -> (Z.to_nat W <= fuel)%nat ->
  fadeVertical fuel cycles whole state s
  = Finished (mkScreen W H
      (drawn s ++ blinds_ops cycles W
         (to_long (Z.quot (if whole <? 0 then to_int (10 * cycles) else whole)
                          cycles))
         state (columns_of H state))).
Proof.
  intros Hc Hw Hh HfC HfL; unfold fadeVertical.
  replace (cycles <? 0) with false by lia.
  rewrite Hw.
  apply blinds_run; try assumption; try (unfold int16_range in *; lia).
  intros j s0 Hj Hw0 Hh0; unfold drawFastVLine, put; now rewrite Hw0, Hh0.
Qed.

Lemma fadeHorizontal_run fuel cycles whole state s :
  1 <= cycles <= 2 ^ 31 - 2 ^ 17 ->
  scr_width s = W -> scr_height s = H ->
  (Z.to_nat cycles <= fuel)%nat -> (Z.to_nat H <= fuel)%nat ->
  fadeHorizontal fuel cycles whole state s
  = Finished (mkScreen W H
      (drawn s ++ blinds_ops cycles H
         (to_long (Z.quot (if whole <? 0 then to_int (10 * cycles) else whole)
                          cycles))
         state (rows_of W state))).
Proof.
  intros Hc Hw Hh HfC HfL; unfold fadeHorizontal.
  replace (cycles <? 0) with false by lia.
  rewrite Hh.
  apply blinds_run; try assumption; try (unfold int16_range in *; lia).
  intros j s0 Hj Hw0 Hh0; unfold drawFastHLine, put; now rewrite Hw0, Hh0.
Qed.

Lemma fadeDiagonal_run fuel cycles whole state s :
  1 <= cycles <= 2 ^ 31 - 2 ^ 17 ->
  scr_width s = W -> scr_height s = H ->
  (Z.to_nat cycles <= fuel)%nat -> (Z.to_nat (W + H) <= fuel)%nat ->
  fadeDiagonal fuel cycles whole state s
  = Finished (mkScreen W H
      (drawn s ++ blinds_ops cycles (W + H)
         (to_long (Z.quot (if whole <? 0 then to_int (25 * cycles) else whole)
                          cycles))
         state (diagonals_of state))).
Proof.
  intros Hc Hw Hh HfC HfL; unfold fadeDiagonal.
  replace (cycles <? 0) with false by lia.
  rewrite Hw, Hh, (to_int_small (W + H))
    by (unfold int_range, int16_range in *; lia).
  apply blinds_run; try assumption; try (unfold int16_range in *; lia).
  intros j s0 Hj Hw0 Hh0; unfold drawLine, put; now rewrite Hw0, Hh0.
Qed.

Lemma slow_row_loop fuel i s :
  0 <= i <= 1 -> H <= 32766 -> scr_width s = W -> scr_height s = H ->
  (Z.to_nat H <= fuel)%nat ->
  for_loop fuel to_int16 2 H
    (fun i s =>
       Finished (delay 5 (display (drawFastHLine 0 i (scr_width s) ON s))))
    i s
  = Finished (mkScreen W H
      (drawn s
       ++ flat_map (fun j => slow_line (DrawFastHLine (to_int16 0)
                               (to_int16 j) (to_int16 W) ON))
                   (strides 2 H i))).
Proof.
  intros Hi Hmax Hw Hh Hfuel.
  apply for_loop_strides; try assumption; try lia.
  - intros j Hj; apply to_int16_small; unfold int16_range; lia.
  - intros j s0 Hj Hw0 Hh0.
    unfold delay, display, drawFastHLine, put, slow_line;
      cbn [scr_width scr_height drawn].
    rewrite Hw0, Hh0; repeat rewrite <- app_assoc; reflexivity.
Qed.

Lemma slow_column_loop fuel i s :
  0 <= i <= 1 -> W <= 32766 -> scr_width s = W -> scr_height s = H ->
  (Z.to_nat W <= fuel)%nat ->
  for_loop fuel to_int16 2 W
    (fun i s =>
       Finished (delay 5 (display (drawFastVLine i 0 (scr_height s) ON s))))
    i s
  = Finished (mkScreen W H
      (drawn s
       ++ flat_map (fun j => slow_line (DrawFastVLine (to_int16 j)
                               (to_int16 0) (to_int16 H) ON))
                   (strides 2 W i))).
Proof.
  intros Hi Hmax Hw Hh Hfuel.
  apply for_loop_strides; try assumption; try lia.
  - intros j Hj; apply to_int16_small; unfold int16_range; lia.
  - intros j s0 Hj Hw0 Hh0.
    unfold delay, display, drawFastVLine, put, slow_line;
      cbn [scr_width scr_height drawn].
    rewrite Hw0, Hh0; repeat rewrite <- app_assoc; reflexivity.
Qed.

Lemma fillScreenSlow_run fuel s :
  W <= 32766 -> H <= 32766 -> scr_width s = W -> scr_height s = H ->
  (Z.to_nat W <= fuel)%nat -> (Z.to_nat H <= fuel)%nat ->
  fillScreenSlow fuel s
  = Finished (mkScreen W H
      (drawn s
       ++ ClearDisplay
       :: flat_map (fun j => slow_line (DrawFastHLine (to_int16 0)
                               (to_int16 j) (to_int16 W) ON))
                   (strides 2 H 0)
       ++ flat_map (fun j => slow_line (DrawFastVLine (to_int16 j)
                               (to_int16 0) (to_int16 H) ON))
                   (strides 2 W 0)
       ++ flat_map (fun j => slow_line (DrawFastHLine (to_int16 0)
                               (to_int16 j) (to_int16 W) ON))
                   (strides 2 H 1))).
Proof.
  intros HmW HmH Hw Hh HfW HfH; unfold fillScreenSlow.
  unfold clearDisplay, put; cbn [scr_width scr_height drawn].
  rewrite Hw, Hh.
  rewrite slow_row_loop by (auto; lia); cbn [after scr_width scr_height].
  rewrite slow_column_loop by (auto; lia); cbn [after scr_width scr_height].
  rewrite slow_row_loop by (auto; lia); cbn [drawn].
  repeat rewrite <- app_assoc; reflexivity.
Qed.

Lemma picks_slow_rows c i :
  1 <= c -> 0 <= i ->
  picks (row W ON)
        (flat_map (fun j => slow_line (DrawFastHLine (to_int16 0)
                              (to_int16 j) (to_int16 W) ON))
                  (strides c H i))
  = strides c H i.
Proof.
  intros Hc Hi; apply picks_flat_map; intros j Hj.
  apply strides_range in Hj; [|assumption].
  unfold slow_line; cbn [picks]; rewrite row_line by lia; reflexivity.
Qed.

Lemma picks_slow_columns c i :
  1 <= c -> 0 <= i ->
  picks (column H ON)
        (flat_map (fun j => slow_line (DrawFastVLine (to_int16 j)
                              (to_int16 0) (to_int16 H) ON))
                  (strides c W i))
  = strides c W i.
Proof.
  intros Hc Hi; apply picks_flat_map; intros j Hj.
  apply strides_range in Hj; [|assumption].
  unfold slow_line; cbn [picks]; rewrite column_line by lia; reflexivity.
Qed.

Lemma fadeInGridBitmap_run fuel delaytime initdelaytime offset_x offset_y
    bmp s :
  scr_width s = W -> scr_height s = H ->
  (Z.to_nat W <= fuel)%nat -> (Z.to_nat H <= fuel)%nat ->
  fadeInGridBitmap fuel delaytime initdelaytime offset_x offset_y bmp s
  = Finished (mkScreen W H
      (drawn s
       ++ fadeGrid_ops W H delaytime ON
       ++ Core (Delay (norm 500 initdelaytime))
       :: columns_of H OFF (strides 2 W 0)
       ++ [Core (DrawBitmap (to_int16 offset_x) (to_int16 offset_y)
                   (bitmap bmp) (to_int16 (width bmp))
                   (to_int16 (height bmp)) ON);
           Core Display; Core (Delay (norm 50 delaytime))]
       ++ rows_of W OFF (strides 2 H 0)
       ++ [Core (DrawBitmap (to_int16 offset_x) (to_int16 offset_y)
                   (bitmap bmp) (to_int16 (width bmp))
                   (to_int16 (height bmp)) ON);
           Core Display; Core (Delay (norm 50 delaytime))]
       ++ rows_of W OFF (strides 2 H 1)
       ++ [Core (DrawBitmap (to_int16 offset_x) (to_int16 offset_y)
                   (bitmap bmp) (to_int16 (width bmp))
                   (to_int16 (height bmp)) ON);
           Core Display; Core (Delay (norm 50 delaytime))])).
Proof.
  intros Hw Hh HfW HfH; unfold fadeInGridBitmap.
  rewrite fadeGrid_run by assumption; cbn [after].
  unfold delay, display, drawBitmap, put; cbn [scr_width scr_height drawn].
  rewrite column_loop by (auto; lia); cbn [after scr_width scr_height drawn].
  rewrite row_loop by (auto; lia); cbn [after scr_width scr_height drawn].
  rewrite row_loop by (auto; lia); cbn [after scr_width scr_height drawn].
  unfold fadeGrid_ops; rewrite norm_idem by lia.
  repeat rewrite <- app_assoc; cbn [app]; reflexivity.
Qed.

End FadeRuns.

(** X16.  [fadeGrid] on a display whose sizes are [int16_t] values, given as
    many loop turns as the larger side: it finishes; every column is drawn
    exactly once as a full-height line in [state], every even row exactly
    once as a full-width line and no odd row; the display is presented three
    times, four for a fade-out, each followed by the normalised delay. *)
Theorem fadeGrid_covers fuel delaytime state s :
  int16_range (Gfx.scr_width s) -> int16_range (Gfx.scr_height s) ->
  (Z.to_nat (Gfx.scr_width s) <= fuel)%nat ->
  (Z.to_nat (Gfx.scr_height s) <= fuel)%nat ->
  exists ops,
    Gfx.fadeGrid fuel delaytime state s
    = Gfx.Finished (Gfx.mkScreen (Gfx.scr_width s) (Gfx.scr_height s)
                                 (Gfx.drawn s ++ ops))
    /\ (forall x, times (picks (column (Gfx.scr_height s) state) ops) x
                  = if (0 <=? x) && (x <? Gfx.scr_width s) then 1%nat
                    else 0%nat)
    /\ (forall y, times (picks (row (Gfx.scr_width s) state) ops) y
                  = if (0 <=? y) && (y <? Gfx.scr_height s) && (y mod 2 =? 0)
                    then 1%nat else 0%nat)
    /\ presents ops = (if state =? 0 then 4%nat else 3%nat)
    /\ waited ops = Z.of_nat (presents ops) * norm 50 delaytime.
Proof.
  intros HW HH HfW HfH.
  eexists; split;
    [eapply fadeGrid_run; eauto|].
  unfold fadeGrid_ops.
  repeat split.
  - intros x.
    rewrite !picks_app, !picks_columns, no_columns_in_rows by (auto; lia).
    replace (picks (column (Gfx.scr_height s) state)
                   (if state =? 0
                    then [Gfx.ClearDisplay; Gfx.Core Display;
                          Gfx.Core (Delay (norm 50 delaytime))]
                    else [])) with (@nil Z) by (now destruct (state =? 0)).
    cbn [picks app column]; rewrite app_nil_r, times_app.
    apply times_interlaced.
  - intros y.
    rewrite !picks_app, !picks_rows, !no_rows_in_columns by (auto; lia).
    replace (picks (row (Gfx.scr_width s) state)
                   (if state =? 0
                    then [Gfx.ClearDisplay; Gfx.Core Display;
                          Gfx.Core (Delay (norm 50 delaytime))]
                    else [])) with (@nil Z) by (now destruct (state =? 0)).
    cbn [picks app row]; rewrite app_nil_r.
    rewrite times_strides by lia.
    rewrite Z.sub_0_r; reflexivity.
  - rewrite !presents_app, !presents_columns, presents_rows.
    now destruct (state =? 0).
  - rewrite !presents_app, !presents_columns, presents_rows.
    rewrite !waited_app, !waited_columns, waited_rows.
    generalize (norm 50 delaytime) as d; intros d.
    destruct (state =? 0); cbn [waited presents Nat.add]; lia.
Qed.

Lemma fadeGrid_covers_witness :
  exists ops,
    Gfx.fadeGrid 128 (-1) 0 oled
    = Gfx.Finished (Gfx.mkScreen 128 64 ops)
    /\ presents ops = 4%nat /\ waited ops = 200.
Proof.
  destruct (fadeGrid_covers 128 (-1) 0 oled) as [ops [Hrun [_ [_ [Hp Hw]]]]].
  - unfold int16_range; cbn; lia.
  - unfold int16_range; cbn; lia.
  - cbn; lia.
  - cbn; lia.
  - exists ops; split; [exact Hrun|]. split; [exact Hp|].
    rewrite Hw, Hp; reflexivity.
Defined.

(** X17.  [fadeCross] on a display whose sides sum to at most 32768: it
    finishes; every anti-diagonal [(0, j) - (j, 0)] with
    [0 <= j < width + height] is drawn exactly once in [state]; the display
    is presented twice, three times for a fade-out. *)
Theorem fadeCross_covers fuel delaytime state s :
  int16_range (Gfx.scr_width s) -> int16_range (Gfx.scr_height s) ->
  Gfx.scr_width s + Gfx.scr_height s <= 32768 ->
  (Z.to_nat (Gfx.scr_width s + Gfx.scr_height s) <= fuel)%nat ->
  exists ops,
    Gfx.fadeCross fuel delaytime state s
    = Gfx.Finished (Gfx.mkScreen (Gfx.scr_width s) (Gfx.scr_height s)
                                 (Gfx.drawn s ++ ops))
    /\ (forall j, times (picks (diagonal state) ops) j
                  = if (0 <=? j) && (j <? Gfx.scr_width s + Gfx.scr_height s)
                    then 1%nat else 0%nat)
    /\ presents ops = (if state =? 0 then 3%nat else 2%nat)
    /\ waited ops = Z.of_nat (presents ops) * norm 50 delaytime.
Proof.
  intros HW HH Hsum Hfuel.
  eexists; split;
    [eapply fadeCross_run; eauto|].
  repeat split.
  - intros j.
    rewrite !picks_app, !picks_diagonals by lia.
    replace (picks (diagonal state)
                   (if state =? 0
                    then [Gfx.ClearDisplay; Gfx.Core Display;
                          Gfx.Core (Delay (norm 50 delaytime))]
                    else [])) with (@nil Z) by (now destruct (state =? 0)).
    cbn [picks app diagonal]; rewrite app_nil_r, times_app.
    apply times_interlaced.
  - rewrite !presents_app, !presents_diagonals.
    now destruct (state =? 0).
  - rewrite !presents_app, !presents_diagonals.
    rewrite !waited_app, !waited_diagonals.
    generalize (norm 50 delaytime) as d; intros d.
    destruct (state =? 0); cbn [waited presents Nat.add]; lia.
Qed.

Lemma fadeCross_covers_witness :
  exists ops,
    Gfx.fadeCross 192 20 1 oled = Gfx.Finished (Gfx.mkScreen 128 64 ops)
    /\ times (picks (diagonal 1) ops) 191 = 1%nat
    /\ times (picks (diagonal 1) ops) 192 = 0%nat.
Proof.
  destruct (fadeCross_covers 192 20 1 oled) as [ops [Hrun [Hd _]]].
  - unfold int16_range; cbn; lia.
  - unfold int16_range; cbn; lia.
  - cbn; lia.
  - cbn; lia.
  - exists ops; split; [exact Hrun|].
    split; [exact (Hd 191)|exact (Hd 192)].
Defined.

(** X18.  [fadeVertical] with at least one cycle: it finishes; over the
    [cycles] passes every column is drawn exactly once as a full-height line
    in [state]; the display is presented once per pass, and once more after
    the clear of a fade-out, each time followed by a wait of
    [wholedelaytime / cycles]. *)
Theorem fadeVertical_covers fuel cycles wholedelaytime state s :
  int16_range (Gfx.scr_width s) -> int16_range (Gfx.scr_height s) ->
  1 <= cycles <= 2 ^ 31 - 2 ^ 17 -> 0 <= wholedelaytime <= 2147483647 ->
  (Z.to_nat cycles <= fuel)%nat ->
  (Z.to_nat (Gfx.scr_width s) <= fuel)%nat ->
  exists ops,
    Gfx.fadeVertical fuel cycles wholedelaytime state s
    = Gfx.Finished (Gfx.mkScreen (Gfx.scr_width s) (Gfx.scr_height s)
                                 (Gfx.drawn s ++ ops))
    /\ (forall x, times (picks (column (Gfx.scr_height s) state) ops) x
                  = if (0 <=? x) && (x <? Gfx.scr_width s) then 1%nat
                    else 0%nat)
    /\ Z.of_nat (presents ops) = cycles + (if state =? 0 then 1 else 0)
    /\ waited ops = (cycles + (if state =? 0 then 1 else 0))
                    * Z.quot wholedelaytime cycles.
Proof.
  intros HW HH Hc Hwh HfC HfL.
  eexists; split;
    [eapply fadeVertical_run; eauto|].
  replace (wholedelaytime <? 0) with false by lia.
  rewrite to_long_small by (apply quot_long_range; lia).
  repeat split.
  - intros x.
    unfold columns_of; rewrite picks_blinds; try lia; try reflexivity.
    + apply times_all_passes; lia.
    + intros j Hj; apply (column_line (Gfx.scr_width s)); auto.
  - apply presents_blinds; [lia|apply presents_columns].
  - apply waited_blinds; [lia|apply waited_columns].
Qed.

Lemma fadeVertical_covers_witness :
  exists ops,
    Gfx.fadeVertical 128 4 40 0 oled = Gfx.Finished (Gfx.mkScreen 128 64 ops)
    /\ times (picks (column 64 0) ops) 127 = 1%nat
    /\ waited ops = 50.
Proof.
  destruct (fadeVertical_covers 128 4 40 0 oled) as [ops [Hrun [Hc [_ Hw]]]].
  - unfold int16_range; cbn; lia.
  - unfold int16_range; cbn; lia.
  - lia.
  - lia.
  - cbn; lia.
  - cbn; lia.
  - exists ops; split; [exact Hrun|].
    split; [exact (Hc 127)|exact Hw].
Defined.

(** X19.  [fadeHorizontal] with at least one cycle: it finishes; over the
    [cycles] passes every row is drawn exactly once as a full-width line in
    [state]; the display is presented once per pass, and once more after the
    clear of a fade-out, each time followed by a wait of
    [wholedelaytime / cycles]. *)
Theorem fadeHorizontal_covers fuel cycles wholedelaytime state s :
  int16_range (Gfx.scr_width s) -> int16_range (Gfx.scr_height s) ->
  1 <= cycles <= 2 ^ 31 - 2 ^ 17 -> 0 <= wholedelaytime <= 2147483647 ->
  (Z.to_nat cycles <= fuel)%nat ->
  (Z.to_nat (Gfx.scr_height s) <= fuel)%nat ->
  exists ops,
    Gfx.fadeHorizontal fuel cycles wholedelaytime state s
    = Gfx.Finished (Gfx.mkScreen (Gfx.scr_width s) (Gfx.scr_height s)
                                 (Gfx.drawn s ++ ops))
    /\ (forall y, times (picks (row (Gfx.scr_width s) state) ops) y
                  = if (0 <=? y) && (y <? Gfx.scr_height s) then 1%nat
                    else 0%nat)
    /\ Z.of_nat (presents ops) = cycles + (if state =? 0 then 1 else 0)
    /\ waited ops = (cycles + (if state =? 0 then 1 else 0))
                    * Z.quot wholedelaytime cycles.
Proof.
  intros HW HH Hc Hwh HfC HfL.
  eexists; split;
    [eapply fadeHorizontal_run; eauto|].
  replace (wholedelaytime <? 0) with false by lia.
  rewrite to_long_small by (apply quot_long_range; lia).
  repeat split.
  - intros y.
    unfold rows_of; rewrite picks_blinds; try lia; try reflexivity.
    + apply times_all_passes; lia.
    + intros j Hj; apply (row_line _ (Gfx.scr_height s)); auto.
  - apply presents_blinds; [lia|apply presents_rows].
  - apply waited_blinds; [lia|apply waited_rows].
Qed.

Lemma fadeHorizontal_covers_witness :
  exists ops,
    Gfx.fadeHorizontal 64 3 30 1 oled
    = Gfx.Finished (Gfx.mkScreen 128 64 ops)
    /\ times (picks (row 128 1) ops) 63 = 1%nat
    /\ waited ops = 30.
Proof.
  destruct (fadeHorizontal_covers 64 3 30 1 oled)
    as [ops [Hrun [Hc [_ Hw]]]].
  - unfold int16_range; cbn; lia.
  - unfold int16_range; cbn; lia.
  - lia.
  - lia.
  - cbn; lia.
  - cbn; lia.
  - exists ops; split; [exact Hrun|].
    split; [exact (Hc 63)|exact Hw].
Defined.

(** X20.  [fadeDiagonal] with at least one cycle on a display whose sides sum
    to at most 32768: it finishes; over the [cycles] passes every
    anti-diagonal [(0, j) - (j, 0)] with [0 <= j < width + height] is drawn
    exactly once in [state]; the display is presented once per pass, and
    once more after the clear of a fade-out, each time followed by a wait of
    [wholedelaytime / cycles]. *)
Theorem fadeDiagonal_covers fuel cycles wholedelaytime state s :
  int16_range (Gfx.scr_width s) -> int16_range (Gfx.scr_height s) ->
  Gfx.scr_width s + Gfx.scr_height s <= 32768 ->
  1 <= cycles <= 2 ^ 31 - 2 ^ 17 -> 0 <= wholedelaytime <= 2147483647 ->
  (Z.to_nat cycles <= fuel)%nat ->
  (Z.to_nat (Gfx.scr_width s + Gfx.scr_height s) <= fuel)%nat ->
  exists ops,
    Gfx.fadeDiagonal fuel cycles wholedelaytime state s
    = Gfx.Finished (Gfx.mkScreen (Gfx.scr_width s) (Gfx.scr_height s)
                                 (Gfx.drawn s ++ ops))
    /\ (forall j, times (picks (diagonal state) ops) j
                  = if (0 <=? j) && (j <? Gfx.scr_width s + Gfx.scr_height s)
                    then 1%nat else 0%nat)
    /\ Z.of_nat (presents ops) = cycles + (if state =? 0 then 1 else 0)
    /\ waited ops = (cycles + (if state =? 0 then 1 else 0))
                    * Z.quot wholedelaytime cycles.
Proof.
  intros HW HH Hsum Hc Hwh HfC HfL.
  eexists; split;
    [eapply fadeDiagonal_run; eauto|].
  replace (wholedelaytime <? 0) with false by lia.
  rewrite to_long_small by (apply quot_long_range; lia).
  repeat split.
  - intros j.
    unfold diagonals_of; rewrite picks_blinds; try lia; try reflexivity.
    + apply times_all_passes; lia.
    + intros k Hk; apply diagonal_line; lia.
  - apply presents_blinds; [lia|apply presents_diagonals].
  - apply waited_blinds; [lia|apply waited_diagonals].
Qed.

Lemma fadeDiagonal_covers_witness :
  exists ops,
    Gfx.fadeDiagonal 192 4 100 1 oled
    = Gfx.Finished (Gfx.mkScreen 128 64 ops)
    /\ times (picks (diagonal 1) ops) 191 = 1%nat
    /\ waited ops = 100.
Proof.
  destruct (fadeDiagonal_covers 192 4 100 1 oled)
    as [ops [Hrun [Hc [_ Hw]]]].
  - unfold int16_range; cbn; lia.
  - unfold int16_range; cbn; lia.
  - cbn; lia.
  - lia.
  - lia.
  - cbn; lia.
  - cbn; lia.
  - exists ops; split; [exact Hrun|].
    split; [exact (Hc 191)|exact Hw].
Defined.

(** X21.  A blinds fade with [cycles = 0] makes no pass: a fade-in returns at
    once with nothing drawn, a fade-out ends in the division of
    [wholedelaytime] by zero. *)
Theorem blinds_fade_zero_cycles fuel wholedelaytime state s :
  Gfx.fadeVertical fuel 0 wholedelaytime state s
  = (if state =? 0 then Gfx.DivisionByZero else Gfx.Finished s)
  /\ Gfx.fadeHorizontal fuel 0 wholedelaytime state s
     = (if state =? 0 then Gfx.DivisionByZero else Gfx.Finished s)
  /\ Gfx.fadeDiagonal fuel 0 wholedelaytime state s
     = (if state =? 0 then Gfx.DivisionByZero else Gfx.Finished s).
Proof.
  unfold Gfx.fadeVertical, Gfx.fadeHorizontal, Gfx.fadeDiagonal, Gfx.blinds.
  cbn [Z.ltb Z.compare].
  repeat split; destruct fuel; cbn [Gfx.for_loop Z.ltb Z.compare Gfx.after];
    destruct (state =? 0); reflexivity.
Qed.

(** X22.  [fillScreenSlow] on a display with sides up to 32766: it finishes;
    it clears first, then draws every row exactly once and every even column
    exactly once, lit and full length, and presents after each line. *)
Theorem fillScreenSlow_covers fuel s :
  -32768 <= Gfx.scr_width s <= 32766 -> -32768 <= Gfx.scr_height s <= 32766 ->
  (Z.to_nat (Gfx.scr_width s) <= fuel)%nat ->
  (Z.to_nat (Gfx.scr_height s) <= fuel)%nat ->
  exists ops,
    Gfx.fillScreenSlow fuel s
    = Gfx.Finished (Gfx.mkScreen (Gfx.scr_width s) (Gfx.scr_height s)
                                 (Gfx.drawn s ++ Gfx.ClearDisplay :: ops))
    /\ (forall y, times (picks (row (Gfx.scr_width s) ON) ops) y
                  = if (0 <=? y) && (y <? Gfx.scr_height s) then 1%nat
                    else 0%nat)
    /\ (forall x, times (picks (column (Gfx.scr_height s) ON) ops) x
                  = if (0 <=? x) && (x <? Gfx.scr_width s) && (x mod 2 =? 0)
                    then 1%nat else 0%nat)
    /\ presents ops
       = (List.length (picks (row (Gfx.scr_width s) ON) ops)
          + List.length (picks (column (Gfx.scr_height s) ON) ops))%nat.
Proof.
  intros HW HH HfW HfH.
  assert (HW' : int16_range (Gfx.scr_width s)) by (unfold int16_range; lia).
  assert (HH' : int16_range (Gfx.scr_height s)) by (unfold int16_range; lia).
  eexists; split;
    [eapply fillScreenSlow_run; eauto; lia|].
  assert (Hrc : forall js,
             picks (row (Gfx.scr_width s) ON)
               (flat_map (fun j => slow_line (Gfx.DrawFastVLine (to_int16 j)
                                    (to_int16 0)
                                    (to_int16 (Gfx.scr_height s)) ON)) js)
             = [])
    by (intros js; apply picks_flat_map_none; reflexivity).
  assert (Hcr : forall js,
             picks (column (Gfx.scr_height s) ON)
               (flat_map (fun j => slow_line (Gfx.DrawFastHLine (to_int16 0)
                                    (to_int16 j)
                                    (to_int16 (Gfx.scr_width s)) ON)) js)
             = [])
    by (intros js; apply picks_flat_map_none; reflexivity).
  rewrite !picks_app, !Hrc, !Hcr, !picks_slow_rows, !picks_slow_columns
    by (auto; lia).
  cbn [app]; rewrite app_nil_r.
  repeat split.
  - intros y; rewrite times_app; apply times_interlaced.
  - intros x; rewrite times_strides by lia.
    rewrite Z.sub_0_r; reflexivity.
  - rewrite !presents_app, !presents_slow_lines by reflexivity.
    rewrite length_app; lia.
Qed.

Lemma fillScreenSlow_covers_witness :
  exists ops,
    Gfx.fillScreenSlow 128 oled
    = Gfx.Finished (Gfx.mkScreen 128 64 (Gfx.ClearDisplay :: ops))
    /\ times (picks (row 128 ON) ops) 63 = 1%nat
    /\ times (picks (column 64 ON) ops) 127 = 0%nat.
Proof.
  destruct (fillScreenSlow_covers 128 oled) as [ops [Hrun [Hr [Hc _]]]].
  - cbn; lia.
  - cbn; lia.
  - cbn; lia.
  - cbn; lia.
  - exists ops; split; [exact Hrun|].
    split; [exact (Hr 63)|exact (Hc 127)].
Defined.

(** X23.  [fadeInGridBitmap] runs [fadeGrid] to white with the same delay,
    waits the normalised initial delay, then erases every row exactly once
    and every even column exactly once with dark full-length lines, drawing
    the bitmap at the given offset three times, once before each of its
    three presents. *)
Theorem fadeInGridBitmap_layers fuel delaytime initdelaytime offset_x offset_y
    bmp s :
  int16_range (Gfx.scr_width s) -> int16_range (Gfx.scr_height s) ->
  (Z.to_nat (Gfx.scr_width s) <= fuel)%nat ->
  (Z.to_nat (Gfx.scr_height s) <= fuel)%nat ->
  exists pre post,
    Gfx.fadeGrid fuel delaytime ON s
    = Gfx.Finished (Gfx.mkScreen (Gfx.scr_width s) (Gfx.scr_height s)
                                 (Gfx.drawn s ++ pre))
    /\ Gfx.fadeInGridBitmap fuel delaytime initdelaytime offset_x offset_y
                            bmp s
       = Gfx.Finished
           (Gfx.mkScreen (Gfx.scr_width s) (Gfx.scr_height s)
              (Gfx.drawn s ++ pre
               ++ Gfx.Core (Delay (norm 500 initdelaytime)) :: post))
    /\ (forall y, times (picks (row (Gfx.scr_width s) OFF) post) y
                  = if (0 <=? y) && (y <? Gfx.scr_height s) then 1%nat
                    else 0%nat)
    /\ (forall x, times (picks (column (Gfx.scr_height s) OFF) post) x
                  = if (0 <=? x) && (x <? Gfx.scr_width s) && (x mod 2 =? 0)
                    then 1%nat else 0%nat)
    /\ bitmaps post
       = repeat (DrawBitmap (to_int16 offset_x) (to_int16 offset_y)
                            (bitmap bmp) (to_int16 (width bmp))
                            (to_int16 (height bmp)) ON) 3
    /\ presents post = 3%nat.
Proof.
  intros HW HH HfW HfH.
  do 2 eexists; split; [eapply fadeGrid_run; eauto|].
  split; [eapply fadeInGridBitmap_run; eauto|].
  repeat split.
  - intros y.
    rewrite !picks_app, !picks_rows, no_rows_in_columns by (auto; lia).
    cbn [picks app row]; rewrite app_nil_r, times_app.
    apply times_interlaced.
  - intros x.
    rewrite !picks_app, picks_columns, !no_columns_in_rows by (auto; lia).
    cbn [picks app column]; rewrite app_nil_r.
    rewrite times_strides by lia.
    rewrite Z.sub_0_r; reflexivity.
  - rewrite !bitmaps_app, bitmaps_columns, !bitmaps_rows; reflexivity.
  - rewrite !presents_app, presents_columns, !presents_rows; reflexivity.
Qed.

Lemma fadeInGridBitmap_layers_witness :
  exists pre post,
    Gfx.fadeInGridBitmap 128 (-1) (-1) 0 0 bmp64 oled
    = Gfx.Finished
        (Gfx.mkScreen 128 64 (pre ++ Gfx.Core (Delay 500) :: post))
    /\ times (picks (row 128 OFF) post) 63 = 1%nat
    /\ bitmaps post = repeat (DrawBitmap 0 0 [] 128 64 ON) 3.
Proof.
  destruct (fadeInGridBitmap_layers 128 (-1) (-1) 0 0 bmp64 oled)
    as [pre [post [_ [Hrun [Hr [_ [Hb _]]]]]]].
  - unfold int16_range; cbn; lia.
  - unfold int16_range; cbn; lia.
  - cbn; lia.
  - cbn; lia.
  - exists pre, post; split; [exact Hrun|].
    split; [exact (Hr 63)|exact Hb].
Defined.

Lemma app_tail_split {A} (a : list A) d c x1 r x2 r' l :
  a ++ d :: c ++ x1 ++ r ++ x2 ++ r' ++ l
  = (a ++ d :: c ++ x1 ++ r ++ x2 ++ r') ++ l.
Proof.
  rewrite <- app_assoc. cbn [app]. now rewrite <- !app_assoc.
Qed.

Lemma scroll_first_frame fuel initialdelay enddelay scrolldelay scrollstep
    snaptoend allowoverflow offset_x offset_y end_y bmp w w' :
  drawVerticalScrollingBitmap fuel initialdelay enddelay scrolldelay
    scrollstep snaptoend allowoverflow offset_x offset_y end_y bmp w
  = Ret w' ->
  exists rest,
    trace w'
    = trace w ++ DrawBitmap (to_int16 offset_x) (to_int16 offset_y)
                            (bitmap bmp) (to_int16 (width bmp))
                            (to_int16 (height bmp)) ON :: rest.
Proof.
  unfold drawVerticalScrollingBitmap.
  destruct (0 <? scrollstep); [|destruct (scrollstep <? 0)].
  - destruct (scroll_down _ _ _ _ _ _ _ _ _ _) as [wl| |] eqn:El;
      try discriminate.
    cbn [bind]. intros H; injection H as <-.
    apply scroll_down_erases in El as (evs & T & _).
    unfold final_frame, delay, display, drawBitmap, log in *.
    cbn [trace] in *. rewrite T.
    eexists. rewrite <- !app_assoc. reflexivity.
  - destruct (scroll_up _ _ _ _ _ _ _ _ _) as [wl| |] eqn:El;
      try discriminate.
    cbn [bind]. intros H; injection H as <-.
    apply scroll_up_erases in El as (evs & T & _).
    unfold final_frame, delay, display, drawBitmap, log in *.
    cbn [trace] in *. rewrite T.
    eexists. rewrite <- !app_assoc. reflexivity.
  - intros H; injection H as <-.
    unfold delay, display, drawBitmap, log. cbn [trace].
    eexists. rewrite <- !app_assoc. reflexivity.
Qed.

(** X25.  No jump between the fade-in and the scroll.  When
    [drawVerticalScrollingBitmap] is given the offsets and the bitmap of the
    [fadeInGridBitmap] before it, its first call is the very draw
    [fadeInGridBitmap] presented last. *)
Theorem fade_in_then_scroll fuel delaytime initdelaytime offset_x offset_y
    bmp s fuel' initialdelay enddelay scrolldelay scrollstep snaptoend
    allowoverflow end_y w w' :
  int16_range (Gfx.scr_width s) -> int16_range (Gfx.scr_height s) ->
  (Z.to_nat (Gfx.scr_width s) <= fuel)%nat ->
  (Z.to_nat (Gfx.scr_height s) <= fuel)%nat ->
  drawVerticalScrollingBitmap fuel' initialdelay enddelay scrolldelay
    scrollstep snaptoend allowoverflow offset_x offset_y end_y bmp w
  = Ret w' ->
  exists frame before rest,
    Gfx.fadeInGridBitmap fuel delaytime initdelaytime offset_x offset_y bmp s
    = Gfx.Finished
        (Gfx.mkScreen (Gfx.scr_width s) (Gfx.scr_height s)
           (Gfx.drawn s ++ before
            ++ [Gfx.Core frame; Gfx.Core Display;
                Gfx.Core (Delay (norm 50 delaytime))]))
    /\ trace w' = trace w ++ frame :: rest.
Proof.
  intros HW HH HfW HfH Hrun.
  apply scroll_first_frame in Hrun as [rest Hrest].
  exists (DrawBitmap (to_int16 offset_x) (to_int16 offset_y) (bitmap bmp)
                     (to_int16 (width bmp)) (to_int16 (height bmp)) ON).
  eexists. exists rest. split; [|exact Hrest].
  rewrite (fadeInGridBitmap_run (Gfx.scr_width s) (Gfx.scr_height s))
    by first [assumption | reflexivity].
  do 3 f_equal.
  apply app_tail_split.
Qed.

Lemma fade_in_then_scroll_witness :
  exists w' frame before rest,
    drawVerticalScrollingBitmap 64 0 0 0 5 false false 0 0 0 bmp128 boot
    = Ret w'
    /\ Gfx.fadeInGridBitmap 128 (-1) (-1) 0 0 bmp128 oled
       = Gfx.Finished
           (Gfx.mkScreen 128 64
              (before ++ [Gfx.Core frame; Gfx.Core Display;
                          Gfx.Core (Delay 50)]))
    /\ trace w' = frame :: rest.
Proof.
  eexists.
  destruct (fade_in_then_scroll 128 (-1) (-1) 0 0 bmp128 oled 64 0 0 0 5
              false false 0 boot _
              ltac:(unfold int16_range; cbn; lia)
              ltac:(unfold int16_range; cbn; lia)
              ltac:(cbn; lia) ltac:(cbn; lia)
              ltac:(vm_compute; reflexivity))
    as (frame & before & rest & Hf & Ht).
  exists frame, before, rest.
  split; [vm_compute; reflexivity|]. split; [exact Hf | exact Ht].
Defined.

(** ** The serial wait ends when a byte arrives *)

Lemma drain_serial_more sch more : forall w sch' w',
  drain_serial sch w = Ret (sch', w') ->
  drain_serial (sch ++ more) w = Ret (sch' ++ more, w').
Proof.
  induction sch as [|t sch IH]; intros w sch' w' H; [discriminate|].
  cbn [drain_serial app] in *.
  destruct (Serial_available t w) as [n w1].
  destruct (n =? 0).
  - now injection H as <- <-.
  - now apply IH.
Qed.

Section SerialArrival.

Variable gs : Z * Z -> ascii -> Z * Z.

(** A poll that finds a byte ends the wait. *)
Lemma await_serial_ready t sch prev color w :
  rx w ++ arrive t <> [] ->
  exists w', await_serial gs (t :: sch) prev color w = Ret (sch, w')
             /\ rx w' = rx w ++ arrive t.
Proof.
  intros Hne. cbn [await_serial]. unfold Serial_available.
  cbn [pass rx log].
  destruct (rx w ++ arrive t) as [|b l] eqn:E; [congruence|].
  assert ((Z.of_nat (List.length (b :: l)) =? 0) = false) as ->
    by (apply Z.eqb_neq; cbn [List.length]; lia).
  eexists. split; [reflexivity|]. cbn [rx]. exact E.
Qed.

(** Polls that find nothing go on until the byte is there; the poll that
    finds it is the one after its arrival at the latest. *)
Lemma await_serial_arrival n : forall pre t_in t1 post prev color w,
  (List.length pre <= n)%nat ->
  Forall silent pre -> rx w = [] -> arrive t_in <> [] -> silent t1 ->
  exists sch' w',
    await_serial gs (pre ++ t_in :: t1 :: post) prev color w = Ret (sch', w')
    /\ (sch' = t1 :: post \/ sch' = post)
    /\ rx w' = arrive t_in.
Proof.
  induction n as [|n IH]; intros pre t_in t1 post prev color w Hn Hs Hrx Hin H1.
  - destruct pre; [|cbn in Hn; lia]. cbn [app].
    destruct (await_serial_ready t_in (t1 :: post) prev color w)
      as (w' & E & R); [rewrite Hrx; exact Hin|].
    exists (t1 :: post), w'. rewrite Hrx in R. auto.
  - destruct pre as [|t [|t' pre]].
    + cbn [app].
      destruct (await_serial_ready t_in (t1 :: post) prev color w)
        as (w' & E & R); [rewrite Hrx; exact Hin|].
      exists (t1 :: post), w'. rewrite Hrx in R. auto.
    + apply Forall_cons_iff in Hs as [Ht _].
      cbn [app await_serial].
      destruct (available_silent t w Ht Hrx) as (w1 & -> & Hrx1 & _).
      cbn [Z.eqb].
      destruct (millis t_in w1) as [now' w2] eqn:Em.
      assert (Hrx2 : rx w2 = arrive t_in).
      { unfold millis in Em. injection Em as _ <-.
        cbn [log rx pass]. now rewrite Hrx1. }
      destruct (500 <? to_long (now' - prev)).
      * destruct (await_serial_ready t1 post now' (lnot color)
                    (indicator gs (lnot color) w2)) as (w' & E & R).
        { rewrite rx_indicator, Hrx2. destruct (arrive t_in); [congruence|].
          discriminate. }
        exists post, w'. split; [exact E|]. split; [auto|].
        rewrite R, rx_indicator, Hrx2. unfold silent in H1. rewrite H1.
        apply app_nil_r.
      * destruct (await_serial_ready t1 post prev color w2) as (w' & E & R).
        { rewrite Hrx2. destruct (arrive t_in); [congruence|]. discriminate. }
        exists post, w'. split; [exact E|]. split; [auto|].
        rewrite R, Hrx2. unfold silent in H1. rewrite H1.
        apply app_nil_r.
    + apply Forall_cons_iff in Hs as [Ht Hs].
      apply Forall_cons_iff in Hs as [Ht' Hs].
      cbn [app await_serial].
      destruct (available_silent t w Ht Hrx) as (w1 & -> & Hrx1 & _).
      cbn [Z.eqb].
      destruct (millis_silent t' w1 Ht' Hrx1) as (w2 & -> & Hrx2 & _).
      destruct (500 <? _).
      * apply IH; auto; [cbn in Hn; lia|]. now rewrite rx_indicator.
      * apply IH; auto. cbn in Hn; lia.
Qed.

(** X26.  [ctcSerial] returns once a byte arrives.  When nothing arrives while
    the bytes queued before the call are flushed and the clock is read, a
    byte arriving afterwards ends the wait, and the call returns as soon as
    the arrived bytes are flushed in turn. *)
Theorem ctcSerial_returns_on_input pre t_in post w :
  Forall silent pre -> Forall silent post -> arrive t_in <> [] ->
  (List.length (rx w) + 2 <= List.length pre)%nat ->
  (List.length (arrive t_in) + 2 <= List.length post)%nat ->
  exists sch' w', ctcSerial gs (pre ++ t_in :: post, w) = Ret (sch', w').
Proof.
  intros Hpre Hpost Hin Hlpre Hlpost.
  unfold ctcSerial. cbn [getCursorX getCursorY].
  match goal with |- context [drain_serial _ ?w0] =>
    destruct (drain_serial_silent pre w0 Hpre) as (pre1 & w1 & E & L);
      [cbn [rx log]; lia|]
  end.
  cbn [rx log] in L.
  rewrite (drain_serial_more _ _ _ _ _ E). cbn [bind].
  apply drain_serial_polled in E as (Hrx1 & used & -> & _).
  apply Forall_app in Hpre as [_ Hpre1].
  destruct pre1 as [|tm pre2]; [cbn [List.length] in L; lia|].
  apply Forall_cons_iff in Hpre1 as [Htm Hpre2].
  cbn [app read_millis].
  destruct (millis_silent tm w1 Htm Hrx1) as (w2 & -> & Hrx2 & _).
  cbn [bind].
  destruct post as [|t1 post]; [cbn [List.length] in Hlpost; lia|].
  apply Forall_cons_iff in Hpost as [H1 Hpost].
  destruct (await_serial_arrival _ pre2 t_in t1 post
              (to_long (clock w1 + dt tm)) 0 w2 (Nat.le_refl _) Hpre2 Hrx2
              Hin H1) as (sch' & w' & -> & Hsch & Hrx').
  cbn [bind].
  assert (Hs' : Forall silent sch')
    by (destruct Hsch as [-> | ->]; auto).
  match goal with |- context [drain_serial sch' ?w0] =>
    destruct (drain_serial_silent sch' w0 Hs') as (l & w3 & -> & _)
  end.
  - rewrite rx_indicator, Hrx'.
    destruct Hsch as [-> | ->]; cbn [List.length] in *; lia.
  - cbn [bind]. eauto.
Qed.

End SerialArrival.

Lemma ctcSerial_returns_on_input_witness :
  exists sch' w',
    ctcSerial classic_step
      ([quiet; quiet; quiet] ++ key :: [quiet; quiet; quiet],
       mkWorld 0 16 1 [66] 0 [] [])
    = Ret (sch', w').
Proof.
  apply (ctcSerial_returns_on_input classic_step [quiet; quiet; quiet] key
           [quiet; quiet; quiet] (mkWorld 0 16 1 [66] 0 [] [])).
  - repeat constructor.
  - repeat constructor.
  - discriminate.
  - cbn; lia.
  - cbn; lia.
Defined.

